(** * Slack sidebar organiser: a shallow embedding of [organize.ts]

    The development follows the TypeScript source: JavaScript strings are
    [string]s, arrays are lists, a JavaScript [Map] is an association list kept
    in insertion order, [null]/[undefined] are [None], an expression that may
    throw has a [Completion].  The run of [main] threads the state of the
    Slack workspace explicitly and records what it prints, which relocation
    requests it sends and how the process ends. *)

From Stdlib Require Import String Ascii List Arith ZArith Bool Lia PeanoNat.
From Stdlib Require Import Permutation Sorted.
Import ListNotations.

Local Open Scope string_scope.
Local Open Scope list_scope.

(* ====================================================================== *)
(** * JavaScript string primitives *)
(* ====================================================================== *)

Module Js.

(** [s.split(sep)] for a one-character separator: never the empty array,
    and [''.split('-')] is [['']]. *)
Fixpoint split (sep : ascii) (s : string) : list string :=
  match s with
  | EmptyString => [EmptyString]
  | String c s' =>
      if Ascii.eqb c sep then EmptyString :: split sep s'
      else match split sep s' with
           | [] => [String c EmptyString]
           | p :: ps => String c p :: ps
           end
  end.

(** [parts.join(sep)]: the empty array joins to the empty string. *)
Fixpoint join (sep : string) (parts : list string) : string :=
  match parts with
  | [] => EmptyString
  | [p] => p
  | p :: ps => p ++ sep ++ join sep ps
  end.

(** [s.startsWith(p)] *)
Definition startsWith (s p : string) : bool := String.prefix p s.

(** [s.endsWith(x)]: some tail of [s] is [x]. *)
Fixpoint endsWith (s x : string) : bool :=
  String.eqb s x ||
  match s with
  | EmptyString => false
  | String _ s' => endsWith s' x
  end.

(** [s.includes(x)]: [x] starts at some position of [s]. *)
Fixpoint includes (s x : string) : bool :=
  String.prefix x s ||
  match s with
  | EmptyString => false
  | String _ s' => includes s' x
  end.

(** [arr.slice(0, -1)] *)
Definition dropLast {A} (l : list A) : list A := removelast l.

(** [arr.slice(0, n)] *)
Definition sliceTo {A} (n : nat) (l : list A) : list A := firstn n l.

(** The character a one-character separator string stands for. *)
Definition hyphen : ascii := "-"%char.

(** The separator string made of one character. *)
Definition separator (sep : ascii) : string := String sep EmptyString.

End Js.

(* ====================================================================== *)
(** * JavaScript [Map]: entries in insertion order *)
(* ====================================================================== *)

Module JsMap.

Definition t (V : Type) : Type := list (string * V).

Definition empty {V} : t V := [].

(** [m.get(k)] *)
Fixpoint get {V} (k : string) (m : t V) : option V :=
  match m with
  | [] => None
  | (k', v) :: m' => if String.eqb k' k then Some v else get k m'
  end.

(** [m.set(k, v)]: an existing key keeps its position, a new key goes last. *)
Fixpoint set {V} (k : string) (v : V) (m : t V) : t V :=
  match m with
  | [] => [(k, v)]
  | (k', v') :: m' =>
      if String.eqb k' k then (k', v) :: m' else (k', v') :: set k v m'
  end.

Definition keys {V} (m : t V) : list string := map fst m.

(** [m.size] *)
Definition size {V} (m : t V) : nat := length m.

End JsMap.

(* ====================================================================== *)
(** * Pattern miner: [getPrefixes], [getSuffixes], [bestPrefix] *)
(* ====================================================================== *)

(** The key built at loop index [i]: [firstFourParts.slice(0, i + 1).join('-')]. *)
Definition prefixAt (firstFourParts : list string) (i : nat) : string :=
  Js.join "-" (Js.sliceTo (i + 1) firstFourParts).

(** [prefixCandidates.set(prefix, (prefixCandidates.get(prefix) || 0) + 1)] *)
Definition bump (prefix : string) (prefixCandidates : JsMap.t nat) : JsMap.t nat :=
  JsMap.set prefix
    (match JsMap.get prefix prefixCandidates with
     | Some n => n
     | None => 0
     end + 1)
    prefixCandidates.

(** The segments of one name that take part: all but the last, at most four. *)
Definition firstFourParts (name : string) : list string :=
  let parts := Js.split Js.hyphen name in
  let partsWithoutLast := Js.dropLast parts in
  Js.sliceTo 4 partsWithoutLast.

(** The body of the outer loop of [getPrefixes] for one name. *)
Definition countName (prefixCandidates : JsMap.t nat) (name : string) : JsMap.t nat :=
  let ffp := firstFourParts name in
  fold_left (fun acc i => bump (prefixAt ffp i) acc) (seq 0 (length ffp)) prefixCandidates.

Definition getPrefixes (channelNames : list string) : JsMap.t nat :=
  fold_left countName channelNames JsMap.empty.

(** [name.split('-').reverse().join('-')] *)
Definition mirror (name : string) : string :=
  Js.join "-" (rev (Js.split Js.hyphen name)).

Definition getSuffixes (channelNames : list string) : JsMap.t nat :=
  let reversedNames := map mirror channelNames in
  let prefixes := getPrefixes reversedNames in
  fold_left (fun suffixes kv => JsMap.set (mirror (fst kv)) (snd kv) suffixes)
            prefixes JsMap.empty.

(** The specification's view of the miner.  [leadingRuns name] lists the
    candidates one name contributes: split on the separator, drop the trailing
    segment, keep at most the first four of the rest, and join every leading
    run of length 1 to k of them. *)
Definition leadingRuns (name : string) : list string :=
  let segments := firstn 4 (removelast (Js.split Js.hyphen name)) in
  map (fun len => Js.join "-" (firstn len segments)) (seq 1 (length segments)).

(** How often a candidate occurs over all names. *)
Definition occurrences (candidate : string) (names : list string) : nat :=
  count_occ string_dec (flat_map leadingRuns names) candidate.

(** The count stored under a key, [0] when the key is absent:
    [m.get(k) || 0]. *)
Definition countOf (k : string) (m : JsMap.t nat) : nat :=
  match JsMap.get k m with
  | Some n => n
  | None => 0
  end.

(** Counting a list of candidates, one after the other. *)
Definition bumpAll (candidates : list string) (m : JsMap.t nat) : JsMap.t nat :=
  fold_left (fun acc k => bump k acc) candidates m.

(** A map with every key mirrored and every count kept. *)
Definition reverseKeyed (m : JsMap.t nat) : JsMap.t nat :=
  map (fun kv => (mirror (fst kv), snd kv)) m.

(** [c] occurs in [s]. *)
Fixpoint occursIn (c : ascii) (s : string) : bool :=
  match s with
  | EmptyString => false
  | String c' s' => Ascii.eqb c' c || occursIn c s'
  end.

(* ====================================================================== *)
(** * Sidebar sections *)
(* ====================================================================== *)

Module SidebarSectionJSON.
Record t : Type := mk {
  channel_section_id : string;
  name : string;
  type : string;
  channel_ids : list string   (* [channel_ids_page.channel_ids] *)
}.
End SidebarSectionJSON.

Module SidebarSection.

Record t : Type := mk {
  id : string;
  name : string;
  channelIds : list string
}.

Definition fromJSON (json : SidebarSectionJSON.t) : t :=
  mk (SidebarSectionJSON.channel_section_id json)
     (SidebarSectionJSON.name json)
     (SidebarSectionJSON.channel_ids json).

(** [this.channelIds.includes(channelId)] *)
Definition includesChannel (s : t) (channelId : string) : bool :=
  existsb (String.eqb channelId) (channelIds s).

End SidebarSection.

(* ====================================================================== *)
(** * Sidebar rules *)
(* ====================================================================== *)

(** A thrown [Error]: only its message is observed. *)
Inductive Thrown : Type := Error (message : string).

(** An expression that may throw. *)
Inductive Completion (A : Type) : Type :=
| Normal (a : A)
| Throw (e : Thrown).
Arguments Normal {A} a.
Arguments Throw {A} e.

Module RuleJSON.
Record t : Type := mk {
  type : string;
  sidebar_section : string;
  prefix : option string;
  suffix : option string;
  keyword : option string
}.
End RuleJSON.

(** A string argument that may be [undefined] at run time: the string methods
    convert it with [ToString]. *)
Definition toStringArg (v : option string) : string :=
  match v with
  | Some s => s
  | None => "undefined"
  end.

Module SidebarRule.

(** The three subclasses.  The matching value is what [json.prefix!] (and
    its siblings) evaluates to, [undefined] included. *)
Inductive t : Type :=
| PrefixSidebarRule (sidebarSectionId : string) (prefix : option string)
| SuffixSidebarRule (sidebarSectionId : string) (suffix : option string)
| KeywordSidebarRule (sidebarSectionId : string) (keyword : option string).

Definition sidebarSectionId (r : t) : string :=
  match r with
  | PrefixSidebarRule i _ | SuffixSidebarRule i _ | KeywordSidebarRule i _ => i
  end.

Definition applies (r : t) (channelName : string) : bool :=
  match r with
  | PrefixSidebarRule _ p => Js.startsWith channelName (toStringArg p)
  | SuffixSidebarRule _ s => Js.endsWith channelName (toStringArg s)
  | KeywordSidebarRule _ k => Js.includes channelName (toStringArg k)
  end.

Definition toString (r : t) : string :=
  match r with
  | PrefixSidebarRule _ p => "Prefix: #" ++ toStringArg p
  | SuffixSidebarRule _ s => "Suffix: #" ++ toStringArg s
  | KeywordSidebarRule _ k => "Keyword: #" ++ toStringArg k
  end.

Definition fromJSON (sidebarSectionId : string) (json : RuleJSON.t) : Completion t :=
  if String.eqb (RuleJSON.type json) "prefix" then
    Normal (PrefixSidebarRule sidebarSectionId (RuleJSON.prefix json))
  else if String.eqb (RuleJSON.type json) "suffix" then
    Normal (SuffixSidebarRule sidebarSectionId (RuleJSON.suffix json))
  else if String.eqb (RuleJSON.type json) "keyword" then
    Normal (KeywordSidebarRule sidebarSectionId (RuleJSON.keyword json))
  else
    Throw (Error ("Unknown rule type: " ++ RuleJSON.type json)).

End SidebarRule.

(** [bestPrefix]: the longest of the prefixes that start the name.
    [Array.prototype.sort] is stable, so among the longest the first wins. *)
Fixpoint longestFirst (best : string) (rest : list string) : string :=
  match rest with
  | [] => best
  | p :: ps =>
      if Nat.ltb (String.length best) (String.length p) then longestFirst p ps
      else longestFirst best ps
  end.

Definition bestPrefix (channelName : string) (prefixes : list string) : option string :=
  match filter (fun p => Js.startsWith channelName p) prefixes with
  | [] => None
  | m :: ms => Some (longestFirst m ms)
  end.

(* ====================================================================== *)
(** * Rate limiter *)
(* ====================================================================== *)

Module RateLimiter.

Record t : Type := mk {
  limit : Z;
  intervalMs : Z;
  timestamps : list Z
}.

(** [new RateLimiter(limit, intervalMs)] *)
Definition new (limit intervalMs : Z) : t := mk limit intervalMs [].

(** [this.timestamps.filter(t => now - t < this.intervalMs)] *)
Definition prune (rl : t) (now : Z) : list Z :=
  filter (fun t => (now - t <? intervalMs rl)%Z) (timestamps rl).

(** One call of [wait] by a single caller, on a clock that only [sleep]
    advances, and by exactly the time asked for.  The result is the limiter
    and the clock when the promise resolves.  Each unfolding of the
    recursive call [return this.wait()] consumes one unit of [fuel]; [None]
    means the fuel ran out.  With no retained timestamp, [this.timestamps[0]]
    is [undefined], [waitTime] is [NaN] and [waitTime > 0] is false. *)
Fixpoint wait (fuel : nat) (rl : t) (now : Z) : option (t * Z) :=
  match fuel with
  | O => None
  | S fuel' =>
      let kept := prune rl now in
      let rl' := mk (limit rl) (intervalMs rl) kept in
      if (limit rl <=? Z.of_nat (length kept))%Z then
        match kept with
        | [] => wait fuel' rl' now
        | oldest :: _ =>
            let waitTime := (oldest + intervalMs rl - now)%Z in
            if (0 <? waitTime)%Z then wait fuel' rl' (now + waitTime)%Z
            else wait fuel' rl' now
        end
      else Some (mk (limit rl) (intervalMs rl) (kept ++ [now]), now)
  end.

(** Fuel that suffices whenever [limit >= 1]: every retry drops the oldest
    timestamp. *)
Definition enough (rl : t) : nat := S (length (timestamps rl)).

End RateLimiter.

(* ====================================================================== *)
(** * The Slack client, as seen by [main] *)
(* ====================================================================== *)

Module ChannelJSON.
Record t : Type := mk {
  id : string;
  name : string;
  is_channel : bool;
  is_member : bool
}.
End ChannelJSON.

Module SidebarMove.
Record t : Type := mk {
  channelId : string;
  fromSidebarSectionId : option string;
  toSidebarSectionId : string
}.
End SidebarMove.

(** The answer of [users.channelSections.list]. *)
Module SidebarList.
Record t : Type := mk {
  ok : bool;
  channel_sections : list SidebarSectionJSON.t
}.
End SidebarList.

(** The answer of [users.channelSections.channels.bulkUpdate]. *)
Module MoveResult.
Record t : Type := mk {
  ok : bool;
  error : option string
}.
End MoveResult.

(* ====================================================================== *)
(** * [SlackClient.getChannels]: the pages of [conversations.list] *)
(* ====================================================================== *)

(** The answer of [conversations.list], as far as [getChannels] reads it. *)
Module ConversationsList.
Record t : Type := mk {
  error : option string;
  retry_after : option Z;
  next_cursor : option string;               (* [response_metadata?.next_cursor] *)
  channels : option (list ChannelJSON.t)
}.
End ConversationsList.

Module Pages.

(** What [getChannels] acts on: the service, the sleeps it asked for (ms) and
    the pages for which [onFetched] was called, with their channels. *)
Record world (S : Type) : Type := mk {
  service : S;
  sleeps : list Z;
  fetched : list (list ChannelJSON.t)
}.
Arguments mk {S}.
Arguments service {S}.
Arguments sleeps {S}.
Arguments fetched {S}.

(** A string that is set and not empty, as [if (cursor)] and
    [nextCursor && nextCursor !== ''] test it. *)
Definition truthy (cursor : option string) : option string :=
  match cursor with
  | None | Some EmptyString => None
  | Some c => Some c
  end.

(** [(json.retry_after || 60) * 1000] *)
Definition retryAfter (json : ConversationsList.t) : Z :=
  (match ConversationsList.retry_after json with
   | None | Some 0%Z => 60
   | Some n => n
   end * 1000)%Z.

Section WithService.

Context {S : Type}.

(** [makeRequest('/api/conversations.list', body, params)], by the [cursor]
    parameter, which is only set for a cursor that is not empty. *)
Variable conversationsList : option string -> S -> Completion ConversationsList.t * S.

(** [a.localeCompare(b)] *)
Variable localeCompare : string -> string -> Z.

(** [channels.sort((a, b) => a.name.localeCompare(b.name))]; the sort is
    stable. *)
Fixpoint insertByName (x : ChannelJSON.t) (sorted : list ChannelJSON.t)
  : list ChannelJSON.t :=
  match sorted with
  | [] => [x]
  | y :: ys =>
      if (0 <? localeCompare (ChannelJSON.name x) (ChannelJSON.name y))%Z
      then y :: insertByName x ys
      else x :: y :: ys
  end.

Definition sortByName (channels : list ChannelJSON.t) : list ChannelJSON.t :=
  fold_right insertByName [] channels.

(** [getChannels(cursor, onFetched)].  Each request consumes one unit of
    [fuel]; [None] means the fuel ran out. *)
Fixpoint getChannels (fuel : nat) (cursor : option string) (w : world S)
  : option (Completion (list ChannelJSON.t) * world S) :=
  match fuel with
  | O => None
  | Datatypes.S fuel' =>
      let '(answer, service') := conversationsList (truthy cursor) (service w) in
      match answer with
      | Throw e => Some (Throw e, mk service' (sleeps w) (fetched w))
      | Normal json =>
          if match ConversationsList.error json with
             | Some e => String.eqb e "ratelimited"
             | None => false
             end
          then getChannels fuel' cursor
                 (mk service' (sleeps w ++ [retryAfter json]) (fetched w))
          else
            let channels :=
              match ConversationsList.channels json with
              | Some cs => cs
              | None => []
              end in
            let w1 := mk service' (sleeps w) (fetched w ++ [channels]) in
            match truthy (ConversationsList.next_cursor json) with
            | Some nextCursor =>
                match getChannels fuel' (Some nextCursor) w1 with
                | None => None
                | Some (Throw e, w2) => Some (Throw e, w2)
                | Some (Normal moreChannels, w2) =>
                    Some (Normal (sortByName (channels ++ moreChannels)), w2)
                end
            | None => Some (Normal (sortByName channels), w1)
            end
      end
  end.

End WithService.

End Pages.

(** The workspace behind [SlackClient].  [S] is the state of the service.  The
    listing requests only read it; [sidebarMove] is the one request that may
    change it.  An awaited request either resolves to the parsed answer or
    rejects (a network error, an answer that is not JSON).
    [conversationsList asked cursor] is the answer to the request of
    [conversations.list] that [getChannels] makes after [asked] earlier ones,
    with the given [cursor] parameter: the service may answer every request
    differently. *)
Record SlackClient (S : Type) : Type := {
  getSidebarList : S -> Completion SidebarList.t;
  conversationsList : nat -> option string -> S -> Completion ConversationsList.t;
  sidebarMove : string -> string -> option string -> S -> Completion MoveResult.t * S
}.
Arguments getSidebarList {S} _ _.
Arguments conversationsList {S} _ _ _ _.
Arguments sidebarMove {S} _ _ _ _ _.

(** [client.getChannels(undefined, onFetched)], as [main] calls it: the
    pages are fetched by [Pages.getChannels], which counts the requests it
    has made.  [None] means that the call has not returned after [fuel]
    requests; a call that is answered [ratelimited] every time, or is given a
    next cursor every time, never returns. *)
Definition getChannels {S} (client : SlackClient S)
    (localeCompare : string -> string -> Z) (fuel : nat) (s : S)
  : option (Completion (list ChannelJSON.t)) :=
  option_map fst
    (Pages.getChannels
       (fun cursor asked => (conversationsList client asked cursor s, Datatypes.S asked))
       localeCompare fuel None (Pages.mk 0 [] [])).

(** [client.ping()]: [result?.ok === true] *)
Definition ping {S} (client : SlackClient S) (s : S) : Completion bool :=
  match getSidebarList client s with
  | Normal result => Normal (SidebarList.ok result)
  | Throw e => Throw e
  end.

(* ====================================================================== *)
(** * Move planning *)
(* ====================================================================== *)

(** [sidebarSections.find(s => s.id === id)] *)
Definition getSidebarSection (sidebarSections : list SidebarSection.t) (id : string)
  : option SidebarSection.t :=
  find (fun s => String.eqb (SidebarSection.id s) id) sidebarSections.

(** [sidebarRules.find(r => r.applies(channel.name))] *)
Definition findRule (sidebarRules : list SidebarRule.t) (channelName : string)
  : option SidebarRule.t :=
  find (fun r => SidebarRule.applies r channelName) sidebarRules.

(** [x?.id || null]: an absent section and an empty id both give [null]. *)
Definition idOrNull (x : option SidebarSection.t) : option string :=
  match x with
  | None => None
  | Some s => if String.eqb (SidebarSection.id s) "" then None
              else Some (SidebarSection.id s)
  end.

(** One iteration of the planning loop over [channels], acting on
    [(totalMatches, sidebarMoves)]. *)
Definition planChannel (sidebarSections : list SidebarSection.t)
    (sidebarRules : list SidebarRule.t)
    (acc : nat * list SidebarMove.t) (entry : string * ChannelJSON.t)
  : nat * list SidebarMove.t :=
  let '(totalMatches, sidebarMoves) := acc in
  let '(channelId, channel) := entry in
  match findRule sidebarRules (ChannelJSON.name channel) with
  | None => acc
  | Some rule =>
      let totalMatches := totalMatches + 1 in
      match getSidebarSection sidebarSections (SidebarRule.sidebarSectionId rule) with
      | None => (totalMatches, sidebarMoves)
      | Some toSidebarSection =>
          if SidebarSection.includesChannel toSidebarSection channelId
          then (totalMatches, sidebarMoves)
          else
            let fromSidebarSection :=
              find (fun s => SidebarSection.includesChannel s channelId) sidebarSections in
            (totalMatches,
             sidebarMoves ++
               [SidebarMove.mk channelId (idOrNull fromSidebarSection)
                               (SidebarSection.id toSidebarSection)])
      end
  end.

Definition calculateMoves (sidebarSections : list SidebarSection.t)
    (sidebarRules : list SidebarRule.t) (channels : JsMap.t ChannelJSON.t)
  : nat * list SidebarMove.t :=
  fold_left (planChannel sidebarSections sidebarRules) channels (0, []).

(** The section that currently holds a channel: the first that lists it. *)
Definition holder (sidebarSections : list SidebarSection.t) (channelId : string)
  : option SidebarSection.t :=
  find (fun s => SidebarSection.includesChannel s channelId) sidebarSections.

(** What the planning loop guarantees of a move it appends. *)
Definition planned (sidebarSections : list SidebarSection.t) (m : SidebarMove.t) : Prop :=
  (exists toSidebarSection,
      getSidebarSection sidebarSections (SidebarMove.toSidebarSectionId m)
      = Some toSidebarSection
      /\ SidebarSection.includesChannel toSidebarSection (SidebarMove.channelId m) = false)
  /\ SidebarMove.fromSidebarSectionId m
     = idOrNull (holder sidebarSections (SidebarMove.channelId m)).

(** [channels.set(c.id, c)] for every member channel, in order. *)
Definition indexChannels (memberChannels : list ChannelJSON.t) : JsMap.t ChannelJSON.t :=
  fold_left (fun channels c => JsMap.set (ChannelJSON.id c) c channels)
            memberChannels JsMap.empty.

(** Grouping moves by destination, as both reports do. *)
Definition groupByDestination (moves : list SidebarMove.t) : JsMap.t (list SidebarMove.t) :=
  fold_left
    (fun byDestination move =>
       let k := SidebarMove.toSidebarSectionId move in
       let moves :=
         match JsMap.get k byDestination with
         | Some ms => ms
         | None => []
         end in
       JsMap.set k (moves ++ [move]) byDestination)
    moves JsMap.empty.

(** The per-destination counts of the final summary. *)
Definition countByDestination (moves : list SidebarMove.t) : JsMap.t nat :=
  fold_left (fun summary move => bump (SidebarMove.toSidebarSectionId move) summary)
            moves JsMap.empty.

(* ====================================================================== *)
(** * The executor loop *)
(* ====================================================================== *)

Module Executor.

(** What the loop has built so far.  [requests] logs the calls of
    [client.sidebarMove] in the order they were made. *)
Record state (S : Type) : Type := mk {
  limiter : RateLimiter.t;
  clock : Z;
  service : S;
  requests : list SidebarMove.t;
  successfulMoves : list SidebarMove.t;
  errors : list (SidebarMove.t * MoveResult.t)
}.
Arguments mk {S}.
Arguments limiter {S}.
Arguments clock {S}.
Arguments service {S}.
Arguments requests {S}.
Arguments successfulMoves {S}.
Arguments errors {S}.

(** How the loop ended: it ran through the list, an awaited request threw
    (the exception leaves [main]), or a [limiter.wait()] never resolved. *)
Inductive outcome : Type :=
| Completed
| Uncaught (e : Thrown)
| Stuck.

Definition start {S} (limiter : RateLimiter.t) (now : Z) (s : S) : state S :=
  mk limiter now s [] [] [].

Fixpoint run {S} (client : SlackClient S) (sidebarMoves : list SidebarMove.t)
    (st : state S) : outcome * state S :=
  match sidebarMoves with
  | [] => (Completed, st)
  | move :: rest =>
      match RateLimiter.wait (RateLimiter.enough (limiter st)) (limiter st) (clock st) with
      | None => (Stuck, st)
      | Some (limiter', clock') =>
          let '(result, service') :=
            sidebarMove client
              (SidebarMove.channelId move)
              (SidebarMove.toSidebarSectionId move)
              (SidebarMove.fromSidebarSectionId move)
              (service st) in
          let requests' := requests st ++ [move] in
          match result with
          | Throw e =>
              (Uncaught e,
               mk limiter' clock' service' requests' (successfulMoves st) (errors st))
          | Normal result =>
              if MoveResult.ok result then
                run client rest
                  (mk limiter' clock' service' requests'
                      (successfulMoves st ++ [move]) (errors st))
              else
                run client rest
                  (mk limiter' clock' service' requests'
                      (successfulMoves st) (errors st ++ [(move, result)]))
          end
      end
  end.

End Executor.

(* ====================================================================== *)
(** * [main] *)
(* ====================================================================== *)

(** What a run leaves behind, in order: the blocks it prints (their payload,
    not their layout), the relocation requests it sends and how the process
    ends. *)
Inductive Event : Type :=
| SectionsListed (sidebarSections : list SidebarSection.t)
| RulesListed (sidebarRules : list SidebarRule.t)
| ChannelsLoaded (realChannels memberChannels : nat)
| RuleSuggestions                      (* the proposals themselves are not modelled *)
| Matches (totalMatches : nat)
| AlreadyOrganised
| InTheWrongPlace (count : nat)
| DryRun (movesByDestination : JsMap.t (list SidebarMove.t))
| Requested (move : SidebarMove.t)
| Organised (successByDestination : JsMap.t (list SidebarMove.t))
| Summary (summaryByDestination : JsMap.t nat)
| CouldNotMove (errors : list (SidebarMove.t * MoveResult.t))
| Failure (message : string)
| Exit (code : nat)
| NeverReturns.

(** What the process is started with. *)
Record Process (S : Type) : Type := {
  argv : list string;                                (* [process.argv.slice(2)] *)
  readRules : string -> option (list RuleJSON.t);    (* read and parse; [None] if that throws *)
  credentials : bool;                                (* the three variables are set *)
  startTime : Z;                                     (* [Date.now()] when the loop starts *)
  localeCompare : string -> string -> Z;             (* [a.localeCompare(b)] *)
  client : SlackClient S
}.
Arguments argv {S} _.
Arguments readRules {S} _ _.
Arguments credentials {S} _.
Arguments startTime {S} _.
Arguments localeCompare {S} _ _ _.
Arguments client {S} _.

(** [main().catch(err => ...)] *)
Definition uncaught (e : Thrown) : list Event :=
  match e with
  | Error message => [Failure ("Error: " ++ message); Exit 1]
  end.

(** The section a raw rule names: by id first, then by display name. *)
Definition resolveSection (sidebarSections : list SidebarSection.t) (json : RuleJSON.t)
  : option SidebarSection.t :=
  match find (fun s => String.eqb (RuleJSON.sidebar_section json) (SidebarSection.id s))
             sidebarSections with
  | Some s => Some s
  | None =>
      find (fun s => String.eqb (RuleJSON.sidebar_section json) (SidebarSection.name s))
           sidebarSections
  end.

(** [sidebarRulesRaw.map(json => ...)]: the first rule that cannot be loaded
    ends the run, either through [process.exit(1)] or through the exception
    of [SidebarRule.fromJSON]. *)
Fixpoint loadRules (sidebarSections : list SidebarSection.t)
    (sidebarRulesRaw : list RuleJSON.t) : list Event + list SidebarRule.t :=
  match sidebarRulesRaw with
  | [] => inr []
  | json :: rest =>
      match resolveSection sidebarSections json with
      | None =>
          inl [Failure ("Couldn't find sidebar section for " ++
                        RuleJSON.sidebar_section json); Exit 1]
      | Some sidebarSection =>
          match SidebarRule.fromJSON (SidebarSection.id sidebarSection) json with
          | Throw e => inl (uncaught e)
          | Normal rule =>
              match loadRules sidebarSections rest with
              | inl stop => inl stop
              | inr rules => inr (rule :: rules)
              end
          end
      end
  end.

(** The part of [main] after the [--write] check. *)
Definition writeChangesToSlack {S} (p : Process S)
    (sidebarMoves : list SidebarMove.t) (s : S) : list Event * S :=
  let limiter := RateLimiter.new 20 60000 in
  let '(how, st) :=
    Executor.run (client p) sidebarMoves (Executor.start limiter (startTime p) s) in
  let sent := map Requested (Executor.requests st) in
  match how with
  | Executor.Stuck => (sent ++ [NeverReturns], Executor.service st)
  | Executor.Uncaught e => (sent ++ uncaught e, Executor.service st)
  | Executor.Completed =>
      (sent ++
       [Organised (groupByDestination (Executor.successfulMoves st));
        Summary (countByDestination sidebarMoves)] ++
       match Executor.errors st with
       | [] => []
       | errors => [CouldNotMove errors]
       end ++ [Exit 0],
       Executor.service st)
  end.

(** The part of [main] from the planning loop on. *)
Definition organise {S} (p : Process S) (writeChanges : bool)
    (sidebarSections : list SidebarSection.t) (sidebarRules : list SidebarRule.t)
    (channels : JsMap.t ChannelJSON.t) (s : S) : list Event * S :=
  let '(totalMatches, sidebarMoves) :=
    calculateMoves sidebarSections sidebarRules channels in
  match sidebarMoves with
  | [] => ([Matches totalMatches; AlreadyOrganised; Exit 0], s)
  | _ :: _ =>
      if negb writeChanges then
        ([Matches totalMatches; InTheWrongPlace (length sidebarMoves);
          DryRun (groupByDestination sidebarMoves); Exit 0], s)
      else
        let '(events, s') := writeChangesToSlack p sidebarMoves s in
        (Matches totalMatches :: InTheWrongPlace (length sidebarMoves) :: events, s')
  end.

(** [main], on a service in state [s].  The result is what the run leaves
    behind and the state it leaves the service in.  [fuel] bounds the requests
    of [getChannels], the one place where the run can go on for ever: [None]
    means that the run is still loading the channels after [fuel] requests. *)
Definition main {S} (fuel : nat) (p : Process S) (s : S) : option (list Event * S) :=
  let args := argv p in
  let rulesFile := find (fun a => negb (Js.startsWith a "--")) args in
  let writeChanges := existsb (String.eqb "--write") args in
  let raw : option (list RuleJSON.t) :=
    match rulesFile with
    | None | Some "" => Some []
    | Some file => readRules p file
    end in
  match raw with
  | None =>
      Some ([Failure ("Failed to read rules file: " ++ toStringArg rulesFile); Exit 1], s)
  | Some sidebarRulesRaw =>
  if negb (credentials p) then
    Some ([Failure "Missing required environment variables:"; Exit 1], s)
  else
  match ping (client p) s with
  | Throw e => Some (uncaught e, s)
  | Normal false =>
      Some ([Failure "Can't connect to Slack - are you sure you've set valid credentials?";
             Exit 1], s)
  | Normal true =>
  match getSidebarList (client p) s with
  | Throw e => Some (uncaught e, s)
  | Normal sidebarListResponse =>
  let sidebarSections :=
    map SidebarSection.fromJSON
        (filter (fun j => String.eqb (SidebarSectionJSON.type j) "standard")
                (SidebarList.channel_sections sidebarListResponse)) in
  let listed := [SectionsListed sidebarSections] in
  match
    match sidebarRulesRaw with
    | [] => inr []
    | _ :: _ => loadRules sidebarSections sidebarRulesRaw
    end
  with
  | inl stop => Some (listed ++ stop, s)
  | inr sidebarRules =>
  let listed :=
    match sidebarRulesRaw with
    | [] => listed
    | _ :: _ => listed ++ [RulesListed sidebarRules]
    end in
  match getChannels (client p) (localeCompare p) fuel s with
  | None => None
  | Some (Throw e) => Some (listed ++ uncaught e, s)
  | Some (Normal allChannels) =>
  let realChannels := filter ChannelJSON.is_channel allChannels in
  let memberChannels := filter ChannelJSON.is_member realChannels in
  let channels := indexChannels memberChannels in
  let listed :=
    listed ++ [ChannelsLoaded (length realChannels) (JsMap.size channels)] in
  match sidebarRules with
  | [] => Some (listed ++ [RuleSuggestions; Exit 0], s)
  | _ :: _ =>
      let '(events, s') :=
        organise p writeChanges sidebarSections sidebarRules channels s in
      Some (listed ++ events, s')
  end end end end end end.


(* ====================================================================== *)
(** * Section capacity, overflow sections and the distributor *)
(* ====================================================================== *)

(** Modelled from the spec: the constant [SECTION_CHANNEL_LIMIT], which the
    test-suite imports from [organize.ts] and the source at hand does not
    declare; the specification fixes it at 500. *)
Definition SECTION_CHANNEL_LIMIT : nat := 500.

(** Modelled from the spec: the method [SidebarSection.availableCapacity],
    absent from the class in the source: [max(0, CAPACITY_LIMIT - memberCount)]. *)
Definition availableCapacity (s : SidebarSection.t) : nat :=
  Nat.max 0 (SECTION_CHANNEL_LIMIT - length (SidebarSection.channelIds s)).

(** Modelled from the spec: a decimal digit of an overflow name. *)
Definition isDigit (c : ascii) : bool :=
  (48 <=? nat_of_ascii c)%nat && (nat_of_ascii c <=? 57)%nat.

(** Modelled from the spec: the value of a decimal digit. *)
Definition digitValue (c : ascii) : N := N.of_nat (nat_of_ascii c - 48).

(** Modelled from the spec: the end of an overflow name.  Reads
    [<digits>)] to the end of the string: the digits' value, in base
    ten, when there is at least one digit and nothing follows the closing
    parenthesis.  [seen] tells whether a digit was read already. *)
Fixpoint digitsThenClose (seen : bool) (acc : N) (s : string) : option N :=
  match s with
  | EmptyString => None
  | String c s' =>
      if isDigit c then digitsThenClose true (10 * acc + digitValue c)%N s'
      else if Ascii.eqb c ")" && seen && String.eqb s' ""
           then Some acc
           else None
  end.

(** Modelled from the spec: every character of [s] is a decimal digit. *)
Fixpoint allDigits (s : string) : bool :=
  match s with
  | EmptyString => true
  | String c s' => isDigit c && allDigits s'
  end.

(** Modelled from the spec: the parsed numeric suffix, the number a run of
    decimal digits denotes, read after the digits whose value is [acc]. *)
Fixpoint decimal (acc : N) (digits : string) : N :=
  match digits with
  | EmptyString => acc
  | String c s' => decimal (10 * acc + digitValue c)%N s'
  end.

(** Modelled from the spec: the literal base name at the start of an
    overflow name.  What is left of [s] after the literal [p], if [s] starts
    with it. *)
Fixpoint stripPrefix (p s : string) : option string :=
  match p, s with
  | EmptyString, _ => Some s
  | String a p', String b s' => if Ascii.eqb a b then stripPrefix p' s' else None
  | String _ _, EmptyString => None
  end.

(** Modelled from the spec: the overflow number [n] of a section called
    ["<baseName> (<n>)"], and nothing for any other name. *)
Definition overflowNumber (baseName name : string) : option N :=
  match stripPrefix (baseName ++ " (") name with
  | None => None
  | Some rest => digitsThenClose false 0%N rest
  end.

(** Modelled from the spec: ordering by the parsed numeric suffix, as a
    stable insertion by ascending overflow number. *)
Fixpoint insertByNumber (x : N * SidebarSection.t) (l : list (N * SidebarSection.t))
  : list (N * SidebarSection.t) :=
  match l with
  | [] => [x]
  | y :: l' => if (fst x <? fst y)%N then x :: y :: l' else y :: insertByNumber x l'
  end.

(** Modelled from the spec: the sort by ascending overflow number. *)
Definition sortByNumber (l : list (N * SidebarSection.t)) : list (N * SidebarSection.t) :=
  fold_left (fun sorted x => insertByNumber x sorted) l [].

(** Modelled from the spec: the sections with an overflow name, each with
    its number, in the order of the input. *)
Fixpoint numbered (baseName : string) (sections : list SidebarSection.t)
  : list (N * SidebarSection.t) :=
  match sections with
  | [] => []
  | s :: rest =>
      match overflowNumber baseName (SidebarSection.name s) with
      | Some n => (n, s) :: numbered baseName rest
      | None => numbered baseName rest
      end
  end.

(** Modelled from the spec: the function [findOverflowSections], which the
    test-suite imports from [organize.ts] and the source at hand does not
    define.  It keeps the sections whose name is the base name, a space and a
    parenthesised run of one or more decimal digits, and orders them by that
    number, ascending. *)
Definition findOverflowSections (baseName : string) (sections : list SidebarSection.t)
  : list SidebarSection.t :=
  map snd (sortByNumber (numbered baseName sections)).

(** Modelled from the spec: the name is an overflow name of [baseName]. *)
Definition isOverflowOf (baseName : string) (s : SidebarSection.t) : bool :=
  match overflowNumber baseName (SidebarSection.name s) with
  | Some _ => true
  | None => false
  end.

(** Modelled from the spec: the scan of the candidates for one move.  The
    first candidate with capacity left takes the move: its position, the
    section, and the counters after the decrement. *)
Fixpoint firstWithCapacity (candidates : list (SidebarSection.t * nat))
  : option (nat * SidebarSection.t * list (SidebarSection.t * nat)) :=
  match candidates with
  | [] => None
  | (s, remaining) :: rest =>
      if (0 <? remaining)%nat then Some (0, s, (s, remaining - 1) :: rest)
      else
        match firstWithCapacity rest with
        | None => None
        | Some (i, t, rest') => Some (S i, t, (s, remaining) :: rest')
        end
  end.

(** Modelled from the spec: the loop over the moves.  The moves in input
    order, each with the position of the candidate that took it ([None]: no
    candidate had capacity left, the move is untouched). *)
Fixpoint distribute (moves : list SidebarMove.t)
    (candidates : list (SidebarSection.t * nat))
  : list (SidebarMove.t * option nat) :=
  match moves with
  | [] => []
  | move :: rest =>
      match firstWithCapacity candidates with
      | None => (move, None) :: distribute rest candidates
      | Some (i, s, candidates') =>
          (SidebarMove.mk (SidebarMove.channelId move)
                          (SidebarMove.fromSidebarSectionId move)
                          (SidebarSection.id s),
           Some i) :: distribute rest candidates'
      end
  end.

(** Modelled from the spec: the running counters, initialised from
    [availableCapacity]. *)
Definition counters (sections : list SidebarSection.t) : list (SidebarSection.t * nat) :=
  map (fun s => (s, availableCapacity s)) sections.

(** Modelled from the spec: the function [distributeMovesAcrossSections],
    which the test-suite imports from [organize.ts] and the source at hand
    does not define.  Moves are taken in input order; each goes to the first
    candidate section whose running counter is positive, which is then
    decremented; a move that finds none keeps its destination.  The function
    rewrites [toSidebarSectionId] in place: the result is the array after the
    call. *)
Definition distributeMovesAcrossSections (moves : list SidebarMove.t)
    (sections : list SidebarSection.t) : list SidebarMove.t :=
  map fst (distribute moves (counters sections)).

(** Modelled from the spec: which candidate took each move. *)
Definition placements (moves : list SidebarMove.t) (sections : list SidebarSection.t)
  : list (option nat) :=
  map snd (distribute moves (counters sections)).

(** Modelled from the spec: the assigned-move-count of candidate [i]. *)
Definition assignedTo (i : nat) (placed : list (option nat)) : nat :=
  length (filter (fun p => match p with Some j => Nat.eqb j i | None => false end) placed).


(* ====================================================================== *)
(** * Reading a run *)
(* ====================================================================== *)

(** The event is a relocation request. *)
Definition isRequest (e : Event) : bool :=
  match e with
  | Requested _ => true
  | _ => false
  end.


(** The request answers with an acknowledgement, whatever its flag says. *)
Definition acknowledges {S} (client : SlackClient S) : Prop :=
  forall channelId toId fromId (s : S),
    exists result, fst (sidebarMove client channelId toId fromId s) = Normal result.

(** The answers the service gives when the moves are requested one after
    the other, up to the first request that throws. *)
Fixpoint answers {S} (client : SlackClient S) (moves : list SidebarMove.t) (s : S)
  : list MoveResult.t :=
  match moves with
  | [] => []
  | move :: rest =>
      match sidebarMove client (SidebarMove.channelId move)
                        (SidebarMove.toSidebarSectionId move)
                        (SidebarMove.fromSidebarSectionId move) s with
      | (Normal result, s') => result :: answers client rest s'
      | (Throw _, _) => []
      end
  end.

(** The moves of a batch, each with the answer it got, split by the flag. *)
Definition acknowledged (answered : list (SidebarMove.t * MoveResult.t))
  : list SidebarMove.t :=
  map fst (filter (fun mr => MoveResult.ok (snd mr)) answered).

Definition refused (answered : list (SidebarMove.t * MoveResult.t))
  : list (SidebarMove.t * MoveResult.t) :=
  filter (fun mr => negb (MoveResult.ok (snd mr))) answered.

(* ====================================================================== *)
(** * Sample workspaces *)
(* ====================================================================== *)

(** A comparison of names by length, for the example. *)
Definition byLength (a b : string) : Z :=
  (Z.of_nat (String.length a) - Z.of_nat (String.length b))%Z.

Module Sample.

Definition acme : ChannelJSON.t := ChannelJSON.mk "C1" "cust-acme" true true.

Definition channels : JsMap.t ChannelJSON.t := indexChannels [acme].

Definition rules : list SidebarRule.t :=
  [SidebarRule.PrefixSidebarRule "S2" (Some "cust-")].

(** [#cust-acme] sits in the default section. *)
Definition sections : list SidebarSection.t :=
  [SidebarSection.mk "S1" "Channels" ["C1"]; SidebarSection.mk "S2" "Customers" []].

(** The same, but the section that holds the channel has an empty id. *)
Definition sectionsWithEmptyId : list SidebarSection.t :=
  [SidebarSection.mk "" "Channels" ["C1"]; SidebarSection.mk "S2" "Customers" []].

Definition move : SidebarMove.t := SidebarMove.mk "C1" (Some "S1") "S2".
Definition move2 : SidebarMove.t := SidebarMove.mk "C2" None "S2".

Definition rawRules : list RuleJSON.t :=
  [RuleJSON.mk "prefix" "Customers" (Some "cust-") None None].

(** A workspace whose only rule is already satisfied. *)
Definition organisedList : SidebarList.t :=
  SidebarList.mk true
    [SidebarSectionJSON.mk "S1" "Channels" "standard" [];
     SidebarSectionJSON.mk "S2" "Customers" "standard" ["C1"]].

(** A workspace where [#cust-acme] still sits in the default section. *)
Definition pendingList : SidebarList.t :=
  SidebarList.mk true
    [SidebarSectionJSON.mk "S1" "Channels" "standard" ["C1"];
     SidebarSectionJSON.mk "S2" "Customers" "standard" []].

(** A client over a service without state of its own; [answer] decides what
    a relocation request gets back. *)
Definition clientOf (list : SidebarList.t) (answer : string -> Completion MoveResult.t)
  : SlackClient unit :=
  {| getSidebarList := fun _ => Normal list;
     conversationsList :=
       fun _ _ _ => Normal (ConversationsList.mk None None None (Some [acme]));
     sidebarMove := fun channelId _ _ s => (answer channelId, s) |}.

Definition accepts (channelId : string) : Completion MoveResult.t :=
  Normal (MoveResult.mk true None).

(** Accepts [C1], refuses every other channel. *)
Definition acceptsFirst (channelId : string) : Completion MoveResult.t :=
  if String.eqb channelId "C1" then Normal (MoveResult.mk true None)
  else Normal (MoveResult.mk false (Some "not_allowed")).

(** The request itself fails: the promise rejects. *)
Definition hangsUp (channelId : string) : Completion MoveResult.t :=
  Throw (Error "socket hang up").


(** A primary section one channel over the limit, and its first overflow. *)
Definition overfull : SidebarSection.t :=
  SidebarSection.mk "s1" "Test" (repeat "ch" 501).
Definition overflow2 : SidebarSection.t := SidebarSection.mk "s2" "Test (2)" [].

(** A primary section with one place left. *)
Definition nearlyFull : SidebarSection.t :=
  SidebarSection.mk "s1" "Test" (repeat "ch" 499).

Definition toPrimary (channelId : string) : SidebarMove.t :=
  SidebarMove.mk channelId None "s1".




(** The dry run against a service that answers every request of
    [conversations.list] with [ratelimited]. *)
Definition alwaysLimited : Process unit :=
  {| argv := ["rules.json"];
     readRules := fun _ => Some rawRules;
     credentials := true;
     startTime := 0%Z;
     localeCompare := byLength;
     client :=
       {| getSidebarList := fun _ => Normal pendingList;
          conversationsList :=
            fun _ _ _ => Normal (ConversationsList.mk (Some "ratelimited") None None None);
          sidebarMove := fun channelId _ _ s => (accepts channelId, s) |} |}.

End Sample.

(* ====================================================================== *)
(** * A single caller of the rate limiter *)
(* ====================================================================== *)

(** Calls of [wait] made one after the other by a single caller, as the loop
    of [main] makes them ([await rateLimiter.wait()] at the head of every
    iteration): every call is made [gap] ms after the call before it
    resolved.  The result lists the times at which the calls resolve. *)
Fixpoint admissions (gaps : list Z) (rl : RateLimiter.t) (now : Z) : option (list Z) :=
  match gaps with
  | [] => Some []
  | gap :: rest =>
      match RateLimiter.wait (RateLimiter.enough rl) rl (now + gap)%Z with
      | None => None
      | Some (rl', now') =>
          match admissions rest rl' now' with
          | None => None
          | Some times => Some (now' :: times)
          end
      end
  end.

(** Any two of the [times] with at least [limit - 1] others between them are
    at least [intervalMs] apart. *)
Definition spaced (limit intervalMs : Z) (times : list Z) : Prop :=
  forall pre a mid b post,
    times = pre ++ a :: mid ++ b :: post ->
    (limit <= Z.of_nat (length mid) + 1)%Z ->
    (intervalMs <= b - a)%Z.

(** What the limiter's timestamps are to the calls resolved so far
    ([history]): the youngest of them, the others being older than the
    interval. *)
Definition limiterHistory (limit intervalMs : Z) (history : list Z)
                          (rl : RateLimiter.t) (now : Z) : Prop :=
  RateLimiter.limit rl = limit
  /\ RateLimiter.intervalMs rl = intervalMs
  /\ (exists dropped,
         history = dropped ++ RateLimiter.timestamps rl
         /\ Forall (fun t => (intervalMs <= now - t)%Z) dropped)
  /\ StronglySorted Z.le history
  /\ Forall (fun t => (t <= now)%Z) history
  /\ spaced limit intervalMs history.

(* ====================================================================== *)
(** * How a run ends *)
(* ====================================================================== *)

(** The event ends the run. *)
Definition isEnd (e : Event) : bool :=
  match e with
  | Exit _ | NeverReturns => true
  | _ => false
  end.

(** The event is an error message. *)
Definition isFailure (e : Event) : bool :=
  match e with
  | Failure _ => true
  | _ => false
  end.

(** A trace that ends with an exit status, 1 after an error message and 0
    otherwise, and that comes with a changed service only if a relocation
    request was sent. *)
Definition endsWithStatus {S} (events : list Event) (s s' : S) : Prop :=
  exists pre code,
    events = pre ++ [Exit code]
    /\ existsb isEnd pre = false
    /\ ((code = 1 /\ existsb isFailure pre = true)
        \/ (code = 0 /\ existsb isFailure pre = false))
    /\ (existsb isRequest pre = false -> s' = s).

(* ====================================================================== *)
(** * Rule suggestions *)
(* ====================================================================== *)

(** [s.length]: the number of UTF-16 code units of a string.  A string is
    held as the bytes of its UTF-8 encoding: a byte that continues a
    character ([10xxxxxx]) adds no unit, the byte that starts a character
    adds one, and two when the character takes four bytes, since it then
    lies outside the basic plane and takes a surrogate pair.  For a name in
    ASCII this is the number of its characters. *)
Module JsString.

Definition units (c : ascii) : nat :=
  let b := nat_of_ascii c in
  if Nat.leb 128 b && Nat.ltb b 192 then 0
  else if Nat.leb 240 b then 2
  else 1.

Fixpoint length (s : string) : nat :=
  match s with
  | EmptyString => 0
  | String c rest => units c + length rest
  end.

End JsString.

(** A proposed rule together with the count it is proposed for.  [value] is
    the field [prefix] of a proposed prefix rule and the field [suffix] of a
    proposed suffix rule. *)
Module ProposedRule.
Record t : Type := mk {
  type : string;
  sidebar_section : string;
  value : string;
  count : nat
}.
End ProposedRule.

(** [entries.sort((a, b) => b[1] - a[1])]: most popular first.
    [Array.prototype.sort] is stable, so entries with the same count keep
    their order. *)
Fixpoint insertByCount (x : string * nat) (sorted : list (string * nat))
  : list (string * nat) :=
  match sorted with
  | [] => [x]
  | y :: ys =>
      if Nat.ltb (snd x) (snd y) then y :: insertByCount x ys else x :: y :: ys
  end.

Definition mostPopularFirst (entries : list (string * nat)) : list (string * nat) :=
  fold_right insertByCount [] entries.

(** [topPrefixes] and [topSuffixes]: the entries with at least 5 channels and
    a key shorter than 20 ([k.length < 20], in UTF-16 code units), most
    popular first, the first three of them. *)
Definition topEntries (candidates : JsMap.t nat) : list (string * nat) :=
  firstn 3
    (mostPopularFirst
       (filter (fun kv => Nat.ltb (JsString.length (fst kv)) 20)
          (filter (fun kv => Nat.leb 5 (snd kv)) candidates))).

(** [Array.from(channels.values()).filter(c => sidebarSection.includesChannel(c.id))
    .map(c => c.name)] *)
Definition channelNamesOf (channels : JsMap.t ChannelJSON.t)
    (sidebarSection : SidebarSection.t) : list string :=
  map ChannelJSON.name
      (filter (fun c => SidebarSection.includesChannel sidebarSection (ChannelJSON.id c))
              (map snd channels)).

Definition proposedPrefixRules (sidebarSections : list SidebarSection.t)
    (channels : JsMap.t ChannelJSON.t) : list ProposedRule.t :=
  flat_map
    (fun sidebarSection =>
       map (fun kv => ProposedRule.mk "prefix" (SidebarSection.name sidebarSection)
                                      (fst kv ++ "-") (snd kv))
           (topEntries (getPrefixes (channelNamesOf channels sidebarSection))))
    sidebarSections.

Definition proposedSuffixRules (sidebarSections : list SidebarSection.t)
    (channels : JsMap.t ChannelJSON.t) : list ProposedRule.t :=
  flat_map
    (fun sidebarSection =>
       map (fun kv => ProposedRule.mk "suffix" (SidebarSection.name sidebarSection)
                                      ("-" ++ fst kv) (snd kv))
           (topEntries (getSuffixes (channelNamesOf channels sidebarSection))))
    sidebarSections.

(** [prefixMap] and [suffixMap]: one proposal per text, a later proposal
    replacing the one kept only when its count is larger. *)
Definition keepMostPopular (rules : list ProposedRule.t) : JsMap.t ProposedRule.t :=
  fold_left
    (fun kept rule =>
       match JsMap.get (ProposedRule.value rule) kept with
       | None => JsMap.set (ProposedRule.value rule) rule kept
       | Some existing =>
           if Nat.ltb (ProposedRule.count existing) (ProposedRule.count rule)
           then JsMap.set (ProposedRule.value rule) rule kept
           else kept
       end)
    rules JsMap.empty.


(* ====================================================================== *)
(** * Properties of the string primitives *)
(* ====================================================================== *)

Section Strings.

Variable sep : ascii.

Lemma split_not_nil (s : string) : Js.split sep s <> [].
Proof.
  induction s as [|c s IH]; simpl; [discriminate|].
  destruct (Ascii.eqb c sep); [discriminate|].
  destruct (Js.split sep s); [contradiction|discriminate].
Qed.

Lemma split_segments_clean (s : string) :
  Forall (fun p => occursIn sep p = false) (Js.split sep s).
Proof.
  induction s as [|c s IH]; simpl.
  - constructor; [reflexivity|constructor].
  - destruct (Ascii.eqb c sep) eqn:E.
    + constructor; [reflexivity|assumption].
    + pose proof (split_not_nil s) as Hne.
      destruct (Js.split sep s) as [|p ps]; [contradiction|].
      inversion IH; subst. constructor; [simpl; rewrite E; assumption|assumption].
Qed.

Lemma join_cons2 (p q : string) (l : list string) :
  Js.join (Js.separator sep) (p :: q :: l) = (p ++ (Js.separator sep) ++ Js.join (Js.separator sep) (q :: l))%string.
Proof. reflexivity. Qed.

Lemma join_split (s : string) : Js.join (Js.separator sep) (Js.split sep s) = s.
Proof.
  induction s as [|c s IH]; simpl; [reflexivity|].
  destruct (Ascii.eqb c sep) eqn:E.
  - apply Ascii.eqb_eq in E; subst c.
    destruct (Js.split sep s) as [|p ps] eqn:Es; [contradiction (split_not_nil s)|].
    rewrite join_cons2, IH. reflexivity.
  - destruct (Js.split sep s) as [|p ps] eqn:Es; [contradiction (split_not_nil s)|].
    destruct ps as [|q ps].
    + simpl in *. now subst.
    + change (String c (Js.join (Js.separator sep) (p :: q :: ps)) = String c s).
      now rewrite IH.
Qed.

Lemma split_clean (p : string) :
  occursIn sep p = false -> Js.split sep p = [p].
Proof.
  induction p as [|c p IH]; simpl; [reflexivity|].
  intros H. apply orb_false_iff in H as [Hc Hp].
  rewrite Hc, (IH Hp). reflexivity.
Qed.

Lemma split_app_sep (p rest : string) :
  occursIn sep p = false ->
  Js.split sep (p ++ String sep rest) = p :: Js.split sep rest.
Proof.
  induction p as [|c p IH]; simpl; intros H.
  - now rewrite Ascii.eqb_refl.
  - apply orb_false_iff in H as [Hc Hp].
    rewrite Hc, (IH Hp). reflexivity.
Qed.

Lemma split_join (l : list string) :
  l <> [] -> Forall (fun p => occursIn sep p = false) l ->
  Js.split sep (Js.join (Js.separator sep) l) = l.
Proof.
  induction l as [|p l IH]; [congruence|].
  intros _ Hall. inversion Hall as [|? ? Hp Hl]; subst.
  destruct l as [|q l].
  - simpl. now apply split_clean.
  - rewrite join_cons2. unfold Js.separator at 1. simpl append.
    rewrite (split_app_sep _ _ Hp). f_equal.
    apply IH; [discriminate|assumption].
Qed.

End Strings.

(** [startsWith], [endsWith] and [includes] say what their names say. *)
Lemma startsWith_spec (s p : string) :
  Js.startsWith s p = true <-> exists rest, s = (p ++ rest)%string.
Proof.
  unfold Js.startsWith. revert s. induction p as [|a p IH]; intros s; simpl.
  - destruct s; split; eauto.
  - destruct s as [|b s]; simpl.
    + split; [discriminate|]. intros [rest H]. discriminate H.
    + destruct (Ascii.ascii_dec a b) as [->|Hne].
      * rewrite IH. split; intros [rest H]; exists rest; [now subst|now injection H].
      * split; [discriminate|]. intros [rest [= E _]]. congruence.
Qed.

Lemma endsWith_unfold (s x : string) :
  Js.endsWith s x =
  String.eqb s x || match s with
                    | EmptyString => false
                    | String _ s' => Js.endsWith s' x
                    end.
Proof. now destruct s. Qed.

Lemma includes_unfold (s x : string) :
  Js.includes s x =
  Js.startsWith s x || match s with
                       | EmptyString => false
                       | String _ s' => Js.includes s' x
                       end.
Proof. now destruct s. Qed.

Lemma endsWith_spec (s x : string) :
  Js.endsWith s x = true <-> exists front, s = (front ++ x)%string.
Proof.
  induction s as [|c s IH]; rewrite endsWith_unfold.
  - rewrite orb_false_r, String.eqb_eq. split.
    + intros <-. now exists "".
    + intros [[|a front] H]; [exact H|discriminate H].
  - rewrite orb_true_iff, IH, String.eqb_eq. split.
    + intros [<-|[front ->]]; [now exists ""|now exists (String c front)].
    + intros [[|a front] H]; [now left|]. injection H as <- ->. right. eauto.
Qed.

Lemma includes_spec (s x : string) :
  Js.includes s x = true <-> exists front back, s = (front ++ x ++ back)%string.
Proof.
  induction s as [|c s IH]; rewrite includes_unfold.
  - rewrite orb_false_r, startsWith_spec. split.
    + intros [rest H]. now exists "", rest.
    + intros ([|a front] & back & H); [eauto|discriminate H].
  - rewrite orb_true_iff, IH, startsWith_spec. split.
    + intros [[rest H]|(front & back & ->)]; [now exists "", rest|].
      now exists (String c front), back.
    + intros ([|a front] & back & H); [left; eauto|].
      injection H as <- ->. right. eauto.
Qed.

Lemma mirror_involutive (s : string) : mirror (mirror s) = s.
Proof.
  unfold mirror.
  rewrite (split_join Js.hyphen).
  - rewrite rev_involutive. apply join_split.
  - intros E. apply (f_equal (@rev string)) in E. rewrite rev_involutive in E.
    simpl in E. now apply (split_not_nil Js.hyphen s).
  - apply Forall_rev, split_segments_clean.
Qed.

Lemma mirror_injective (a b : string) : mirror a = mirror b -> a = b.
Proof.
  intros E. rewrite <- (mirror_involutive a), <- (mirror_involutive b). now rewrite E.
Qed.

(* ====================================================================== *)
(** * Properties of [JsMap] *)
(* ====================================================================== *)

Section JsMapFacts.

Context {V : Type}.
Implicit Types (m : JsMap.t V) (k : string) (v : V).

Lemma get_set_same k v m : JsMap.get k (JsMap.set k v m) = Some v.
Proof.
  induction m as [|[k' v'] m IH]; simpl.
  - now rewrite String.eqb_refl.
  - destruct (String.eqb k' k) eqn:E; simpl; rewrite E; auto.
Qed.

Lemma get_set_other k k' v m :
  k <> k' -> JsMap.get k' (JsMap.set k v m) = JsMap.get k' m.
Proof.
  intros Hne. induction m as [|[k0 v0] m IH]; simpl.
  - apply String.eqb_neq in Hne. now rewrite Hne.
  - destruct (String.eqb k0 k) eqn:E; simpl.
    + apply String.eqb_eq in E; subst k0.
      apply String.eqb_neq in Hne. now rewrite Hne.
    + destruct (String.eqb k0 k'); auto.
Qed.

Lemma get_None_iff k m : JsMap.get k m = None <-> ~ In k (JsMap.keys m).
Proof.
  induction m as [|[k' v'] m IH]; simpl.
  - tauto.
  - destruct (String.eqb_spec k' k) as [->|Hne].
    + split; [discriminate|]. intros H. contradict H. now left.
    + rewrite IH. tauto.
Qed.

Lemma set_fresh k v m :
  ~ In k (JsMap.keys m) -> JsMap.set k v m = m ++ [(k, v)].
Proof.
  induction m as [|[k' v'] m IH]; simpl; intros H; [reflexivity|].
  destruct (String.eqb_spec k' k) as [->|Hne].
  - contradict H. now left.
  - f_equal. apply IH. tauto.
Qed.

Lemma keys_set_present k v m :
  In k (JsMap.keys m) -> JsMap.keys (JsMap.set k v m) = JsMap.keys m.
Proof.
  induction m as [|[k' v'] m IH]; simpl; intros H; [contradiction|].
  destruct (String.eqb_spec k' k) as [->|Hne]; simpl; [reflexivity|].
  f_equal. apply IH. destruct H; [contradiction|assumption].
Qed.

Lemma keys_set_NoDup k v m :
  NoDup (JsMap.keys m) -> NoDup (JsMap.keys (JsMap.set k v m)).
Proof.
  intros Hnd. destruct (in_dec string_dec k (JsMap.keys m)) as [Hin|Hout].
  - now rewrite keys_set_present.
  - rewrite (set_fresh _ _ _ Hout). unfold JsMap.keys. rewrite map_app. simpl.
    apply NoDup_app; [assumption | repeat constructor; intros [] | ].
    intros x Hx [<-|[]]. contradiction.
Qed.

End JsMapFacts.

(* ====================================================================== *)
(** * Properties of the pattern miner *)
(* ====================================================================== *)

Lemma fold_left_map_compose {A B C} (f : A -> B -> A) (g : C -> B) (l : list C) (a : A) :
  fold_left f (map g l) a = fold_left (fun acc x => f acc (g x)) l a.
Proof. revert a. induction l as [|x l IH]; simpl; auto. Qed.

Lemma fold_left_pointwise {A B} (f g : A -> B -> A) (l : list B) (a : A) :
  (forall acc x, f acc x = g acc x) -> fold_left f l a = fold_left g l a.
Proof.
  intros H. revert a. induction l as [|x l IH]; intros a; simpl; [reflexivity|].
  now rewrite H, IH.
Qed.

Lemma countName_bumpAll (m : JsMap.t nat) (name : string) :
  countName m name = bumpAll (leadingRuns name) m.
Proof.
  unfold countName, bumpAll, leadingRuns, firstFourParts, Js.dropLast, Js.sliceTo.
  rewrite <- seq_shift, map_map, fold_left_map_compose.
  apply fold_left_pointwise. intros acc i. unfold prefixAt, Js.sliceTo.
  now rewrite Nat.add_1_r.
Qed.

Lemma bumpAll_app (ks ks' : list string) (m : JsMap.t nat) :
  bumpAll (ks ++ ks') m = bumpAll ks' (bumpAll ks m).
Proof. apply fold_left_app. Qed.

Lemma getPrefixes_from (names : list string) (m : JsMap.t nat) :
  fold_left countName names m = bumpAll (flat_map leadingRuns names) m.
Proof.
  revert m. induction names as [|n names IH]; intros m; simpl; [reflexivity|].
  now rewrite IH, countName_bumpAll, bumpAll_app.
Qed.

Lemma get_bump (k k' : string) (m : JsMap.t nat) :
  JsMap.get k (bump k' m) =
  if string_dec k' k then Some (countOf k m + 1) else JsMap.get k m.
Proof.
  unfold bump. destruct (string_dec k' k) as [->|Hne].
  - apply get_set_same.
  - now apply get_set_other.
Qed.

Lemma get_bumpAll (k : string) (ks : list string) (m : JsMap.t nat) :
  JsMap.get k (bumpAll ks m) =
  match count_occ string_dec ks k with
  | O => JsMap.get k m
  | S c => Some (countOf k m + S c)
  end.
Proof.
  revert m. induction ks as [|k' ks IH]; intros m; [reflexivity|].
  change (bumpAll (k' :: ks) m) with (bumpAll ks (bump k' m)).
  rewrite IH. simpl count_occ. unfold countOf at 1. rewrite get_bump.
  destruct (string_dec k' k) as [->|Hne].
  - destruct (count_occ string_dec ks k); f_equal; lia.
  - reflexivity.
Qed.

Lemma bump_NoDup (k : string) (m : JsMap.t nat) :
  NoDup (JsMap.keys m) -> NoDup (JsMap.keys (bump k m)).
Proof. apply keys_set_NoDup. Qed.

Lemma getPrefixes_NoDup (names : list string) : NoDup (JsMap.keys (getPrefixes names)).
Proof.
  unfold getPrefixes. rewrite getPrefixes_from.
  generalize (flat_map leadingRuns names) as ks.
  assert (H : NoDup (JsMap.keys (@JsMap.empty nat))) by constructor.
  revert H. generalize (@JsMap.empty nat) as m.
  intros m H ks. revert m H.
  induction ks as [|k ks IH]; intros m H; simpl; [assumption|].
  apply IH, bump_NoDup, H.
Qed.

Lemma leadingRuns_no_separator (name : string) :
  occursIn Js.hyphen name = false -> leadingRuns name = [].
Proof.
  intros H. unfold leadingRuns. now rewrite (split_clean _ _ H).
Qed.

(** Replaying the entries of a map with distinct keys into another map, under
    an injective renaming of the keys, appends the renamed entries. *)
Lemma replay_renamed (f : string -> string) (m acc : JsMap.t nat) :
  (forall a b, f a = f b -> a = b) ->
  NoDup (JsMap.keys m) ->
  (forall k, In k (JsMap.keys m) -> ~ In (f k) (JsMap.keys acc)) ->
  fold_left (fun out kv => JsMap.set (f (fst kv)) (snd kv) out) m acc
  = acc ++ map (fun kv => (f (fst kv), snd kv)) m.
Proof.
  intros Hinj. revert acc.
  induction m as [|[k v] m IH]; intros acc Hnd Hfresh; simpl.
  - now rewrite app_nil_r.
  - inversion Hnd as [|? ? Hk Hm]; subst.
    rewrite set_fresh by (apply Hfresh; now left).
    rewrite IH; [now rewrite <- app_assoc | assumption |].
    intros k' Hk'. unfold JsMap.keys. rewrite map_app, in_app_iff. simpl.
    intros [Hin|[E|[]]].
    + apply (Hfresh k'); [now right|assumption].
    + apply Hinj in E. subst k'. contradiction.
Qed.

Lemma get_renamed (f : string -> string) (m : JsMap.t nat) (k : string) :
  (forall a b, f a = f b -> a = b) ->
  JsMap.get (f k) (map (fun kv => (f (fst kv), snd kv)) m) = JsMap.get k m.
Proof.
  intros Hinj. induction m as [|[k' v] m IH]; simpl; [reflexivity|].
  destruct (String.eqb_spec k' k) as [->|Hne].
  - now rewrite String.eqb_refl.
  - destruct (String.eqb_spec (f k') (f k)) as [E|_]; [|assumption].
    apply Hinj in E. contradiction.
Qed.

Lemma getPrefixes_get (names : list string) (k : string) :
  JsMap.get k (getPrefixes names) =
  match occurrences k names with
  | O => None
  | S c => Some (S c)
  end.
Proof.
  unfold getPrefixes, occurrences. rewrite getPrefixes_from, get_bumpAll.
  destruct (count_occ string_dec (flat_map leadingRuns names) k); reflexivity.
Qed.

Lemma countName_no_separator (m : JsMap.t nat) (name : string) :
  occursIn Js.hyphen name = false -> countName m name = m.
Proof.
  intros H. now rewrite countName_bumpAll, leadingRuns_no_separator.
Qed.

(** C7.  [getPrefixes] counts, for every candidate, how often it occurs among
    the leading runs of the names: each name is split on ['-'], its trailing
    segment dropped, at most the first four remaining segments kept, and every
    leading run of those (length 1 to k), joined with ['-'], counted once.  A
    candidate that never occurs has no entry.  A name without a separator
    leaves the map as it was; the empty segment between two consecutive
    separators counts like any other; and on the six names of the example the
    result is the map customer:3, project:2, some:1, some-other:1. *)
Theorem getPrefixes_counts_leading_runs :
  (forall (names : list string) (k : string),
      JsMap.get k (getPrefixes names) =
      match occurrences k names with
      | O => None
      | S c => Some (S c)
      end)
  /\ (forall (m : JsMap.t nat) (name : string),
         occursIn Js.hyphen name = false -> countName m name = m)
  /\ getPrefixes ["test--channel"] = [("test", 1); ("test-", 1)]
  /\ (forall k : string,
         JsMap.get k (getPrefixes ["project-alpha"; "project-beta"; "customer-a";
                                   "customer-b"; "customer-c"; "some-other-channel"])
         = JsMap.get k [("customer", 3); ("project", 2); ("some", 1); ("some-other", 1)]).
Proof.
  split; [exact getPrefixes_get|].
  split; [exact countName_no_separator|].
  split; [reflexivity|].
  intros k.
  change (getPrefixes _)
    with [("project", 2); ("customer", 3); ("some", 1); ("some-other", 1)].
  unfold JsMap.get.
  destruct (String.eqb_spec "project" k) as [<-|?]; [reflexivity|].
  destruct (String.eqb_spec "customer" k) as [<-|?]; [reflexivity|].
  reflexivity.
Qed.

Lemma getPrefixes_counts_leading_runs_witness :
  occursIn Js.hyphen "something" = false
  /\ countName [("customer", 1)] "something" = [("customer", 1)].
Proof.
  split; [reflexivity|].
  apply (proj1 (proj2 getPrefixes_counts_leading_runs)). reflexivity.
Defined.

(** [mirror] reverses the order of the segments of a name. *)
Lemma mirror_reverses_segments (name : string) :
  Js.split Js.hyphen (mirror name) = rev (Js.split Js.hyphen name).
Proof.
  unfold mirror. rewrite (split_join Js.hyphen).
  - reflexivity.
  - intros E. apply (f_equal (@rev string)) in E. rewrite rev_involutive in E.
    simpl in E. now apply (split_not_nil Js.hyphen name).
  - apply Forall_rev, split_segments_clean.
Qed.

(** C8.  [getSuffixes] is [getPrefixes] on the mirror image of every name with
    the keys mirrored back: the entries of [getSuffixes names] are those of
    [getPrefixes (map mirror names)] with each key mirrored, counts kept, and
    the count found under a key is the count of its mirror image.  The mirror
    image of a name has the segments of the name in reverse order, so that
    mirroring [a-b-c] gives [c-b-a]; on the names [eng-db-alerts] and
    [ops-db-alerts] the suffix candidates are those of the prefixes of
    [alerts-db-eng] and [alerts-db-ops], mirrored back. *)
Theorem getSuffixes_mirrors_getPrefixes (names : list string) :
  getSuffixes names = reverseKeyed (getPrefixes (map mirror names))
  /\ (forall k : string,
         JsMap.get (mirror k) (getSuffixes names)
         = JsMap.get k (getPrefixes (map mirror names)))
  /\ (forall name : string,
         Js.split Js.hyphen (mirror name) = rev (Js.split Js.hyphen name))
  /\ mirror "a-b-c" = "c-b-a"
  /\ getPrefixes ["alerts-db-eng"; "alerts-db-ops"] = [("alerts", 2); ("alerts-db", 2)]
  /\ getSuffixes ["eng-db-alerts"; "ops-db-alerts"] = [("alerts", 2); ("db-alerts", 2)].
Proof.
  assert (E : getSuffixes names = reverseKeyed (getPrefixes (map mirror names))).
  { unfold getSuffixes, reverseKeyed.
    rewrite (replay_renamed mirror).
    - reflexivity.
    - exact mirror_injective.
    - apply getPrefixes_NoDup.
    - intros k _ []. }
  split; [exact E|]. split; [|split; [exact mirror_reverses_segments|]].
  - intros k. rewrite E. unfold reverseKeyed.
    apply get_renamed. exact mirror_injective.
  - repeat split.
Qed.

Lemma getSuffixes_mirrors_getPrefixes_witness :
  getSuffixes ["eng-db-alerts"; "ops-db-alerts"]
  = reverseKeyed (getPrefixes ["alerts-db-eng"; "alerts-db-ops"])
  /\ JsMap.get "db-alerts" (getSuffixes ["eng-db-alerts"; "ops-db-alerts"])
     = JsMap.get "alerts-db" (getPrefixes ["alerts-db-eng"; "alerts-db-ops"])
  /\ JsMap.get "db-alerts" (getSuffixes ["eng-db-alerts"; "ops-db-alerts"]) = Some 2.
Proof.
  split; [|split].
  - exact (proj1 (getSuffixes_mirrors_getPrefixes ["eng-db-alerts"; "ops-db-alerts"])).
  - exact (proj1 (proj2 (getSuffixes_mirrors_getPrefixes
                           ["eng-db-alerts"; "ops-db-alerts"])) "alerts-db").
  - reflexivity.
Defined.

(* ====================================================================== *)
(** * Rules: construction and first-match resolution *)
(* ====================================================================== *)

Lemma find_first {A} (f : A -> bool) (l : list A) (x : A) :
  find f l = Some x <->
  exists before after,
    l = before ++ x :: after /\ f x = true /\ Forall (fun y => f y = false) before.
Proof.
  induction l as [|a l IH]; simpl.
  - split; [discriminate|]. intros (b & t & E & _). now destruct b.
  - destruct (f a) eqn:Fa.
    + split.
      * intros [= <-]. exists [], l. repeat split; auto.
      * intros (b & t & E & Fx & Hb). destruct b as [|y b]; simpl in E.
        -- now injection E as ->.
        -- injection E as -> _. inversion Hb; congruence.
    + rewrite IH. split.
      * intros (b & t & -> & Fx & Hb). exists (a :: b), t. repeat split; auto.
      * intros (b & t & E & Fx & Hb). destruct b as [|y b]; simpl in E.
        -- injection E as -> _. congruence.
        -- injection E as -> ->. inversion Hb; subst. exists b, t. auto.
Qed.

Lemma find_none_iff {A} (f : A -> bool) (l : list A) :
  find f l = None <-> Forall (fun y => f y = false) l.
Proof.
  induction l as [|a l IH]; simpl.
  - split; auto.
  - destruct (f a) eqn:Fa.
    + split; [discriminate|]. intros H. inversion H; congruence.
    + rewrite IH. split; [auto|]. intros H. now inversion H.
Qed.

(** C3.  Rule resolution is a sequential scan: for every rule list and every
    channel name it returns the first rule, in list order, that applies to
    the name (every rule before it does not apply), and returns none exactly
    when no rule of the list applies.  In particular a list of two rules
    that both apply resolves to the first one and to its section. *)
Theorem findRule_first_match (sidebarRules : list SidebarRule.t) (channelName : string) :
  (forall r,
      findRule sidebarRules channelName = Some r <->
      exists before after,
        sidebarRules = before ++ r :: after
        /\ SidebarRule.applies r channelName = true
        /\ Forall (fun x => SidebarRule.applies x channelName = false) before)
  /\ (findRule sidebarRules channelName = None <->
      Forall (fun x => SidebarRule.applies x channelName = false) sidebarRules)
  /\ (forall R1 R2,
         sidebarRules = [R1; R2] ->
         SidebarRule.applies R1 channelName = true ->
         SidebarRule.applies R2 channelName = true ->
         findRule sidebarRules channelName = Some R1
         /\ option_map SidebarRule.sidebarSectionId (findRule sidebarRules channelName)
            = Some (SidebarRule.sidebarSectionId R1)).
Proof.
  split; [|split].
  - intros r. exact (find_first (fun x => SidebarRule.applies x channelName) _ r).
  - exact (find_none_iff (fun x => SidebarRule.applies x channelName) _).
  - intros R1 R2 -> H1 _. unfold findRule. simpl. rewrite H1. auto.
Qed.

Lemma findRule_first_match_witness :
  findRule [SidebarRule.PrefixSidebarRule "VIP" (Some "cust-vip-");
            SidebarRule.PrefixSidebarRule "Customers" (Some "cust-")]
           "cust-vip-acme"
  = Some (SidebarRule.PrefixSidebarRule "VIP" (Some "cust-vip-")).
Proof.
  refine (proj1 (proj2 (proj2 (findRule_first_match _ "cust-vip-acme")) _ _ eq_refl _ _));
    reflexivity.
Defined.

(** C4, as the source has it.  [SidebarRule.fromJSON] selects among three
    variants by the [type] discriminator: prefix, suffix and keyword, each
    built from the section id and the field of the same name.  Every other
    [type] value fails with the error [Unknown rule type: <type>], which
    carries the offending string. *)
Theorem fromJSON_three_variants (sidebarSectionId : string) (json : RuleJSON.t) :
  (RuleJSON.type json = "prefix" ->
   SidebarRule.fromJSON sidebarSectionId json
   = Normal (SidebarRule.PrefixSidebarRule sidebarSectionId (RuleJSON.prefix json)))
  /\ (RuleJSON.type json = "suffix" ->
      SidebarRule.fromJSON sidebarSectionId json
      = Normal (SidebarRule.SuffixSidebarRule sidebarSectionId (RuleJSON.suffix json)))
  /\ (RuleJSON.type json = "keyword" ->
      SidebarRule.fromJSON sidebarSectionId json
      = Normal (SidebarRule.KeywordSidebarRule sidebarSectionId (RuleJSON.keyword json)))
  /\ (RuleJSON.type json <> "prefix" ->
      RuleJSON.type json <> "suffix" ->
      RuleJSON.type json <> "keyword" ->
      SidebarRule.fromJSON sidebarSectionId json
      = Throw (Error ("Unknown rule type: " ++ RuleJSON.type json))).
Proof.
  unfold SidebarRule.fromJSON.
  repeat split.
  - intros ->. reflexivity.
  - intros ->. reflexivity.
  - intros ->. reflexivity.
  - intros H1 H2 H3.
    apply String.eqb_neq in H1, H2, H3. now rewrite H1, H2, H3.
Qed.

Lemma fromJSON_three_variants_witness :
  SidebarRule.fromJSON "s1" (RuleJSON.mk "regex" "s1" None None None)
  = Throw (Error "Unknown rule type: regex").
Proof.
  apply (proj2 (proj2 (proj2 (fromJSON_three_variants "s1"
           (RuleJSON.mk "regex" "s1" None None None))))); discriminate.
Defined.

(** C4, where the source falls short of it: the later tests of the
    repository build a rule of type ["exact"]; in this source the
    discriminator ["exact"] selects no variant, it is an unknown type like
    any other. *)
Lemma fromJSON_exact_is_unknown :
  SidebarRule.fromJSON "s1" (RuleJSON.mk "exact" "s1" None None None)
  = Throw (Error "Unknown rule type: exact")
  /\ ~ (exists rule,
          SidebarRule.fromJSON "s1" (RuleJSON.mk "exact" "s1" None None None)
          = Normal rule).
Proof.
  split; [reflexivity|]. intros [rule H]. discriminate H.
Qed.

(* ====================================================================== *)
(** * The planning pass *)
(* ====================================================================== *)

Section Planning.

Variable sidebarSections : list SidebarSection.t.
Variable sidebarRules : list SidebarRule.t.

Lemma getSidebarSection_id (i : string) (s : SidebarSection.t) :
  getSidebarSection sidebarSections i = Some s ->
  SidebarSection.id s = i /\ In s sidebarSections.
Proof.
  unfold getSidebarSection. intros H. apply find_some in H as [Hin E].
  apply String.eqb_eq in E. auto.
Qed.

Lemma planChannel_planned (acc : nat * list SidebarMove.t) (entry : string * ChannelJSON.t) :
  Forall (planned sidebarSections) (snd acc) ->
  Forall (planned sidebarSections) (snd (planChannel sidebarSections sidebarRules acc entry)).
Proof.
  destruct acc as [totalMatches sidebarMoves], entry as [channelId channel].
  unfold planChannel. intros H.
  destruct (findRule _ _) as [rule|]; [|exact H].
  destruct (getSidebarSection _ _) as [toSection|] eqn:Eto; [|exact H].
  destruct (SidebarSection.includesChannel toSection channelId) eqn:Ein; [exact H|].
  simpl. apply Forall_app. split; [exact H|].
  constructor; [|constructor].
  split; simpl; [|reflexivity].
  exists toSection. split; [|assumption].
  destruct (getSidebarSection_id _ _ Eto) as [Eid _]. now rewrite Eid.
Qed.

Lemma calculateMoves_planned (channels : JsMap.t ChannelJSON.t) :
  Forall (planned sidebarSections) (snd (calculateMoves sidebarSections sidebarRules channels)).
Proof.
  unfold calculateMoves.
  assert (H : Forall (planned sidebarSections) (snd (0, @nil SidebarMove.t))) by constructor.
  revert H. generalize (0, @nil SidebarMove.t) as acc.
  induction channels as [|entry channels IH]; intros acc H; simpl; [assumption|].
  apply IH, planChannel_planned, H.
Qed.

Lemma distinct_ids_same_section (a b : SidebarSection.t) :
  NoDup (map SidebarSection.id sidebarSections) ->
  In a sidebarSections -> In b sidebarSections ->
  SidebarSection.id a = SidebarSection.id b -> a = b.
Proof.
  induction sidebarSections as [|x l IH]; simpl; [contradiction|].
  intros Hnd Ha Hb E. inversion Hnd as [|? ? Hx Hl]; subst.
  destruct Ha as [->|Ha], Hb as [->|Hb]; auto.
  - contradict Hx. rewrite E. now apply in_map.
  - contradict Hx. rewrite <- E. now apply in_map.
Qed.

(** C10, as the source has it.  Every move the planning pass emits
    satisfies, with respect to the snapshot it was planned from: the
    destination section does not list the channel; [fromSidebarSectionId]
    is the id of the first snapshot section that lists the channel when
    there is one and its id is not the empty string, and null otherwise;
    so, provided no section id is the empty string, it is null exactly when
    no snapshot section lists the channel; and provided the section ids are
    distinct, a non-null [fromSidebarSectionId] differs from
    [toSidebarSectionId]. *)
Theorem planned_move_wellformed (channels : JsMap.t ChannelJSON.t) (m : SidebarMove.t) :
  In m (snd (calculateMoves sidebarSections sidebarRules channels)) ->
  (exists toSidebarSection,
      getSidebarSection sidebarSections (SidebarMove.toSidebarSectionId m)
      = Some toSidebarSection
      /\ SidebarSection.includesChannel toSidebarSection (SidebarMove.channelId m) = false)
  /\ SidebarMove.fromSidebarSectionId m
     = idOrNull (find (fun s => SidebarSection.includesChannel s (SidebarMove.channelId m))
                      sidebarSections)
  /\ ((forall s, In s sidebarSections -> SidebarSection.id s <> "") ->
      SidebarMove.fromSidebarSectionId m
      = option_map SidebarSection.id
          (find (fun s => SidebarSection.includesChannel s (SidebarMove.channelId m))
                sidebarSections)
      /\ (SidebarMove.fromSidebarSectionId m = None <->
          forall s, In s sidebarSections ->
                    SidebarSection.includesChannel s (SidebarMove.channelId m) = false))
  /\ (NoDup (map SidebarSection.id sidebarSections) ->
      forall from, SidebarMove.fromSidebarSectionId m = Some from ->
                   from <> SidebarMove.toSidebarSectionId m).
Proof.
  intros Hin.
  pose proof (calculateMoves_planned channels) as Hall.
  rewrite Forall_forall in Hall. destruct (Hall m Hin) as [Hto Hfrom].
  fold (holder sidebarSections (SidebarMove.channelId m)).
  split; [exact Hto|]. split; [exact Hfrom|]. split.
  - intros Hids. rewrite Hfrom. unfold idOrNull.
    destruct (holder sidebarSections (SidebarMove.channelId m)) as [s|] eqn:Eh; simpl.
    + apply find_some in Eh as [Hs Hc].
      destruct (String.eqb_spec (SidebarSection.id s) "") as [E|_];
        [contradiction (Hids s Hs)|].
      split; [reflexivity|]. split; [discriminate|].
      intros Hnone. rewrite (Hnone s Hs) in Hc. discriminate.
    + split; [reflexivity|]. split; [|reflexivity]. intros _ s Hs.
      exact (find_none _ _ Eh s Hs).
  - intros Hnd from Efrom. rewrite Hfrom in Efrom. unfold idOrNull in Efrom.
    destruct (holder sidebarSections (SidebarMove.channelId m)) as [s|] eqn:Eh; [|discriminate].
    destruct (String.eqb (SidebarSection.id s) ""); [discriminate|].
    injection Efrom as <-.
    apply find_some in Eh as [Hs Hc].
    destruct Hto as (t & Et & Hnot).
    destruct (getSidebarSection_id _ _ Et) as [Eid Ht].
    intros E. rewrite <- Eid in E.
    apply (distinct_ids_same_section s t Hnd Hs Ht) in E. subst t.
    rewrite Hc in Hnot. discriminate.
Qed.

End Planning.

(* ====================================================================== *)
(** * The rate limiter, one caller at a time *)
(* ====================================================================== *)

Lemma prune_length (rl : RateLimiter.t) (now : Z) :
  length (RateLimiter.prune rl now) <= length (RateLimiter.timestamps rl).
Proof. apply filter_length_le. Qed.

(** A retained timestamp is younger than the interval. *)
Lemma prune_young (rl : RateLimiter.t) (now t : Z) :
  In t (RateLimiter.prune rl now) -> (now - t < RateLimiter.intervalMs rl)%Z.
Proof.
  unfold RateLimiter.prune. rewrite filter_In. intros [_ H]. now apply Z.ltb_lt.
Qed.

(** With a limit of at least one, [wait] resolves: every retry sleeps until
    the oldest retained timestamp has expired and so retains fewer. *)
Lemma wait_resolves (fuel : nat) (rl : RateLimiter.t) (now : Z) :
  (1 <= RateLimiter.limit rl)%Z ->
  length (RateLimiter.prune rl now) < fuel ->
  exists rl' now',
    RateLimiter.wait fuel rl now = Some (rl', now')
    /\ RateLimiter.limit rl' = RateLimiter.limit rl
    /\ RateLimiter.intervalMs rl' = RateLimiter.intervalMs rl
    /\ (now <= now')%Z.
Proof.
  revert rl now. induction fuel as [|fuel IH]; intros rl now Hlim Hfuel; [lia|].
  simpl.
  destruct (Z.leb_spec (RateLimiter.limit rl)
              (Z.of_nat (length (RateLimiter.prune rl now)))) as [Hfull|Hfree].
  - destruct (RateLimiter.prune rl now) as [|oldest rest] eqn:Ekept;
      [simpl in Hfull; lia|].
    assert (Hyoung : (now - oldest < RateLimiter.intervalMs rl)%Z).
    { apply prune_young. rewrite Ekept. now left. }
    destruct (Z.ltb_spec 0 (oldest + RateLimiter.intervalMs rl - now)) as [_|Hle];
      [|lia].
    set (rl1 := RateLimiter.mk _ _ _).
    destruct (IH rl1 (now + (oldest + RateLimiter.intervalMs rl - now))%Z)
      as (rl' & now' & E & Hl & Hi & Hn).
    + exact Hlim.
    + unfold RateLimiter.prune, rl1. simpl.
      replace (now + (oldest + RateLimiter.intervalMs rl - now) - oldest)%Z
        with (RateLimiter.intervalMs rl) by lia.
      rewrite Z.ltb_irrefl.
      eapply Nat.le_lt_trans; [apply filter_length_le|]. simpl in Hfuel. lia.
    + exists rl', now'. repeat split; auto. lia.
  - eexists _, _. repeat split. lia.
Qed.

Lemma wait_enough (rl : RateLimiter.t) (now : Z) :
  (1 <= RateLimiter.limit rl)%Z ->
  exists rl' now',
    RateLimiter.wait (RateLimiter.enough rl) rl now = Some (rl', now')
    /\ RateLimiter.limit rl' = RateLimiter.limit rl.
Proof.
  intros H. destruct (wait_resolves (RateLimiter.enough rl) rl now H)
    as (rl' & now' & E & Hl & _).
  - unfold RateLimiter.enough. pose proof (prune_length rl now). lia.
  - eauto.
Qed.

(** When [wait] resolves at [now'], fewer than [limit] earlier admissions lie
    within the interval before [now'], and [now'] is recorded last. *)
Lemma wait_admits (fuel : nat) (rl rl' : RateLimiter.t) (now now' : Z) :
  RateLimiter.wait fuel rl now = Some (rl', now') ->
  exists kept,
    RateLimiter.timestamps rl' = kept ++ [now']
    /\ (Z.of_nat (length kept) < RateLimiter.limit rl)%Z
    /\ (forall t, In t kept ->
                  In t (RateLimiter.timestamps rl)
                  /\ (now' - t < RateLimiter.intervalMs rl)%Z).
Proof.
  revert rl now. induction fuel as [|fuel IH]; intros rl now; simpl; [discriminate|].
  destruct (Z.leb_spec (RateLimiter.limit rl)
              (Z.of_nat (length (RateLimiter.prune rl now)))) as [Hfull|Hfree].
  - assert (Hrec : forall next,
               RateLimiter.wait fuel
                 (RateLimiter.mk (RateLimiter.limit rl) (RateLimiter.intervalMs rl)
                                 (RateLimiter.prune rl now)) next = Some (rl', now') ->
               exists kept,
                 RateLimiter.timestamps rl' = kept ++ [now']
                 /\ (Z.of_nat (length kept) < RateLimiter.limit rl)%Z
                 /\ (forall t, In t kept ->
                               In t (RateLimiter.timestamps rl)
                               /\ (now' - t < RateLimiter.intervalMs rl)%Z)).
    { intros next E. destruct (IH _ _ E) as (kept & Ets & Hlen & Hin).
      exists kept. repeat split; auto; simpl in *.
      - destruct (Hin t H) as [Ht _]. unfold RateLimiter.prune in Ht.
        now apply filter_In in Ht.
      - now apply Hin. }
    destruct (RateLimiter.prune rl now) as [|oldest rest] eqn:Ekept; [apply Hrec|].
    destruct (0 <? oldest + RateLimiter.intervalMs rl - now)%Z; apply Hrec.
  - intros [= <- <-]. exists (RateLimiter.prune rl now). simpl.
    repeat split; auto.
    + unfold RateLimiter.prune in H. now apply filter_In in H.
    + now apply prune_young.
Qed.

(* ====================================================================== *)
(** * The executor *)
(* ====================================================================== *)

Section ExecutorFacts.

Context {S : Type}.
Variable client : SlackClient S.

Lemma acknowledged_cons_length (answered : list (SidebarMove.t * MoveResult.t)) :
  length (acknowledged answered) + length (refused answered) = length answered.
Proof.
  unfold acknowledged, refused. rewrite length_map. apply filter_length.
Qed.

Lemma run_cons (move : SidebarMove.t) (rest : list SidebarMove.t)
    (st : Executor.state S) :
  Executor.run client (move :: rest) st =
  match RateLimiter.wait (RateLimiter.enough (Executor.limiter st))
                         (Executor.limiter st) (Executor.clock st) with
  | None => (Executor.Stuck, st)
  | Some (limiter', clock') =>
      let '(result, service') :=
        sidebarMove client (SidebarMove.channelId move)
          (SidebarMove.toSidebarSectionId move)
          (SidebarMove.fromSidebarSectionId move) (Executor.service st) in
      let requests' := Executor.requests st ++ [move] in
      match result with
      | Throw e =>
          (Executor.Uncaught e,
           Executor.mk limiter' clock' service' requests'
                       (Executor.successfulMoves st) (Executor.errors st))
      | Normal result =>
          if MoveResult.ok result then
            Executor.run client rest
              (Executor.mk limiter' clock' service' requests'
                 (Executor.successfulMoves st ++ [move]) (Executor.errors st))
          else
            Executor.run client rest
              (Executor.mk limiter' clock' service' requests'
                 (Executor.successfulMoves st) (Executor.errors st ++ [(move, result)]))
      end
  end.
Proof. reflexivity. Qed.

Lemma answers_length (moves : list SidebarMove.t) (s : S) :
  acknowledges client -> length (answers client moves s) = length moves.
Proof.
  intros Hack. revert s. induction moves as [|move rest IH]; intros s; simpl; [reflexivity|].
  destruct (Hack (SidebarMove.channelId move) (SidebarMove.toSidebarSectionId move)
                 (SidebarMove.fromSidebarSectionId move) s) as [result Eres].
  destruct (sidebarMove client _ _ _ _) as [answer s']. simpl in Eres. subst answer.
  simpl. now rewrite IH.
Qed.

(** With a client that acknowledges every request and a limiter that lets
    callers through, the loop runs to the end of the list: the requests made
    are the moves, in order, and each move lands in exactly one of the two
    lists according to the flag of the answer it got. *)
Lemma run_completes (moves : list SidebarMove.t) (st : Executor.state S) :
  (1 <= RateLimiter.limit (Executor.limiter st))%Z ->
  acknowledges client ->
  exists st',
    Executor.run client moves st = (Executor.Completed, st')
    /\ Executor.requests st' = Executor.requests st ++ moves
    /\ Executor.successfulMoves st'
       = Executor.successfulMoves st
         ++ acknowledged (combine moves (answers client moves (Executor.service st)))
    /\ Executor.errors st'
       = Executor.errors st
         ++ refused (combine moves (answers client moves (Executor.service st))).
Proof.
  intros Hlim Hack. revert st Hlim.
  induction moves as [|move rest IH]; intros st Hlim.
  - exists st. simpl. now rewrite !app_nil_r.
  - rewrite run_cons.
    destruct (wait_enough (Executor.limiter st) (Executor.clock st) Hlim)
      as (rl' & now' & Ewait & Hl).
    rewrite Ewait. cbn [answers].
    destruct (Hack (SidebarMove.channelId move) (SidebarMove.toSidebarSectionId move)
                   (SidebarMove.fromSidebarSectionId move) (Executor.service st))
      as [result Eres].
    destruct (sidebarMove client _ _ _ _) as [answer service']. simpl in Eres. subst answer.
    destruct (MoveResult.ok result) eqn:Eok.
    + edestruct IH as (st' & Erun & Hreq & Hsucc & Herr);
        [|rewrite Erun]; [simpl; lia|].
      exists st'. simpl in *.
      unfold acknowledged, refused in *. simpl. rewrite Eok. simpl.
      rewrite Hreq, Hsucc, Herr, <- !app_assoc. auto.
    + edestruct IH as (st' & Erun & Hreq & Hsucc & Herr);
        [|rewrite Erun]; [simpl; lia|].
      exists st'. simpl in *.
      unfold acknowledged, refused in *. simpl. rewrite Eok. simpl.
      rewrite Hreq, Hsucc, Herr, <- !app_assoc. auto.
Qed.

(** C9, as the source has it.  Provided every relocation request is
    answered (the promise resolves), the executor of [main] runs through
    the whole batch: it requests each planned move exactly once, in list
    order; each move is recorded either as a success, when the answer it got
    has the ok flag, or as a failure together with the move (channel id,
    from and to section ids) and that answer, never as both; a refused move
    does not stop the moves after it; and successes plus failures count the
    planned moves. *)
Theorem executor_classifies_every_move (sidebarMoves : list SidebarMove.t)
    (now : Z) (s : S) :
  acknowledges client ->
  exists st,
    Executor.run client sidebarMoves
      (Executor.start (RateLimiter.new 20 60000) now s) = (Executor.Completed, st)
    /\ Executor.requests st = sidebarMoves
    /\ Executor.successfulMoves st
       = acknowledged (combine sidebarMoves (answers client sidebarMoves s))
    /\ Executor.errors st
       = refused (combine sidebarMoves (answers client sidebarMoves s))
    /\ length (Executor.successfulMoves st) + length (Executor.errors st)
       = length sidebarMoves.
Proof.
  intros Hack.
  destruct (run_completes sidebarMoves
              (Executor.start (RateLimiter.new 20 60000) now s))
    as (st & Erun & Hreq & Hsucc & Herr); [simpl; lia|assumption|].
  exists st. simpl in *.
  repeat split; auto.
  rewrite Hsucc, Herr, acknowledged_cons_length, length_combine, answers_length by assumption.
  lia.
Qed.

End ExecutorFacts.

Lemma executor_classifies_every_move_witness :
  acknowledges (Sample.clientOf Sample.organisedList Sample.acceptsFirst)
  /\ exists st,
      Executor.run (Sample.clientOf Sample.organisedList Sample.acceptsFirst)
        [Sample.move; Sample.move2]
        (Executor.start (RateLimiter.new 20 60000) 0 tt) = (Executor.Completed, st)
      /\ Executor.requests st = [Sample.move; Sample.move2]
      /\ length (Executor.successfulMoves st) + length (Executor.errors st) = 2.
Proof.
  assert (H : acknowledges (Sample.clientOf Sample.organisedList Sample.acceptsFirst)).
  { intros c t f s. simpl. unfold Sample.acceptsFirst.
    destruct (String.eqb c "C1"); eauto. }
  split; [exact H|].
  destruct (executor_classifies_every_move
              (Sample.clientOf Sample.organisedList Sample.acceptsFirst)
              [Sample.move; Sample.move2] 0 tt H)
    as (st & Erun & Hreq & _ & _ & Hcount).
  exists st. auto.
Defined.

(** C9, as stated, fails: a request that throws is neither a success nor a
    failure, and the moves after it are never attempted. *)
Lemma rejected_request_aborts_batch :
  exists st,
    Executor.run (Sample.clientOf Sample.organisedList Sample.hangsUp)
      [Sample.move; Sample.move2]
      (Executor.start (RateLimiter.new 20 60000) 0 tt)
    = (Executor.Uncaught (Error "socket hang up"), st)
    /\ Executor.requests st = [Sample.move]
    /\ Executor.successfulMoves st = []
    /\ Executor.errors st = []
    /\ length (Executor.successfulMoves st) + length (Executor.errors st)
       <> length [Sample.move; Sample.move2].
Proof.
  eexists. split; [reflexivity|]. simpl. repeat split; auto.
Qed.

(* ====================================================================== *)
(** * Runs without [--write] *)
(* ====================================================================== *)

Lemma uncaught_no_request (e : Thrown) : existsb isRequest (uncaught e) = false.
Proof. now destruct e. Qed.

Lemma loadRules_stop (sidebarSections : list SidebarSection.t)
    (sidebarRulesRaw : list RuleJSON.t) (stop : list Event) :
  loadRules sidebarSections sidebarRulesRaw = inl stop ->
  existsb isRequest stop = false.
Proof.
  revert stop. induction sidebarRulesRaw as [|json rest IH]; intros stop; simpl;
    [discriminate|].
  destruct (resolveSection sidebarSections json) as [section|]; [|now intros [= <-]].
  destruct (SidebarRule.fromJSON _ json) as [rule|e].
  - destruct (loadRules sidebarSections rest) as [stop'|rules]; [|discriminate].
    intros [= <-]. now apply IH.
  - intros [= <-]. apply uncaught_no_request.
Qed.



Section DryRun.

Context {S : Type}.
Variable p : Process S.






End DryRun.



(** A run that never ends: against a service that answers every request of
    [conversations.list] with [ratelimited], the dry run is still loading
    the channels after any number of requests. *)
Lemma rate_limited_run_never_ends (fuel : nat) :
  main fuel Sample.alwaysLimited tt = None.
Proof.
  unfold main. cbn -[getChannels].
  assert (E : getChannels (client Sample.alwaysLimited)
                (localeCompare Sample.alwaysLimited) fuel tt = None).
  { unfold getChannels.
    generalize (Pages.mk 0 (@nil Z) (@nil (list ChannelJSON.t))) as w.
    induction fuel as [|fuel IH]; intros w; [reflexivity|].
    simpl. simpl in IH. apply IH. }
  cbn -[getChannels] in E. now rewrite E.
Qed.

Lemma planned_move_wellformed_witness :
  In Sample.move (snd (calculateMoves Sample.sections Sample.rules Sample.channels))
  /\ (forall s, In s Sample.sections -> SidebarSection.id s <> "")
  /\ NoDup (map SidebarSection.id Sample.sections)
  /\ SidebarMove.fromSidebarSectionId Sample.move
     = option_map SidebarSection.id
         (find (fun s => SidebarSection.includesChannel s "C1") Sample.sections)
  /\ "S1" <> SidebarMove.toSidebarSectionId Sample.move.
Proof.
  assert (Hin : In Sample.move
                   (snd (calculateMoves Sample.sections Sample.rules Sample.channels)))
    by (left; reflexivity).
  assert (Hids : forall s, In s Sample.sections -> SidebarSection.id s <> "").
  { intros s [<-|[<-|[]]]; discriminate. }
  assert (Hnd : NoDup (map SidebarSection.id Sample.sections)).
  { repeat constructor; simpl; intuition discriminate. }
  destruct (planned_move_wellformed Sample.sections Sample.rules Sample.channels
              Sample.move Hin) as (_ & _ & Hfrom & Hdiff).
  split; [exact Hin|]. split; [exact Hids|]. split; [exact Hnd|]. split.
  - exact (proj1 (Hfrom Hids)).
  - exact (Hdiff Hnd "S1" eq_refl).
Defined.

(** C10, as stated, fails: the section that lists the channel has the empty
    string for an id, so the move's [fromSidebarSectionId] is null although a
    snapshot section contains the channel. *)
Lemma empty_section_id_reads_as_null :
  snd (calculateMoves Sample.sectionsWithEmptyId Sample.rules Sample.channels)
  = [SidebarMove.mk "C1" None "S2"]
  /\ exists s,
      In s Sample.sectionsWithEmptyId
      /\ SidebarSection.includesChannel s "C1" = true.
Proof.
  split; [reflexivity|].
  exists (SidebarSection.mk "" "Channels" ["C1"]). split; [now left|reflexivity].
Qed.

(* ====================================================================== *)
(** * Overflow sections *)
(* ====================================================================== *)

Lemma stripPrefix_spec (p s rest : string) :
  stripPrefix p s = Some rest <-> s = (p ++ rest)%string.
Proof.
  revert s. induction p as [|a p IH]; intros s; simpl.
  - split; [now intros [= ->]|now intros ->].
  - destruct s as [|b s]; [split; discriminate|].
    destruct (Ascii.eqb_spec a b) as [->|Hne].
    + rewrite IH. split; [now intros ->|now intros [= ->]].
    + split; [discriminate|]. intros [= E _]. congruence.
Qed.

Lemma digitsThenClose_spec (s : string) (seen : bool) (acc n : N) :
  digitsThenClose seen acc s = Some n <->
  exists digits,
    allDigits digits = true
    /\ (seen = true \/ digits <> "")
    /\ s = (digits ++ ")")%string
    /\ n = decimal acc digits.
Proof.
  revert seen acc. induction s as [|c s IH]; intros seen acc; simpl.
  - split; [discriminate|]. intros (ds & _ & _ & E & _). now destruct ds.
  - destruct (isDigit c) eqn:Ec.
    + rewrite IH. split.
      * intros (ds & Hall & _ & -> & ->). exists (String c ds). simpl.
        rewrite Ec, Hall. repeat split; auto. right. discriminate.
      * intros (ds & Hall & Hne & E & ->). destruct ds as [|d ds]; simpl in *.
        -- injection E as -> _. discriminate Ec.
        -- injection E as -> ->. apply andb_true_iff in Hall as [_ Hall].
           exists ds. repeat split; auto.
    + split.
      * destruct (Ascii.eqb_spec c ")") as [->|]; [|discriminate].
        destruct seen; [|discriminate].
        destruct (String.eqb_spec s "") as [->|]; [|discriminate].
        intros [= <-]. exists "". repeat split; auto.
      * intros (ds & Hall & Hne & E & ->). destruct ds as [|d ds]; simpl in *.
        -- injection E as -> ->. destruct Hne as [->|]; [reflexivity|congruence].
        -- injection E as -> _. apply andb_true_iff in Hall as [Hd _]. congruence.
Qed.

(** A name has overflow number [n] for a base name exactly when it is the base
    name, a space, and a parenthesised non-empty run of decimal digits that
    denotes [n]. *)
Lemma overflowNumber_spec (baseName name : string) (n : N) :
  overflowNumber baseName name = Some n <->
  exists digits,
    digits <> "" /\ allDigits digits = true
    /\ name = (baseName ++ " (" ++ digits ++ ")")%string
    /\ n = decimal 0 digits.
Proof.
  unfold overflowNumber. split.
  - destruct (stripPrefix _ name) as [rest|] eqn:E; [|discriminate].
    apply stripPrefix_spec in E. intros H.
    apply digitsThenClose_spec in H as (ds & Hall & [?|Hne] & -> & ->); [discriminate|].
    exists ds. repeat split; auto. subst name.
    clear. induction baseName; simpl; [reflexivity|now f_equal].
  - intros (ds & Hne & Hall & -> & ->).
    assert (E : stripPrefix (baseName ++ " (") (baseName ++ " (" ++ ds ++ ")")
                = Some (ds ++ ")")%string).
    { apply stripPrefix_spec. clear. induction baseName; simpl; [reflexivity|now f_equal]. }
    rewrite E. apply digitsThenClose_spec. exists ds. auto.
Qed.

Lemma string_app_nil_inv (a b : string) : (a ++ b)%string = a -> b = "".
Proof. induction a as [|c a IH]; simpl; [auto|]. intros [= E]. auto. Qed.

(** The primary section, named by the base name alone, has no overflow
    number. *)
Lemma overflowNumber_primary (baseName : string) : overflowNumber baseName baseName = None.
Proof.
  destruct (overflowNumber baseName baseName) as [n|] eqn:E; [|reflexivity].
  apply overflowNumber_spec in E as (ds & _ & _ & E & _).
  symmetry in E. apply string_app_nil_inv in E. discriminate.
Qed.

Lemma numbered_sections (baseName : string) (sections : list SidebarSection.t) :
  map snd (numbered baseName sections) = filter (isOverflowOf baseName) sections.
Proof.
  induction sections as [|s l IH]; simpl; [reflexivity|].
  unfold isOverflowOf.
  destruct (overflowNumber baseName (SidebarSection.name s)); simpl; now rewrite IH.
Qed.

Lemma numbered_numbers (baseName : string) (sections : list SidebarSection.t) :
  Forall (fun ns => overflowNumber baseName (SidebarSection.name (snd ns)) = Some (fst ns))
         (numbered baseName sections).
Proof.
  induction sections as [|s l IH]; simpl; [constructor|].
  destruct (overflowNumber baseName (SidebarSection.name s)) eqn:E; auto.
Qed.

Lemma insertByNumber_perm (x : N * SidebarSection.t) (l : list (N * SidebarSection.t)) :
  Permutation (insertByNumber x l) (x :: l).
Proof.
  induction l as [|y l IH]; simpl; [reflexivity|].
  destruct (fst x <? fst y)%N; [reflexivity|].
  rewrite IH. apply perm_swap.
Qed.

Lemma sortByNumber_perm (l : list (N * SidebarSection.t)) :
  Permutation (sortByNumber l) l.
Proof.
  unfold sortByNumber.
  enough (H : forall acc, Permutation (fold_left (fun sorted x => insertByNumber x sorted) l acc)
                                      (acc ++ l)) by apply (H []).
  induction l as [|x l IH]; intros acc; simpl.
  - now rewrite app_nil_r.
  - rewrite IH, insertByNumber_perm. simpl. apply Permutation_middle.
Qed.

Lemma insertByNumber_sorted (x : N * SidebarSection.t) (l : list (N * SidebarSection.t)) :
  Sorted (fun a b => (fst a <= fst b)%N) l ->
  Sorted (fun a b => (fst a <= fst b)%N) (insertByNumber x l).
Proof.
  induction 1 as [|y l Hs IH Hhd]; simpl; [repeat constructor|].
  destruct (N.ltb_spec (fst x) (fst y)) as [Hlt|Hge].
  - constructor; [now constructor|]. constructor. lia.
  - constructor; [exact IH|].
    destruct l as [|z l]; simpl.
    + constructor. exact Hge.
    + destruct (N.ltb_spec (fst x) (fst z)); constructor; auto.
      now inversion Hhd.
Qed.

Lemma sortByNumber_sorted (l : list (N * SidebarSection.t)) :
  Sorted (fun a b => (fst a <= fst b)%N) (sortByNumber l).
Proof.
  unfold sortByNumber.
  enough (H : forall acc, Sorted (fun a b => (fst a <= fst b)%N) acc ->
                          Sorted (fun a b => (fst a <= fst b)%N)
                                 (fold_left (fun sorted x => insertByNumber x sorted) l acc))
    by (apply H; constructor).
  induction l as [|x l IH]; intros acc Hacc; simpl; [assumption|].
  apply IH, insertByNumber_sorted, Hacc.
Qed.

Lemma Sorted_map_fst (l : list (N * SidebarSection.t)) :
  Sorted (fun a b => (fst a <= fst b)%N) l -> Sorted N.le (map fst l).
Proof.
  induction 1 as [|x l Hs IH Hhd]; simpl; constructor; auto.
  destruct Hhd; simpl; constructor; auto.
Qed.

Lemma Forall_pairs_Forall2 {A B} (P : A -> B -> Prop) (l : list (B * A)) :
  Forall (fun ba => P (snd ba) (fst ba)) l -> Forall2 P (map snd l) (map fst l).
Proof. induction 1; simpl; constructor; auto. Qed.

Lemma isOverflowOf_spec (baseName : string) (s : SidebarSection.t) :
  isOverflowOf baseName s = true <->
  exists digits,
    digits <> "" /\ allDigits digits = true
    /\ SidebarSection.name s = (baseName ++ " (" ++ digits ++ ")")%string.
Proof.
  unfold isOverflowOf. split.
  - destruct (overflowNumber _ _) as [n|] eqn:E; [|discriminate]. intros _.
    apply overflowNumber_spec in E as (ds & ? & ? & ? & _). eauto.
  - intros (ds & Hne & Hall & E).
    assert (H : overflowNumber baseName (SidebarSection.name s) = Some (decimal 0 ds)).
    { apply overflowNumber_spec. eauto 6. }
    now rewrite H.
Qed.

(** C5.  [findOverflowSections] returns exactly the sections whose name is
    the literal base name, a space and a parenthesised run of one or more
    decimal digits: the result is a rearrangement of those sections, the
    section named by the base name alone is not among them, nor is one with
    a malformed or non-numeric suffix.  The result is in ascending order of
    the number the digits denote, whatever the order of the input and
    whatever the order of the names as strings: sections numbered 5, 2 and 10
    come out as 2, 5, 10, and ["Alerts (abc)"] is left out. *)
Theorem findOverflowSections_exact_and_ordered
    (baseName : string) (sections : list SidebarSection.t) :
  Permutation (findOverflowSections baseName sections)
              (filter (isOverflowOf baseName) sections)
  /\ (forall s,
         In s (findOverflowSections baseName sections) <->
         In s sections
         /\ exists digits,
             digits <> "" /\ allDigits digits = true
             /\ SidebarSection.name s = (baseName ++ " (" ++ digits ++ ")")%string)
  /\ (forall s, In s (findOverflowSections baseName sections) ->
                SidebarSection.name s <> baseName)
  /\ (exists numbers,
         Forall2 (fun s n => overflowNumber baseName (SidebarSection.name s) = Some n)
                 (findOverflowSections baseName sections) numbers
         /\ StronglySorted N.le numbers)
  /\ map SidebarSection.id
         (findOverflowSections "Alerts"
            [SidebarSection.mk "s5" "Alerts (5)" []; SidebarSection.mk "s2" "Alerts (2)" [];
             SidebarSection.mk "s10" "Alerts (10)" [];
             SidebarSection.mk "sx" "Alerts (abc)" []; SidebarSection.mk "s1" "Alerts" []])
     = ["s2"; "s5"; "s10"].
Proof.
  assert (Hperm : Permutation (findOverflowSections baseName sections)
                              (filter (isOverflowOf baseName) sections)).
  { unfold findOverflowSections. rewrite <- numbered_sections.
    apply Permutation_map, sortByNumber_perm. }
  assert (Hin : forall s,
             In s (findOverflowSections baseName sections) <->
             In s sections
             /\ exists digits,
                 digits <> "" /\ allDigits digits = true
                 /\ SidebarSection.name s = (baseName ++ " (" ++ digits ++ ")")%string).
  { intros s. rewrite <- isOverflowOf_spec, <- filter_In. split.
    - apply Permutation_in, Hperm.
    - apply Permutation_in. symmetry. exact Hperm. }
  split; [exact Hperm|]. split; [exact Hin|]. split; [|split; [|reflexivity]].
  - intros s Hs E. apply Hin in Hs as [_ Hs]. apply isOverflowOf_spec in Hs.
    unfold isOverflowOf in Hs. rewrite E, overflowNumber_primary in Hs. discriminate.
  - exists (map fst (sortByNumber (numbered baseName sections))). split.
    + unfold findOverflowSections. apply Forall_pairs_Forall2.
      eapply Permutation_Forall; [symmetry; apply sortByNumber_perm|].
      apply numbered_numbers.
    + apply Sorted_StronglySorted; [exact N.le_trans|].
      apply Sorted_map_fst, sortByNumber_sorted.
Qed.

Lemma findOverflowSections_exact_and_ordered_witness :
  In (SidebarSection.mk "s2" "Customers (2)" [])
     (findOverflowSections "Customers"
        [SidebarSection.mk "s1" "Cust (2)" []; SidebarSection.mk "s2" "Customers (2)" []])
  /\ SidebarSection.name (SidebarSection.mk "s2" "Customers (2)" []) <> "Customers".
Proof.
  pose proof (findOverflowSections_exact_and_ordered "Customers"
                [SidebarSection.mk "s1" "Cust (2)" [];
                 SidebarSection.mk "s2" "Customers (2)" []]) as (_ & Hin & Hprimary & _).
  assert (H : In (SidebarSection.mk "s2" "Customers (2)" [])
                 (findOverflowSections "Customers"
                    [SidebarSection.mk "s1" "Cust (2)" [];
                     SidebarSection.mk "s2" "Customers (2)" []])).
  { apply Hin. split; [right; left; reflexivity|].
    exists "2". repeat split. discriminate. }
  split; [exact H|exact (Hprimary _ H)].
Defined.

(* ====================================================================== *)
(** * The distributor *)
(* ====================================================================== *)

Lemma assignedTo_cons_some (i j : nat) (placed : list (option nat)) :
  assignedTo i (Some j :: placed) = (if Nat.eqb j i then 1 else 0) + assignedTo i placed.
Proof. unfold assignedTo. simpl. now destruct (Nat.eqb j i). Qed.

Lemma assignedTo_cons_none (i : nat) (placed : list (option nat)) :
  assignedTo i (None :: placed) = assignedTo i placed.
Proof. reflexivity. Qed.

(** The candidate that takes a move had capacity left, it is the first such
    candidate, and only its counter changes. *)
Lemma firstWithCapacity_some (cs cs' : list (SidebarSection.t * nat))
    (i : nat) (s : SidebarSection.t) :
  firstWithCapacity cs = Some (i, s, cs') ->
  exists r,
    nth_error cs i = Some (s, S r)
    /\ nth_error cs' i = Some (s, r)
    /\ (forall k, k <> i -> nth_error cs' k = nth_error cs k)
    /\ (forall k c, k < i -> nth_error cs k = Some c -> snd c = 0).
Proof.
  revert cs' i. induction cs as [|[s0 r0] cs IH]; intros cs' i; simpl; [discriminate|].
  destruct r0 as [|r0]; simpl.
  - destruct (firstWithCapacity cs) as [[[i1 s1] cs1]|] eqn:E; [|discriminate].
    intros [= <- <- <-]. destruct (IH _ _ eq_refl) as (r & H1 & H2 & H3 & H4).
    exists r. repeat split; auto.
    + intros [|k] Hk; simpl; [reflexivity|]. apply H3. lia.
    + intros [|k] c Hk; simpl; [now intros [= <-]|]. apply H4. lia.
  - intros [= <- <- <-]. exists r0. rewrite Nat.sub_0_r. repeat split; auto.
    + intros [|k] Hk; [lia|reflexivity].
    + intros k c Hk. lia.
Qed.

Lemma firstWithCapacity_none (cs : list (SidebarSection.t * nat)) :
  firstWithCapacity cs = None ->
  forall k c, nth_error cs k = Some c -> snd c = 0.
Proof.
  induction cs as [|[s0 r0] cs IH]; simpl; intros H k c.
  - now destruct k.
  - destruct r0 as [|r0]; simpl in H; [|discriminate].
    destruct (firstWithCapacity cs) as [[[i1 s1] cs1]|]; [discriminate|].
    destruct k as [|k]; simpl; [now intros [= <-]|]. now apply IH.
Qed.

Lemma firstWithCapacity_sections (cs cs' : list (SidebarSection.t * nat))
    (i : nat) (s : SidebarSection.t) :
  firstWithCapacity cs = Some (i, s, cs') -> map fst cs' = map fst cs.
Proof.
  revert cs' i. induction cs as [|[s0 r0] cs IH]; intros cs' i; simpl; [discriminate|].
  destruct (Nat.ltb 0 r0).
  - now intros [= <- <- <-].
  - destruct (firstWithCapacity cs) as [[[i1 s1] cs1]|] eqn:E; [|discriminate].
    intros [= <- <- <-]. simpl. f_equal. eapply IH. reflexivity.
Qed.

(** No candidate takes more moves than its counter allows. *)
Lemma distribute_within_capacity (moves : list SidebarMove.t)
    (cs : list (SidebarSection.t * nat)) (i : nat) (c : SidebarSection.t * nat) :
  nth_error cs i = Some c ->
  assignedTo i (map snd (distribute moves cs)) <= snd c.
Proof.
  revert cs c. induction moves as [|m ms IH]; intros cs c Hc; simpl; [apply Nat.le_0_l|].
  destruct (firstWithCapacity cs) as [[[j s] cs']|] eqn:E; simpl.
  - rewrite assignedTo_cons_some.
    destruct (firstWithCapacity_some _ _ _ _ E) as (r & H1 & H2 & H3 & _).
    destruct (Nat.eqb_spec j i) as [->|Hne].
    + rewrite H1 in Hc. injection Hc as <-. simpl.
      specialize (IH cs' _ H2). simpl in IH. lia.
    + rewrite <- H3 in Hc by auto. apply (IH cs' _ Hc).
  - rewrite assignedTo_cons_none. now apply IH.
Qed.

(** When a move goes to candidate [j], every candidate before [j] has
    already taken as many moves as its counter allowed. *)
Lemma distribute_fills_in_order (moves : list SidebarMove.t)
    (cs : list (SidebarSection.t * nat)) (p j i : nat) (c : SidebarSection.t * nat) :
  nth_error (map snd (distribute moves cs)) p = Some (Some j) ->
  i < j -> nth_error cs i = Some c ->
  assignedTo i (firstn p (map snd (distribute moves cs))) = snd c.
Proof.
  revert cs p c. induction moves as [|m ms IH]; intros cs p c; simpl.
  - now destruct p.
  - destruct (firstWithCapacity cs) as [[[j0 s] cs']|] eqn:E; simpl.
    + destruct (firstWithCapacity_some _ _ _ _ E) as (r & H1 & H2 & H3 & H4).
      destruct p as [|p]; simpl.
      * intros [= <-] Hij Hc. symmetry. eapply H4; eauto.
      * intros Hp Hij Hc. rewrite assignedTo_cons_some.
        destruct (Nat.eqb_spec j0 i) as [->|Hne].
        -- rewrite H1 in Hc. injection Hc as <-. simpl.
           rewrite (IH cs' p (s, r) Hp Hij H2). reflexivity.
        -- rewrite <- H3 in Hc by auto. apply (IH cs' p c Hp Hij Hc).
    + destruct p as [|p]; simpl; [discriminate|].
      intros Hp Hij Hc. rewrite assignedTo_cons_none. now apply IH.
Qed.

(** When a move finds no candidate, every candidate has taken as many
    moves as its counter allowed. *)
Lemma distribute_unplaced_full (moves : list SidebarMove.t)
    (cs : list (SidebarSection.t * nat)) (p i : nat) (c : SidebarSection.t * nat) :
  nth_error (map snd (distribute moves cs)) p = Some None ->
  nth_error cs i = Some c ->
  assignedTo i (firstn p (map snd (distribute moves cs))) = snd c.
Proof.
  revert cs p c. induction moves as [|m ms IH]; intros cs p c; simpl.
  - now destruct p.
  - destruct (firstWithCapacity cs) as [[[j0 s] cs']|] eqn:E; simpl.
    + destruct (firstWithCapacity_some _ _ _ _ E) as (r & H1 & H2 & H3 & H4).
      destruct p as [|p]; simpl; [discriminate|].
      intros Hp Hc. rewrite assignedTo_cons_some.
      destruct (Nat.eqb_spec j0 i) as [->|Hne].
      * rewrite H1 in Hc. injection Hc as <-. simpl.
        rewrite (IH cs' p (s, r) Hp H2). reflexivity.
      * rewrite <- H3 in Hc by auto. apply (IH cs' p c Hp Hc).
    + destruct p as [|p]; simpl.
      * intros _ Hc. symmetry. eapply firstWithCapacity_none; eauto.
      * intros Hp Hc. rewrite assignedTo_cons_none. now apply IH.
Qed.

(** What the distributor does to the move at position [p]. *)
Lemma distribute_rewrites (moves : list SidebarMove.t)
    (cs : list (SidebarSection.t * nat)) (p : nat) (m : SidebarMove.t) :
  nth_error moves p = Some m ->
  exists m' placement,
    nth_error (distribute moves cs) p = Some (m', placement)
    /\ match placement with
       | None => m' = m
       | Some j =>
           exists s,
             nth_error (map fst cs) j = Some s
             /\ m' = SidebarMove.mk (SidebarMove.channelId m)
                                    (SidebarMove.fromSidebarSectionId m)
                                    (SidebarSection.id s)
       end.
Proof.
  revert cs p. induction moves as [|m0 ms IH]; intros cs p; [now destruct p|].
  simpl. destruct (firstWithCapacity cs) as [[[j0 s] cs']|] eqn:E.
  - destruct p as [|p]; simpl.
    + intros [= ->]. eexists _, (Some j0). split; [reflexivity|].
      exists s. split; [|reflexivity].
      destruct (firstWithCapacity_some _ _ _ _ E) as (r & H1 & _).
      rewrite nth_error_map, H1. reflexivity.
    + intros Hp. destruct (IH cs' p Hp) as (m' & pl & H1 & H2).
      exists m', pl. split; [exact H1|].
      destruct pl; [|exact H2].
      now rewrite <- (firstWithCapacity_sections _ _ _ _ E).
  - destruct p as [|p]; simpl.
    + intros [= ->]. eexists _, None. split; reflexivity.
    + apply IH.
Qed.

Lemma distribute_length (moves : list SidebarMove.t)
    (cs : list (SidebarSection.t * nat)) :
  length (distribute moves cs) = length moves.
Proof.
  revert cs. induction moves as [|m ms IH]; intros cs; simpl; [reflexivity|].
  destruct (firstWithCapacity cs) as [[[j0 s] cs']|]; simpl; now rewrite IH.
Qed.

Lemma counters_nth (sections : list SidebarSection.t) (i : nat) (s : SidebarSection.t) :
  nth_error sections i = Some s ->
  nth_error (counters sections) i = Some (s, availableCapacity s).
Proof. intros H. unfold counters. now rewrite nth_error_map, H. Qed.

Lemma counters_sections (sections : list SidebarSection.t) :
  map fst (counters sections) = sections.
Proof. unfold counters. rewrite map_map. simpl. apply map_id. Qed.

(** C1, as the specified algorithm has it.  For every batch of moves and
    every ordered list of candidate sections (primary first, then the
    overflow sections), after [distributeMovesAcrossSections]: no section
    takes more moves than its available capacity [max(0, 500 - members)], so
    the moves it takes plus its members stay within 500 whenever its members
    did; a move goes to a section only when every section before it in the
    list has taken its full available capacity, so the primary section fills
    first and the overflow sections fill in list order; a move placed in a
    section keeps its channel and origin and gets that section's id as
    destination; and a move that finds every candidate full is left exactly
    as it was. *)
Theorem distribution_respects_capacity
    (moves : list SidebarMove.t) (sections : list SidebarSection.t) :
  length (distributeMovesAcrossSections moves sections) = length moves
  /\ (forall i s,
         nth_error sections i = Some s ->
         assignedTo i (placements moves sections) <= availableCapacity s
         /\ (length (SidebarSection.channelIds s) <= SECTION_CHANNEL_LIMIT ->
             assignedTo i (placements moves sections)
             + length (SidebarSection.channelIds s) <= SECTION_CHANNEL_LIMIT))
  /\ (forall p j,
         nth_error (placements moves sections) p = Some (Some j) ->
         (forall i s, i < j -> nth_error sections i = Some s ->
                      assignedTo i (firstn p (placements moves sections))
                      = availableCapacity s)
         /\ exists m s,
             nth_error moves p = Some m
             /\ nth_error sections j = Some s
             /\ nth_error (distributeMovesAcrossSections moves sections) p
                = Some (SidebarMove.mk (SidebarMove.channelId m)
                                       (SidebarMove.fromSidebarSectionId m)
                                       (SidebarSection.id s)))
  /\ (forall p,
         nth_error (placements moves sections) p = Some None ->
         nth_error (distributeMovesAcrossSections moves sections) p = nth_error moves p
         /\ forall i s, nth_error sections i = Some s ->
                        assignedTo i (firstn p (placements moves sections))
                        = availableCapacity s).
Proof.
  unfold distributeMovesAcrossSections, placements.
  assert (Hat : forall p pl,
             nth_error (map snd (distribute moves (counters sections))) p = Some pl ->
             exists m m',
               nth_error moves p = Some m
               /\ nth_error (distribute moves (counters sections)) p = Some (m', pl)
               /\ match pl with
                  | None => m' = m
                  | Some j =>
                      exists s,
                        nth_error sections j = Some s
                        /\ m' = SidebarMove.mk (SidebarMove.channelId m)
                                               (SidebarMove.fromSidebarSectionId m)
                                               (SidebarSection.id s)
                  end).
  { intros p pl Hp.
    assert (Hlt : p < length moves).
    { rewrite <- (distribute_length moves (counters sections)),
        <- (length_map snd). apply nth_error_Some. congruence. }
    destruct (nth_error moves p) as [m|] eqn:Em;
      [|apply nth_error_None in Em; lia].
    destruct (distribute_rewrites moves (counters sections) p m Em)
      as (m' & pl' & H1 & H2).
    rewrite nth_error_map, H1 in Hp. simpl in Hp. injection Hp as ->.
    exists m, m'. rewrite counters_sections in H2. auto. }
  split; [|split; [|split]].
  - rewrite length_map. apply distribute_length.
  - intros i s Hs.
    pose proof (distribute_within_capacity moves _ i _ (counters_nth _ _ _ Hs)) as H.
    simpl in H. split; [exact H|].
    unfold availableCapacity in H. intros Hle. lia.
  - intros p j Hp. split.
    + intros i s Hij Hs.
      apply (distribute_fills_in_order moves _ p j i _ Hp Hij (counters_nth _ _ _ Hs)).
    + destruct (Hat p _ Hp) as (m & m' & Em & Ed & s & Es & ->).
      exists m, s. rewrite nth_error_map, Ed. auto.
  - intros p Hp. split.
    + destruct (Hat p _ Hp) as (m & m' & Em & Ed & ->).
      now rewrite nth_error_map, Ed, Em.
    + intros i s Hs.
      apply (distribute_unplaced_full moves _ p i _ Hp (counters_nth _ _ _ Hs)).
Qed.

Lemma distribution_respects_capacity_witness :
  nth_error [Sample.nearlyFull; Sample.overflow2] 0 = Some Sample.nearlyFull
  /\ placements [Sample.toPrimary "ch1"; Sample.toPrimary "ch2"; Sample.toPrimary "ch3"]
                [Sample.nearlyFull; Sample.overflow2]
     = [Some 0; Some 1; Some 1]
  /\ assignedTo 0 (placements [Sample.toPrimary "ch1"; Sample.toPrimary "ch2";
                               Sample.toPrimary "ch3"]
                              [Sample.nearlyFull; Sample.overflow2])
     + length (SidebarSection.channelIds Sample.nearlyFull) <= SECTION_CHANNEL_LIMIT.
Proof.
  split; [reflexivity|]. split; [reflexivity|].
  refine (proj2 (proj1 (proj2 (distribution_respects_capacity
            [Sample.toPrimary "ch1"; Sample.toPrimary "ch2"; Sample.toPrimary "ch3"]
            [Sample.nearlyFull; Sample.overflow2])) 0 Sample.nearlyFull eq_refl) _).
  vm_compute. repeat constructor.
Defined.

(** C1, as stated, fails: a primary section that already holds more than 500
    channels takes no move, and still its members alone exceed the limit. *)
Lemma overfull_section_stays_over_limit :
  placements [Sample.toPrimary "ch1"] [Sample.overfull; Sample.overflow2] = [Some 1]
  /\ assignedTo 0 (placements [Sample.toPrimary "ch1"] [Sample.overfull; Sample.overflow2])
     + length (SidebarSection.channelIds Sample.overfull) = 501
  /\ ~ (assignedTo 0 (placements [Sample.toPrimary "ch1"]
                                 [Sample.overfull; Sample.overflow2])
        + length (SidebarSection.channelIds Sample.overfull) <= SECTION_CHANNEL_LIMIT).
Proof.
  split; [vm_compute; reflexivity|]. split; [vm_compute; reflexivity|].
  vm_compute. intros H. repeat (apply le_S_n in H). inversion H.
Qed.

(* ====================================================================== *)
(** * The cases of the test-suite *)
(* ====================================================================== *)

Example getPrefixes_counts_across_channels :
  getPrefixes ["project-alpha"; "project-beta"; "customer-a"; "customer-b";
               "customer-c"; "some-other-channel"]
  = [("project", 2); ("customer", 3); ("some", 1); ("some-other", 1)].
Proof. reflexivity. Qed.

Example getPrefixes_without_hyphen :
  getPrefixes ["customer-a"; "something"] = [("customer", 1)].
Proof. reflexivity. Qed.

Example getPrefixes_first_four_segments :
  getPrefixes ["a-b-c-d-e-suffix"]
  = [("a", 1); ("a-b", 1); ("a-b-c", 1); ("a-b-c-d", 1)].
Proof. reflexivity. Qed.

Example getSuffixes_counts_across_channels :
  getSuffixes ["alpha-project"; "beta-project"; "a-customer"; "b-customer";
               "c-customer"; "some-other-channel"]
  = [("project", 2); ("customer", 3); ("channel", 1); ("other-channel", 1)].
Proof. reflexivity. Qed.

Example bestPrefix_longest_match :
  bestPrefix "cust-vip-linear" ["project"; "cust"; "cust-vip"] = Some "cust-vip"
  /\ bestPrefix "cust-widgets-inc" ["project"; "cust"; "cust-vip"] = Some "cust"
  /\ bestPrefix "my-channel-name" ["project"; "cust"] = None
  /\ bestPrefix "my-channel" [] = None.
Proof. repeat split. Qed.

Example prefix_rule_matches :
  SidebarRule.applies (SidebarRule.PrefixSidebarRule "section-1" (Some "cust-")) "cust-widgets"
  = true
  /\ SidebarRule.applies (SidebarRule.PrefixSidebarRule "section-1" (Some "cust-")) "customer"
     = false
  /\ SidebarRule.applies (SidebarRule.PrefixSidebarRule "section-1" (Some "cust-")) "CUST-widgets"
     = false.
Proof. repeat split. Qed.

Example suffix_rule_matches :
  SidebarRule.applies (SidebarRule.SuffixSidebarRule "section-1" (Some "-project"))
                      "alpha-project" = true
  /\ SidebarRule.applies (SidebarRule.SuffixSidebarRule "section-1" (Some "-project"))
                         "alpha-project-beta" = false.
Proof. repeat split. Qed.

Example keyword_rule_matches :
  SidebarRule.applies (SidebarRule.KeywordSidebarRule "section-1" (Some "standup"))
                      "team-standup-daily" = true
  /\ SidebarRule.applies (SidebarRule.KeywordSidebarRule "section-1" (Some "standup"))
                         "team-meeting" = false
  /\ SidebarRule.applies (SidebarRule.KeywordSidebarRule "section-1" (Some ""))
                         "any-channel" = true.
Proof. repeat split. Qed.

(** [RateLimiter(2, 1000)] with a single caller on a clock at 0: two calls
    resolve at once, the third resolves at 1000. *)
Example limiter_third_call_waits :
  exists first second third,
    RateLimiter.wait 1 (RateLimiter.new 2 1000) 0 = Some (first, 0%Z)
    /\ RateLimiter.wait 1 first 0 = Some (second, 0%Z)
    /\ RateLimiter.wait 1 second 0 = None
    /\ RateLimiter.wait 2 second 0 = Some (third, 1000%Z)
    /\ RateLimiter.timestamps third = [1000%Z].
Proof. do 3 eexists. repeat split. Qed.

Example distribute_spills_in_order :
  map SidebarMove.toSidebarSectionId
      (distributeMovesAcrossSections
         [Sample.toPrimary "ch1"; Sample.toPrimary "ch2"; Sample.toPrimary "ch3"]
         [SidebarSection.mk "s1" "Test" (repeat "ch" 500);
          SidebarSection.mk "s2" "Test (2)" (repeat "ch" 499);
          SidebarSection.mk "s3" "Test (3)" []])
  = ["s2"; "s3"; "s3"].
Proof. vm_compute. reflexivity. Qed.

Example distribute_leaves_unplaced_moves :
  distributeMovesAcrossSections
    [Sample.toPrimary "ch1"; Sample.toPrimary "ch2"]
    [SidebarSection.mk "s1" "Test" (repeat "ch" 500)]
  = [Sample.toPrimary "ch1"; Sample.toPrimary "ch2"].
Proof. vm_compute. reflexivity. Qed.


(* ====================================================================== *)
(** * More on the rules and on [bestPrefix] *)
(* ====================================================================== *)

Lemma longestFirst_spec (best : string) (rest : list string) :
  exists before after,
    best :: rest = before ++ longestFirst best rest :: after
    /\ Forall (fun p => String.length p < String.length (longestFirst best rest)) before
    /\ Forall (fun p => String.length p <= String.length (longestFirst best rest)) after.
Proof.
  revert best. induction rest as [|p ps IH]; intros best; simpl.
  - exists [], []. repeat split; constructor.
  - destruct (Nat.ltb_spec (String.length best) (String.length p)) as [Hlt|Hge].
    + destruct (IH p) as (before & after & E & Hb & Ha).
      exists (best :: before), after. rewrite E. repeat split; auto.
      constructor; [|exact Hb].
      assert (Hp : String.length p <= String.length (longestFirst p ps)).
      { destruct before as [|x before]; simpl in E.
        - injection E as <- _. lia.
        - injection E as <- _. inversion Hb; subst. lia. }
      lia.
    + destruct (IH best) as (before & after & E & Hb & Ha).
      remember (longestFirst best ps) as r eqn:Er. clear Er IH.
      destruct before as [|x before]; simpl in E.
      * injection E as -> ->. exists [], (p :: after). simpl.
        repeat split; [constructor|]. constructor; [lia|exact Ha].
      * injection E as <- ->. exists (best :: p :: before), after. simpl.
        repeat split; auto.
        inversion Hb; subst. constructor; [assumption|]. constructor; [lia|assumption].
Qed.

(** X1.  [bestPrefix] returns none exactly when no candidate starts the
    name.  Otherwise it returns a candidate that starts the name and is at
    least as long as every other candidate that does; among several of that
    length it is the one that comes first in the list. *)
Theorem bestPrefix_longest_first (channelName : string) (prefixes : list string) :
  (bestPrefix channelName prefixes = None <->
   forall p, In p prefixes -> Js.startsWith channelName p = false)
  /\ (forall best,
         bestPrefix channelName prefixes = Some best ->
         In best prefixes
         /\ Js.startsWith channelName best = true
         /\ (forall p, In p prefixes -> Js.startsWith channelName p = true ->
                       String.length p <= String.length best)
         /\ exists before after,
             filter (fun p => Js.startsWith channelName p) prefixes
             = before ++ best :: after
             /\ Forall (fun p => String.length p < String.length best) before).
Proof.
  unfold bestPrefix. split.
  - destruct (filter _ prefixes) as [|m ms] eqn:E.
    + split; [|reflexivity]. intros _ p Hp.
      destruct (Js.startsWith channelName p) eqn:Ep; [|reflexivity].
      assert (H : In p (filter (fun p => Js.startsWith channelName p) prefixes))
        by (apply filter_In; auto).
      rewrite E in H. contradiction.
    + split; [discriminate|]. intros H.
      assert (Hm : In m (filter (fun p => Js.startsWith channelName p) prefixes))
        by (rewrite E; now left).
      apply filter_In in Hm as [Hin Hm]. rewrite (H m Hin) in Hm. discriminate.
  - intros best. destruct (filter _ prefixes) as [|m ms] eqn:E; [discriminate|].
    intros [= <-].
    destruct (longestFirst_spec m ms) as (before & after & Edec & Hb & Ha).
    assert (Hin : In (longestFirst m ms)
                     (filter (fun p => Js.startsWith channelName p) prefixes)).
    { rewrite E, Edec. apply in_or_app. right. now left. }
    apply filter_In in Hin as [Hin Hstart].
    split; [exact Hin|]. split; [exact Hstart|]. split.
    + intros p Hp Hs.
      assert (H : In p (m :: ms)) by (rewrite <- E; apply filter_In; auto).
      rewrite Edec in H. apply in_app_or in H as [H|[<-|H]].
      * rewrite Forall_forall in Hb. specialize (Hb p H). lia.
      * lia.
      * rewrite Forall_forall in Ha. exact (Ha p H).
    + exists before, after. split; [exact Edec|exact Hb].
Qed.

Lemma bestPrefix_longest_first_witness :
  bestPrefix "cust-vip-linear" ["project"; "cust"; "cust-vip"] = Some "cust-vip"
  /\ In "cust-vip" ["project"; "cust"; "cust-vip"]
  /\ Js.startsWith "cust-vip-linear" "cust-vip" = true.
Proof.
  assert (E : bestPrefix "cust-vip-linear" ["project"; "cust"; "cust-vip"]
              = Some "cust-vip") by reflexivity.
  destruct (proj2 (bestPrefix_longest_first "cust-vip-linear"
                     ["project"; "cust"; "cust-vip"]) _ E) as (Hin & Hs & _).
  split; [exact E|]. split; [exact Hin|exact Hs].
Defined.

(** X2.  What each kind of rule applies to: a prefix rule to the names that
    are its text followed by anything, a suffix rule to the names that are
    anything followed by its text, a keyword rule to the names that have its
    text somewhere.  So a keyword rule with the empty text applies to every
    name, and whatever a prefix or a suffix rule applies to, the keyword rule
    with the same text applies to as well. *)
Theorem rule_applies_by_kind (sidebarSectionId value channelName : string) :
  (SidebarRule.applies (SidebarRule.PrefixSidebarRule sidebarSectionId (Some value))
                       channelName = true
   <-> exists rest, channelName = (value ++ rest)%string)
  /\ (SidebarRule.applies (SidebarRule.SuffixSidebarRule sidebarSectionId (Some value))
                          channelName = true
      <-> exists front, channelName = (front ++ value)%string)
  /\ (SidebarRule.applies (SidebarRule.KeywordSidebarRule sidebarSectionId (Some value))
                          channelName = true
      <-> exists front back, channelName = (front ++ value ++ back)%string)
  /\ SidebarRule.applies (SidebarRule.KeywordSidebarRule sidebarSectionId (Some ""))
                         channelName = true
  /\ (SidebarRule.applies (SidebarRule.PrefixSidebarRule sidebarSectionId (Some value))
                          channelName = true ->
      SidebarRule.applies (SidebarRule.KeywordSidebarRule sidebarSectionId (Some value))
                          channelName = true)
  /\ (SidebarRule.applies (SidebarRule.SuffixSidebarRule sidebarSectionId (Some value))
                          channelName = true ->
      SidebarRule.applies (SidebarRule.KeywordSidebarRule sidebarSectionId (Some value))
                          channelName = true).
Proof.
  simpl. split; [apply startsWith_spec|]. split; [apply endsWith_spec|].
  split; [apply includes_spec|]. split; [|split].
  - apply includes_spec. now exists "", channelName.
  - rewrite startsWith_spec, includes_spec. intros [rest ->]. now exists "", rest.
  - rewrite endsWith_spec, includes_spec. intros [front ->]. exists front, "".
    f_equal. clear. induction value; simpl; [reflexivity|now f_equal].
Qed.

Lemma rule_applies_by_kind_witness :
  SidebarRule.applies (SidebarRule.PrefixSidebarRule "s1" (Some "cust-")) "cust-acme" = true
  /\ SidebarRule.applies (SidebarRule.KeywordSidebarRule "s1" (Some "cust-")) "cust-acme" = true.
Proof.
  assert (H : SidebarRule.applies (SidebarRule.PrefixSidebarRule "s1" (Some "cust-"))
                                  "cust-acme" = true) by reflexivity.
  split; [exact H|].
  exact (proj1 (proj2 (proj2 (proj2 (proj2 (rule_applies_by_kind "s1" "cust-" "cust-acme")))))
           H).
Defined.

(** X3.  A record that names a known type but lacks the field of that type
    is not refused: [fromJSON] builds the rule with an undefined text, and
    the string methods read that text as ["undefined"].  Such a rule neither
    throws nor matches nothing: it applies exactly to the names that start
    with, end with or contain the nine letters of ["undefined"]. *)
Theorem rule_without_text_matches_undefined
    (sidebarSectionId channelName : string) (json : RuleJSON.t) :
  (RuleJSON.type json = "prefix" -> RuleJSON.prefix json = None ->
   exists rule,
     SidebarRule.fromJSON sidebarSectionId json = Normal rule
     /\ (SidebarRule.applies rule channelName = true
         <-> exists rest, channelName = ("undefined" ++ rest)%string))
  /\ (RuleJSON.type json = "suffix" -> RuleJSON.suffix json = None ->
      exists rule,
        SidebarRule.fromJSON sidebarSectionId json = Normal rule
        /\ (SidebarRule.applies rule channelName = true
            <-> exists front, channelName = (front ++ "undefined")%string))
  /\ (RuleJSON.type json = "keyword" -> RuleJSON.keyword json = None ->
      exists rule,
        SidebarRule.fromJSON sidebarSectionId json = Normal rule
        /\ (SidebarRule.applies rule channelName = true
            <-> exists front back, channelName = (front ++ "undefined" ++ back)%string)).
Proof.
  unfold SidebarRule.fromJSON. repeat split.
  - intros -> ->. simpl. eexists. split; [reflexivity|]. simpl. apply startsWith_spec.
  - intros -> ->. simpl. eexists. split; [reflexivity|]. simpl. apply endsWith_spec.
  - intros -> ->. simpl. eexists. split; [reflexivity|]. simpl. apply includes_spec.
Qed.

Lemma rule_without_text_matches_undefined_witness :
  exists rule,
    SidebarRule.fromJSON "s1" (RuleJSON.mk "prefix" "s1" None None None) = Normal rule
    /\ (SidebarRule.applies rule "undefined-behaviour" = true
        <-> exists rest, "undefined-behaviour" = ("undefined" ++ rest)%string).
Proof.
  exact (proj1 (rule_without_text_matches_undefined "s1" "undefined-behaviour"
                  (RuleJSON.mk "prefix" "s1" None None None)) eq_refl eq_refl).
Defined.

(* ====================================================================== *)
(** * More on the pattern miner *)
(* ====================================================================== *)

Lemma string_app_assoc (a b c : string) : ((a ++ b) ++ c = a ++ (b ++ c))%string.
Proof. induction a as [|x a IH]; simpl; [reflexivity|now rewrite IH]. Qed.

Lemma string_app_length (a b : string) :
  String.length (a ++ b) = String.length a + String.length b.
Proof. induction a as [|x a IH]; simpl; [reflexivity|now rewrite IH]. Qed.

Section SplitJoin.

Variable sep : ascii.

Lemma split_app (a b : string) :
  Js.split sep (a ++ String sep b) = Js.split sep a ++ Js.split sep b.
Proof.
  induction a as [|c a IH]; simpl.
  - now rewrite Ascii.eqb_refl.
  - destruct (Ascii.eqb c sep); rewrite IH; [reflexivity|].
    pose proof (split_not_nil sep a) as Hne.
    destruct (Js.split sep a) as [|p ps]; [contradiction|reflexivity].
Qed.

Lemma join_app (X Y : list string) :
  X <> [] -> Y <> [] ->
  Js.join (Js.separator sep) (X ++ Y)
  = (Js.join (Js.separator sep) X ++ Js.separator sep ++ Js.join (Js.separator sep) Y)%string.
Proof.
  intros HX HY. induction X as [|x X IH]; [contradiction|].
  destruct X as [|x' X].
  - destruct Y as [|y Y]; [contradiction|]. reflexivity.
  - change ((x :: x' :: X) ++ Y) with (x :: (x' :: X) ++ Y).
    change ((x' :: X) ++ Y) with (x' :: X ++ Y) at 1.
    rewrite join_cons2. change (x' :: X ++ Y) with ((x' :: X) ++ Y).
    rewrite IH by discriminate. rewrite join_cons2.
    now rewrite !string_app_assoc.
Qed.

Lemma split_length_join (l : list string) :
  l <> [] -> Forall (fun p => occursIn sep p = false) l ->
  length (Js.split sep (Js.join (Js.separator sep) l)) = length l.
Proof. intros H1 H2. now rewrite split_join. Qed.

End SplitJoin.

Lemma firstn_clean {A} (P : A -> Prop) (n : nat) (l : list A) :
  Forall P l -> Forall P (firstn n l).
Proof.
  intros H. rewrite Forall_forall in *. intros x Hx. apply H.
  rewrite <- (firstn_skipn n l). apply in_or_app. now left.
Qed.

(** The segments of a name that take part are the first segments of the
    name itself. *)
Lemma firstn_segments (name : string) (len : nat) :
  len <= length (firstn 4 (removelast (Js.split Js.hyphen name))) ->
  firstn len (firstn 4 (removelast (Js.split Js.hyphen name)))
  = firstn len (Js.split Js.hyphen name)
  /\ len <= 4 /\ len < length (Js.split Js.hyphen name).
Proof.
  intros Hlen. rewrite length_firstn in Hlen.
  assert (Hparts : length (removelast (Js.split Js.hyphen name))
                   = pred (length (Js.split Js.hyphen name))).
  { rewrite removelast_firstn_len, length_firstn. lia. }
  pose proof (split_not_nil Js.hyphen name) as Hne.
  assert (0 < length (Js.split Js.hyphen name))
    by (destruct (Js.split Js.hyphen name); [contradiction|simpl; lia]).
  rewrite firstn_firstn, Nat.min_l by lia.
  rewrite firstn_removelast by lia. repeat split; lia.
Qed.

(** A candidate of a name: the name starts with the candidate and a hyphen,
    and the candidate has at most four segments. *)
Lemma leadingRuns_In (name k : string) :
  In k (leadingRuns name) <->
  length (Js.split Js.hyphen k) <= 4 /\ Js.startsWith name (k ++ "-") = true.
Proof.
  unfold leadingRuns. rewrite in_map_iff. split.
  - intros (len & <- & Hin). apply in_seq in Hin.
    destruct (firstn_segments name len) as (E & H4 & Hlt); [lia|].
    rewrite E.
    assert (Hclean : Forall (fun p => occursIn Js.hyphen p = false)
                            (firstn len (Js.split Js.hyphen name)))
      by apply firstn_clean, split_segments_clean.
    assert (Hne : firstn len (Js.split Js.hyphen name) <> []).
    { intros E0. apply (f_equal (@length string)) in E0.
      rewrite length_firstn in E0. simpl in E0. lia. }
    split.
    + change "-" with (Js.separator Js.hyphen).
      rewrite split_length_join, length_firstn by assumption. lia.
    + apply startsWith_spec.
      exists (Js.join "-" (skipn len (Js.split Js.hyphen name))).
      rewrite string_app_assoc.
      change "-" with (Js.separator Js.hyphen).
      rewrite <- join_app.
      * now rewrite firstn_skipn, join_split.
      * exact Hne.
      * intros E0. apply (f_equal (@length string)) in E0.
        rewrite length_skipn in E0. simpl in E0. lia.
  - intros [H4 Hstart]. apply startsWith_spec in Hstart as [rest ->].
    exists (length (Js.split Js.hyphen k)).
    rewrite string_app_assoc. simpl append.
    rewrite split_app.
    pose proof (split_not_nil Js.hyphen k) as Hk.
    pose proof (split_not_nil Js.hyphen rest) as Hrest.
    rewrite removelast_app by assumption.
    rewrite firstn_firstn.
    assert (Hpos : 0 < length (Js.split Js.hyphen k))
      by (destruct (Js.split Js.hyphen k); [contradiction|simpl; lia]).
    split.
    + rewrite Nat.min_l by lia.
      rewrite firstn_app, firstn_all, Nat.sub_diag. simpl. rewrite app_nil_r.
      change "-" with (Js.separator Js.hyphen). apply join_split.
    + apply in_seq. rewrite length_firstn, length_app. unfold Js.hyphen in *. lia.
Qed.

Lemma leadingRuns_NoDup (name : string) : NoDup (leadingRuns name).
Proof.
  unfold leadingRuns.
  apply NoDup_map_NoDup_ForallPairs; [|apply seq_NoDup].
  intros a b Ha Hb E. apply in_seq in Ha, Hb.
  destruct (firstn_segments name a) as (Ea & _ & Hla); [lia|].
  destruct (firstn_segments name b) as (Eb & _ & Hlb); [lia|].
  rewrite Ea, Eb in E.
  apply (f_equal (fun s => length (Js.split Js.hyphen s))) in E.
  change "-" with (Js.separator Js.hyphen) in E.
  rewrite !split_length_join, !length_firstn in E.
  - lia.
  - intros E0. apply (f_equal (@length string)) in E0.
    rewrite length_firstn in E0. simpl in E0. lia.
  - apply firstn_clean, split_segments_clean.
  - intros E0. apply (f_equal (@length string)) in E0.
    rewrite length_firstn in E0. simpl in E0. lia.
  - apply firstn_clean, split_segments_clean.
Qed.

Lemma count_occ_flat_map_NoDup {A} (f : A -> list string) (l : list A) (k : string) :
  (forall x, NoDup (f x)) ->
  count_occ string_dec (flat_map f l) k
  = length (filter (fun x => if in_dec string_dec k (f x) then true else false) l).
Proof.
  intros Hnd. induction l as [|x l IH]; simpl; [reflexivity|].
  rewrite count_occ_app, IH.
  destruct (in_dec string_dec k (f x)) as [Hin|Hout]; simpl.
  - pose proof (proj1 (NoDup_count_occ string_dec (f x)) (Hnd x) k).
    apply (count_occ_In string_dec) in Hin. lia.
  - apply (count_occ_not_In string_dec) in Hout. now rewrite Hout.
Qed.

Lemma filter_pointwise {A} (f g : A -> bool) (l : list A) :
  (forall x, f x = g x) -> filter f l = filter g l.
Proof.
  intros H. induction l as [|x l IH]; simpl; [reflexivity|]. now rewrite H, IH.
Qed.

Lemma occurrences_names (names : list string) (k : string) :
  occurrences k names =
  if Nat.leb (length (Js.split Js.hyphen k)) 4
  then length (filter (fun name => Js.startsWith name (k ++ "-")) names)
  else 0.
Proof.
  unfold occurrences.
  rewrite (count_occ_flat_map_NoDup leadingRuns names k leadingRuns_NoDup).
  destruct (Nat.leb_spec (length (Js.split Js.hyphen k)) 4) as [H4|H4].
  - f_equal. apply filter_pointwise. intros name.
    destruct (in_dec string_dec k (leadingRuns name)) as [Hin|Hout].
    + apply leadingRuns_In in Hin as [_ ->]. reflexivity.
    + destruct (Js.startsWith name (k ++ "-")) eqn:E; [|reflexivity].
      contradict Hout. apply leadingRuns_In. auto.
  - rewrite (filter_pointwise _ (fun _ => false)).
    + clear. now induction names.
    + intros name. destruct (in_dec string_dec k (leadingRuns name)) as [Hin|]; [|reflexivity].
      apply leadingRuns_In in Hin as [Hle _]. lia.
Qed.

Lemma getPrefixes_get_names (names : list string) (k : string) :
  JsMap.get k (getPrefixes names) =
  if Nat.leb (length (Js.split Js.hyphen k)) 4 then
    match length (filter (fun name => Js.startsWith name (k ++ "-")) names) with
    | O => None
    | S c => Some (S c)
    end
  else None.
Proof.
  rewrite getPrefixes_get, occurrences_names.
  now destruct (Nat.leb (length (Js.split Js.hyphen k)) 4).
Qed.

(** X4.  The count [getPrefixes] stores under a candidate of at most four
    segments is the number of names that start with the candidate followed
    by a hyphen; a candidate that no name starts so, and every candidate of
    more than four segments, has no entry. *)
Theorem getPrefixes_counts_names_with_prefix (names : list string) (k : string) :
  JsMap.get k (getPrefixes names) =
  if Nat.leb (length (Js.split Js.hyphen k)) 4 then
    match length (filter (fun name => Js.startsWith name (k ++ "-")) names) with
    | O => None
    | S c => Some (S c)
    end
  else None.
Proof.
  rewrite getPrefixes_get, occurrences_names.
  now destruct (Nat.leb (length (Js.split Js.hyphen k)) 4).
Qed.

Lemma leadingRuns_length (name : string) : length (leadingRuns name) <= 4.
Proof.
  unfold leadingRuns. rewrite length_map, length_seq, length_firstn. lia.
Qed.

Lemma flat_map_length_le {A B} (f : A -> list B) (l : list A) (c : nat) :
  (forall x, length (f x) <= c) -> length (flat_map f l) <= c * length l.
Proof.
  intros H. induction l as [|x l IH]; simpl; [lia|].
  rewrite length_app. specialize (H x). lia.
Qed.

(** X5.  [getPrefixes] keeps one entry per candidate: no key occurs twice,
    there are at most four entries per name, every count is at least 1 and
    at most the number of names, and every key, followed by a hyphen, starts
    at least one of the names. *)
Theorem getPrefixes_entries_bounded (names : list string) :
  NoDup (JsMap.keys (getPrefixes names))
  /\ JsMap.size (getPrefixes names) <= 4 * length names
  /\ (forall k count,
         JsMap.get k (getPrefixes names) = Some count ->
         1 <= count <= length names
         /\ exists name, In name names /\ Js.startsWith name (k ++ "-") = true).
Proof.
  split; [apply getPrefixes_NoDup|]. split.
  - unfold JsMap.size. rewrite <- (length_map fst).
    fold (JsMap.keys (getPrefixes names)).
    etransitivity;
      [|apply (flat_map_length_le leadingRuns names 4 leadingRuns_length)].
    apply NoDup_incl_length; [apply getPrefixes_NoDup|].
    intros k Hk.
    destruct (JsMap.get k (getPrefixes names)) as [c|] eqn:E.
    + rewrite getPrefixes_get in E. unfold occurrences in E.
      apply (count_occ_In string_dec).
      destruct (count_occ string_dec _ k); [discriminate|lia].
    + apply get_None_iff in E. contradiction.
  - intros k count E. rewrite getPrefixes_get_names in E.
    destruct (Nat.leb _ 4); [|discriminate].
    destruct (filter _ names) as [|name rest] eqn:Ef; [discriminate|].
    simpl in E. injection E as <-.
    split.
    + pose proof (filter_length_le (fun name => Js.startsWith name (k ++ "-")) names) as H.
      rewrite Ef in H. simpl in *. lia.
    + exists name.
      assert (H : In name (filter (fun name => Js.startsWith name (k ++ "-")) names))
        by (rewrite Ef; now left).
      now apply filter_In in H.
Qed.

Lemma getPrefixes_entries_bounded_witness :
  JsMap.get "customer" (getPrefixes ["customer-a"; "customer-b"; "something"]) = Some 2
  /\ 1 <= 2 <= length ["customer-a"; "customer-b"; "something"].
Proof.
  assert (E : JsMap.get "customer" (getPrefixes ["customer-a"; "customer-b"; "something"])
              = Some 2) by reflexivity.
  split; [exact E|].
  exact (proj1 (proj2 (proj2 (getPrefixes_entries_bounded
                                ["customer-a"; "customer-b"; "something"])) _ _ E)).
Defined.

Lemma getSuffixes_entries (names : list string) :
  getSuffixes names = reverseKeyed (getPrefixes (map mirror names)).
Proof.
  unfold getSuffixes, reverseKeyed.
  rewrite (replay_renamed mirror).
  - reflexivity.
  - exact mirror_injective.
  - apply getPrefixes_NoDup.
  - intros k _ [].
Qed.

Lemma mirror_app (a b : string) :
  mirror (a ++ String Js.hyphen b) = (mirror b ++ "-" ++ mirror a)%string.
Proof.
  unfold mirror. rewrite split_app, rev_app_distr.
  change "-" with (Js.separator Js.hyphen).
  apply join_app; intros E; apply (f_equal (@rev string)) in E;
    rewrite rev_involutive in E; simpl in E; now apply split_not_nil in E.
Qed.

Lemma mirror_segments (k : string) :
  length (Js.split Js.hyphen (mirror k)) = length (Js.split Js.hyphen k).
Proof.
  unfold mirror. change "-" with (Js.separator Js.hyphen).
  rewrite split_length_join, length_rev; [reflexivity| |].
  - intros E. apply (f_equal (@rev string)) in E.
    rewrite rev_involutive in E. simpl in E. now apply split_not_nil in E.
  - apply Forall_rev, split_segments_clean.
Qed.

Lemma mirror_startsWith (name k : string) :
  Js.startsWith (mirror name) (mirror k ++ "-") = Js.endsWith name ("-" ++ k).
Proof.
  apply eq_true_iff_eq. rewrite startsWith_spec, endsWith_spec. split.
  - intros [rest E]. exists (mirror rest).
    rewrite <- (mirror_involutive name), E, string_app_assoc.
    change ("-" ++ rest)%string with (String Js.hyphen rest).
    rewrite mirror_app, mirror_involutive. reflexivity.
  - intros [front ->]. exists (mirror front).
    change ("-" ++ k)%string with (String Js.hyphen k).
    rewrite mirror_app, string_app_assoc. reflexivity.
Qed.

Lemma getSuffixes_get_names (names : list string) (k : string) :
  JsMap.get k (getSuffixes names) =
  if Nat.leb (length (Js.split Js.hyphen k)) 4 then
    match length (filter (fun name => Js.endsWith name ("-" ++ k)) names) with
    | O => None
    | S c => Some (S c)
    end
  else None.
Proof.
  rewrite getSuffixes_entries. unfold reverseKeyed.
  rewrite <- (mirror_involutive k) at 1.
  rewrite (get_renamed mirror _ _ mirror_injective).
  rewrite getPrefixes_get_names, mirror_segments.
  destruct (Nat.leb _ 4); [|reflexivity].
  rewrite filter_map_swap, length_map.
  rewrite (filter_pointwise _ (fun name => Js.endsWith name ("-" ++ k))); [reflexivity|].
  intros name. apply mirror_startsWith.
Qed.

(** X6.  The count [getSuffixes] stores under a candidate of at most four
    segments is the number of names that end with a hyphen followed by the
    candidate; a candidate that no name ends so, and every candidate of more
    than four segments, has no entry. *)
Theorem getSuffixes_counts_names_with_suffix (names : list string) (k : string) :
  JsMap.get k (getSuffixes names) =
  if Nat.leb (length (Js.split Js.hyphen k)) 4 then
    match length (filter (fun name => Js.endsWith name ("-" ++ k)) names) with
    | O => None
    | S c => Some (S c)
    end
  else None.
Proof.
  rewrite getSuffixes_entries. unfold reverseKeyed.
  rewrite <- (mirror_involutive k) at 1.
  rewrite (get_renamed mirror _ _ mirror_injective).
  rewrite getPrefixes_get_names, mirror_segments.
  destruct (Nat.leb _ 4); [|reflexivity].
  rewrite filter_map_swap, length_map.
  rewrite (filter_pointwise _ (fun name => Js.endsWith name ("-" ++ k))); [reflexivity|].
  intros name. apply mirror_startsWith.
Qed.

Lemma getSuffixes_NoDup (names : list string) : NoDup (JsMap.keys (getSuffixes names)).
Proof.
  rewrite getSuffixes_entries. unfold reverseKeyed, JsMap.keys.
  rewrite map_map. cbn [fst].
  rewrite <- (map_map fst mirror).
  pose proof (getPrefixes_NoDup (map mirror names)) as Hnd.
  unfold JsMap.keys in Hnd. induction Hnd as [|k ks Hk Hnd IH]; simpl; constructor.
  - rewrite in_map_iff. intros (k' & E & Hk'). apply mirror_injective in E.
    now subst k'.
  - exact IH.
Qed.

(* ====================================================================== *)
(** * More on the rate limiter *)
(* ====================================================================== *)

Lemma wait_unfold (fuel : nat) (rl : RateLimiter.t) (now : Z) :
  RateLimiter.wait (S fuel) rl now =
  let kept := RateLimiter.prune rl now in
  let rl' := RateLimiter.mk (RateLimiter.limit rl) (RateLimiter.intervalMs rl) kept in
  if (RateLimiter.limit rl <=? Z.of_nat (length kept))%Z then
    match kept with
    | [] => RateLimiter.wait fuel rl' now
    | oldest :: _ =>
        let waitTime := (oldest + RateLimiter.intervalMs rl - now)%Z in
        if (0 <? waitTime)%Z then RateLimiter.wait fuel rl' (now + waitTime)%Z
        else RateLimiter.wait fuel rl' now
    end
  else Some (RateLimiter.mk (RateLimiter.limit rl) (RateLimiter.intervalMs rl)
                            (kept ++ [now]), now).
Proof. reflexivity. Qed.

(** X7.  With a limit of at least one, a call of [wait] by a single caller
    resolves, and not before it was made.  When fewer than [limit] recorded
    timestamps are younger than the interval it resolves at once and records
    the time of the call after the timestamps it retains; otherwise it
    resolves no earlier than one interval after the oldest retained
    timestamp.  The limit and the interval are never changed. *)
Theorem wait_resolves_in_time (rl : RateLimiter.t) (now : Z) :
  (1 <= RateLimiter.limit rl)%Z ->
  exists rl' now',
    RateLimiter.wait (RateLimiter.enough rl) rl now = Some (rl', now')
    /\ (now <= now')%Z
    /\ RateLimiter.limit rl' = RateLimiter.limit rl
    /\ RateLimiter.intervalMs rl' = RateLimiter.intervalMs rl
    /\ ((Z.of_nat (length (RateLimiter.prune rl now)) < RateLimiter.limit rl)%Z ->
        now' = now
        /\ RateLimiter.timestamps rl' = RateLimiter.prune rl now ++ [now])
    /\ (forall oldest rest,
           (RateLimiter.limit rl <= Z.of_nat (length (RateLimiter.prune rl now)))%Z ->
           RateLimiter.prune rl now = oldest :: rest ->
           (oldest + RateLimiter.intervalMs rl <= now')%Z).
Proof.
  intros Hlim. unfold RateLimiter.enough. rewrite wait_unfold. cbv zeta.
  pose proof (prune_length rl now) as Hlen.
  destruct (Z.leb_spec (RateLimiter.limit rl)
              (Z.of_nat (length (RateLimiter.prune rl now)))) as [Hfull|Hfree].
  - destruct (RateLimiter.prune rl now) as [|oldest rest] eqn:Ekept;
      [simpl in Hfull; lia|].
    assert (Hyoung : (now - oldest < RateLimiter.intervalMs rl)%Z).
    { apply prune_young. rewrite Ekept. now left. }
    destruct (Z.ltb_spec 0 (oldest + RateLimiter.intervalMs rl - now)) as [_|Hle];
      [|lia].
    set (rl1 := RateLimiter.mk _ _ _).
    destruct (wait_resolves (length (RateLimiter.timestamps rl)) rl1
                (now + (oldest + RateLimiter.intervalMs rl - now))%Z)
      as (rl' & now' & E & Hl & Hi & Hn).
    + exact Hlim.
    + unfold RateLimiter.prune, rl1. simpl.
      replace (now + (oldest + RateLimiter.intervalMs rl - now) - oldest)%Z
        with (RateLimiter.intervalMs rl) by lia.
      rewrite Z.ltb_irrefl.
      eapply Nat.le_lt_trans; [apply filter_length_le|]. simpl in Hlen. lia.
    + exists rl', now'. rewrite E. repeat split; auto; try lia.
      intros oldest' rest' _ [= <- <-]. lia.
  - eexists _, _. split; [reflexivity|]. repeat split; auto; try lia.
Qed.

Lemma wait_resolves_in_time_witness :
  (1 <= RateLimiter.limit (RateLimiter.mk 2 1000 [0; 400]%Z))%Z
  /\ exists rl' now',
      RateLimiter.wait (RateLimiter.enough (RateLimiter.mk 2 1000 [0; 400]%Z))
                       (RateLimiter.mk 2 1000 [0; 400]%Z) 500
      = Some (rl', now')
      /\ (500 <= now')%Z.
Proof.
  assert (H : (1 <= RateLimiter.limit (RateLimiter.mk 2 1000 [0; 400]%Z))%Z)
    by (simpl; lia).
  split; [exact H|].
  destruct (wait_resolves_in_time (RateLimiter.mk 2 1000 [0; 400]%Z) 500 H)
    as (rl' & now' & E & Hn & _).
  exists rl', now'. split; [exact E|exact Hn].
Defined.

(** X8.  With a limit of zero or less no call of [wait] ever resolves:
    however often the call is retried, the window is never found with room. *)
Theorem wait_never_resolves_without_limit (fuel : nat) (rl : RateLimiter.t) (now : Z) :
  (RateLimiter.limit rl <= 0)%Z -> RateLimiter.wait fuel rl now = None.
Proof.
  revert rl now. induction fuel as [|fuel IH]; intros rl now Hlim; [reflexivity|].
  rewrite wait_unfold. cbv zeta.
  destruct (Z.leb_spec (RateLimiter.limit rl)
              (Z.of_nat (length (RateLimiter.prune rl now)))) as [_|Hfree]; [|lia].
  destruct (RateLimiter.prune rl now) as [|oldest rest]; [now apply IH|].
  destruct (0 <? oldest + RateLimiter.intervalMs rl - now)%Z; now apply IH.
Qed.

Lemma wait_never_resolves_without_limit_witness :
  (RateLimiter.limit (RateLimiter.new 0 1000) <= 0)%Z
  /\ RateLimiter.wait 50 (RateLimiter.new 0 1000) 0 = None.
Proof.
  assert (H : (RateLimiter.limit (RateLimiter.new 0 1000) <= 0)%Z) by (simpl; lia).
  split; [exact H|].
  exact (wait_never_resolves_without_limit 50 (RateLimiter.new 0 1000) 0%Z H).
Defined.

(** ** The rate over a sequence of calls *)

Lemma filter_sorted_suffix (now I : Z) (l : list Z) :
  StronglySorted Z.le l ->
  exists d, l = d ++ filter (fun t => (now - t <? I)%Z) l
            /\ Forall (fun t => (I <= now - t)%Z) d.
Proof.
  induction 1 as [|t l Hs IH Hall]; [exists []; split; [reflexivity|constructor]|].
  simpl. destruct (Z.ltb_spec (now - t) I) as [Hlt|Hge].
  - exists []. split; [|constructor]. simpl. f_equal.
    symmetry. apply forallb_filter_id. apply forallb_forall. intros x Hx.
    apply Z.ltb_lt. rewrite Forall_forall in Hall. specialize (Hall x Hx). lia.
  - destruct IH as (d & E & Hd). exists (t :: d). split.
    + simpl. now f_equal.
    + constructor; assumption.
Qed.

Lemma In_front (A : Type) (pre mid d k : list A) (a : A) :
  pre ++ a :: mid = d ++ k -> length k <= length mid -> In a d.
Proof.
  revert pre. induction d as [|x d IH]; intros pre E Hlen.
  - simpl in E. subst k. rewrite length_app in Hlen. simpl in Hlen. lia.
  - destruct pre as [|y pre]; simpl in E; injection E as -> E.
    + now left.
    + right. eapply IH; eauto.
Qed.

Lemma StronglySorted_snoc (l : list Z) (n : Z) :
  StronglySorted Z.le l -> Forall (fun t => (t <= n)%Z) l ->
  StronglySorted Z.le (l ++ [n]).
Proof.
  induction 1 as [|t l Hs IH Hall]; intros Hn; simpl.
  - repeat constructor.
  - inversion Hn as [|? ? Ht Hn']; subst. constructor; [now apply IH|].
    apply Forall_app. split; [assumption|]. now repeat constructor.
Qed.

Lemma history_later (L I : Z) (hist : list Z) (rl : RateLimiter.t) (now n : Z) :
  limiterHistory L I hist rl now -> (now <= n)%Z -> limiterHistory L I hist rl n.
Proof.
  intros (Hl & Hi & (d & E & Hd) & Hs & Hle & Hsp) Hn.
  repeat split; auto.
  - exists d. split; [assumption|].
    eapply Forall_impl; [|exact Hd]. simpl. intros; lia.
  - eapply Forall_impl; [|exact Hle]. simpl. intros; lia.
Qed.

Lemma history_prune (L I : Z) (hist : list Z) (rl : RateLimiter.t) (now : Z) :
  limiterHistory L I hist rl now ->
  limiterHistory L I hist
    (RateLimiter.mk (RateLimiter.limit rl) (RateLimiter.intervalMs rl)
                    (RateLimiter.prune rl now)) now.
Proof.
  intros (Hl & Hi & (d & E & Hd) & Hs & Hle & Hsp).
  repeat split; auto. simpl.
  assert (Hts : StronglySorted Z.le (RateLimiter.timestamps rl)).
  { rewrite E in Hs. clear -Hs. induction d as [|x d IH]; [exact Hs|].
    simpl in Hs. inversion Hs; subst. now apply IH. }
  destruct (filter_sorted_suffix now I _ Hts) as (d2 & E2 & Hd2).
  exists (d ++ d2). split.
  - unfold RateLimiter.prune. rewrite Hi, <- app_assoc, <- E2. exact E.
  - apply Forall_app. now split.
Qed.

Lemma spaced_snoc (L I : Z) (d k : list Z) (n : Z) :
  spaced L I (d ++ k) ->
  Forall (fun t => (I <= n - t)%Z) d ->
  (Z.of_nat (length k) < L)%Z ->
  spaced L I ((d ++ k) ++ [n]).
Proof.
  intros Hsp Hd Hk pre a mid b post E Hmid.
  destruct post as [|p post' _] using rev_ind.
  -     replace (pre ++ a :: mid ++ [b]) with ((pre ++ a :: mid) ++ [b]) in E
      by (rewrite <- app_assoc; reflexivity).
    apply app_inj_tail in E. destruct E as [E ->].
    assert (Ha : In a d).
    { eapply In_front; [symmetry; exact E|]. lia. }
    rewrite Forall_forall in Hd. now apply Hd.
  - replace (pre ++ a :: mid ++ b :: post' ++ [p])
      with ((pre ++ a :: mid ++ b :: post') ++ [p]) in E
      by (rewrite <- app_assoc; simpl; rewrite <- app_assoc; reflexivity).
    apply app_inj_tail in E. destruct E as [E _].
    eapply Hsp; eauto.
Qed.

Lemma wait_keeps_history (L I : Z) (fuel : nat) :
  forall (hist : list Z) (rl rl' : RateLimiter.t) (now now' : Z),
    limiterHistory L I hist rl now ->
    RateLimiter.wait fuel rl now = Some (rl', now') ->
    limiterHistory L I (hist ++ [now']) rl' now' /\ (now <= now')%Z.
Proof.
  induction fuel as [|fuel IH]; intros hist rl rl' now now' H E; [discriminate|].
  rewrite wait_unfold in E. cbv zeta in E.
  pose proof (history_prune L I hist rl now H) as H1.
  set (rl1 := RateLimiter.mk _ _ _) in *.
  destruct (Z.leb_spec (RateLimiter.limit rl)
              (Z.of_nat (length (RateLimiter.prune rl now)))) as [Hfull|Hfree].
  - assert (Hrec : forall n, (now <= n)%Z ->
                     RateLimiter.wait fuel rl1 n = Some (rl', now') ->
                     limiterHistory L I (hist ++ [now']) rl' now' /\ (now <= now')%Z).
    { intros n Hn En.
      destruct (IH hist rl1 rl' n now' (history_later _ _ _ _ _ _ H1 Hn) En).
      split; [assumption|lia]. }
    destruct (RateLimiter.prune rl now) as [|oldest rest].
    + apply (Hrec now); [lia|exact E].
    + destruct (Z.ltb_spec 0 (oldest + RateLimiter.intervalMs rl - now)) as [Hpos|Hneg].
      * eapply Hrec; [|exact E]. lia.
      * apply (Hrec now); [lia|exact E].
  - injection E as <- <-. split; [|lia].
    destruct H1 as (Hl & Hi & (d & Ed & Hd) & Hs & Hle & Hsp).
    simpl in Hl, Hi, Ed.
    repeat split; auto.
    + exists d. simpl. split.
      * rewrite Ed, app_assoc. reflexivity.
      * exact Hd.
    + now apply StronglySorted_snoc.
    + apply Forall_app. split; [assumption|]. repeat constructor. lia.
    + rewrite Ed. apply spaced_snoc; [now rewrite <- Ed|exact Hd|lia].
Qed.

Lemma admissions_history (L I : Z) (gaps : list Z) :
  (1 <= L)%Z ->
  Forall (fun gap => (0 <= gap)%Z) gaps ->
  forall (hist : list Z) (rl : RateLimiter.t) (now : Z),
    limiterHistory L I hist rl now ->
    exists times rl' now',
      admissions gaps rl now = Some times
      /\ length times = length gaps
      /\ limiterHistory L I (hist ++ times) rl' now'.
Proof.
  intros HL. induction 1 as [|gap gaps Hgap Hgaps IH]; intros hist rl now H.
  - exists [], rl, now. rewrite app_nil_r. split; [reflexivity|]. split; [reflexivity|exact H].
  - cbn [admissions].
    assert (Hlim : (1 <= RateLimiter.limit rl)%Z) by (destruct H as (-> & _); exact HL).
    destruct (wait_enough rl (now + gap)%Z Hlim) as (rl1 & now1 & E & _).
    rewrite E.
    assert (H0 : limiterHistory L I hist rl (now + gap)%Z)
      by (eapply history_later; [exact H|lia]).
    destruct (wait_keeps_history L I _ hist rl rl1 _ now1 H0 E) as [H1 _].
    destruct (IH _ _ _ H1) as (times & rl' & now' & Et & Hlen & Hh).
    rewrite Et. exists (now1 :: times), rl', now'.
    split; [reflexivity|]. split; [simpl; now f_equal|].
    rewrite <- app_assoc in Hh. exact Hh.
Qed.

Lemma new_history (L I now : Z) : limiterHistory L I [] (RateLimiter.new L I) now.
Proof.
  repeat split; simpl; auto.
  - exists []. split; [reflexivity|constructor].
  - constructor.
  - intros pre a mid b post E. destruct pre; discriminate.
Qed.

(** X9.  The rate the limiter enforces on a single caller.  When a caller
    makes its calls of [wait] one after the other on a fresh limiter with a
    limit of at least one, every call resolves, the calls resolve in order,
    and any two resolutions with at least [limit - 1] resolutions between
    them are at least [intervalMs] apart: no more than [limit] calls resolve
    within any span shorter than the interval. *)
Theorem sequential_calls_respect_rate (limit intervalMs start : Z) (gaps : list Z) :
  (1 <= limit)%Z ->
  Forall (fun gap => (0 <= gap)%Z) gaps ->
  exists times,
    admissions gaps (RateLimiter.new limit intervalMs) start = Some times
    /\ length times = length gaps
    /\ StronglySorted Z.le times
    /\ Forall (fun t => (start <= t)%Z) times
    /\ spaced limit intervalMs times.
Proof.
  intros HL Hgaps.
  destruct (admissions_history limit intervalMs gaps HL Hgaps []
              (RateLimiter.new limit intervalMs) start (new_history _ _ _))
    as (times & rl' & now' & E & Hlen & Hh).
  simpl in Hh. destruct Hh as (_ & _ & _ & Hs & _ & Hsp).
  exists times. repeat split; auto.
  clear Hlen Hs Hsp. revert E. generalize (RateLimiter.new limit intervalMs).
  revert start times.
  induction Hgaps as [|gap gaps Hgap Hgaps IH]; intros start times rl E;
    cbn [admissions] in E.
  - injection E as <-. constructor.
  - destruct (RateLimiter.wait (RateLimiter.enough rl) rl (start + gap)%Z)
      as [[rl1 now1]|] eqn:Ew; [|discriminate].
    destruct (admissions gaps rl1 now1) as [ts|] eqn:Ea; [|discriminate].
    injection E as <-.
    assert (Hn : (start + gap <= now1)%Z).
    { revert Ew. generalize (RateLimiter.enough rl). intros fuel. revert rl.
      generalize (start + gap)%Z. induction fuel as [|fuel IHf]; intros n rl Ew;
        [discriminate|].
      rewrite wait_unfold in Ew. cbv zeta in Ew.
      destruct (RateLimiter.limit rl <=? _)%Z.
      - destruct (RateLimiter.prune rl n) as [|oldest rest].
        + now apply IHf in Ew.
        + destruct (Z.ltb_spec 0 (oldest + RateLimiter.intervalMs rl - n)).
          * apply IHf in Ew. lia.
          * now apply IHf in Ew.
      - injection Ew as _ <-. lia. }
    constructor; [lia|].
    eapply Forall_impl; [|eapply IH; exact Ea]. simpl. intros; lia.
Qed.

Lemma sequential_calls_respect_rate_witness :
  ((1 <= 2)%Z /\ Forall (fun gap => (0 <= gap)%Z) [0; 0; 0; 700; 0]%Z)
  /\ exists times,
      admissions [0; 0; 0; 700; 0]%Z (RateLimiter.new 2 1000) 0 = Some times
      /\ spaced 2 1000 times.
Proof.
  assert (H1 : (1 <= 2)%Z) by lia.
  assert (H2 : Forall (fun gap => (0 <= gap)%Z) [0; 0; 0; 700; 0]%Z)
    by (repeat constructor; lia).
  split; [split; [exact H1|exact H2]|].
  destruct (sequential_calls_respect_rate 2 1000 0 [0; 0; 0; 700; 0]%Z H1 H2)
    as (times & E & _ & _ & _ & Hsp).
  exists times. split; [exact E|exact Hsp].
Defined.

(* ====================================================================== *)
(** * The channel index of [main] *)
(* ====================================================================== *)

Lemma find_snoc {A} (f : A -> bool) (l : list A) (x : A) :
  find f (l ++ [x]) =
  match find f l with
  | Some y => Some y
  | None => if f x then Some x else None
  end.
Proof.
  induction l as [|a l IH]; simpl; [reflexivity|]. now destruct (f a).
Qed.

Lemma keys_set_In {V} (k k' : string) (v : V) (m : JsMap.t V) :
  In k (JsMap.keys (JsMap.set k' v m)) <-> k = k' \/ In k (JsMap.keys m).
Proof.
  induction m as [|[k0 v0] m IH]; simpl.
  - split; [intros [<-|[]]; now left | intros [->|[]]; now left].
  - destruct (String.eqb_spec k0 k') as [->|Hne]; simpl.
    + split; [tauto|]. intros [->|H]; [now left|exact H].
    + rewrite IH. tauto.
Qed.

Lemma set_size {V} (k : string) (v : V) (m : JsMap.t V) :
  JsMap.size m <= JsMap.size (JsMap.set k v m) <= S (JsMap.size m).
Proof.
  unfold JsMap.size. induction m as [|[k0 v0] m IH]; simpl; [lia|].
  destruct (String.eqb k0 k); simpl; lia.
Qed.

Lemma indexFrom_get (id : string) (cs : list ChannelJSON.t) (m : JsMap.t ChannelJSON.t) :
  JsMap.get id
    (fold_left (fun channels c => JsMap.set (ChannelJSON.id c) c channels) cs m) =
  match find (fun c => String.eqb (ChannelJSON.id c) id) (rev cs) with
  | Some c => Some c
  | None => JsMap.get id m
  end.
Proof.
  revert m. induction cs as [|c cs IH]; intros m; simpl; [reflexivity|].
  rewrite IH, find_snoc.
  destruct (find _ (rev cs)); [reflexivity|].
  destruct (String.eqb_spec (ChannelJSON.id c) id) as [<-|Hne].
  - apply get_set_same.
  - now apply get_set_other.
Qed.

Lemma indexFrom_keys (k : string) (cs : list ChannelJSON.t) (m : JsMap.t ChannelJSON.t) :
  In k (JsMap.keys
          (fold_left (fun channels c => JsMap.set (ChannelJSON.id c) c channels) cs m))
  <-> In k (JsMap.keys m) \/ In k (map ChannelJSON.id cs).
Proof.
  revert m. induction cs as [|c cs IH]; intros m; simpl; [tauto|].
  rewrite IH, keys_set_In. intuition congruence.
Qed.

Lemma indexFrom_NoDup (cs : list ChannelJSON.t) (m : JsMap.t ChannelJSON.t) :
  NoDup (JsMap.keys m) ->
  NoDup (JsMap.keys
           (fold_left (fun channels c => JsMap.set (ChannelJSON.id c) c channels) cs m)).
Proof.
  revert m. induction cs as [|c cs IH]; intros m H; simpl; [exact H|].
  now apply IH, keys_set_NoDup.
Qed.

Lemma indexFrom_size (cs : list ChannelJSON.t) (m : JsMap.t ChannelJSON.t) :
  JsMap.size
    (fold_left (fun channels c => JsMap.set (ChannelJSON.id c) c channels) cs m)
  <= JsMap.size m + length cs.
Proof.
  revert m. induction cs as [|c cs IH]; intros m; simpl; [lia|].
  specialize (IH (JsMap.set (ChannelJSON.id c) c m)).
  pose proof (set_size (ChannelJSON.id c) c m). lia.
Qed.

Lemma indexFrom_distinct (cs : list ChannelJSON.t) (m : JsMap.t ChannelJSON.t) :
  NoDup (map ChannelJSON.id cs) ->
  (forall k, In k (map ChannelJSON.id cs) -> ~ In k (JsMap.keys m)) ->
  fold_left (fun channels c => JsMap.set (ChannelJSON.id c) c channels) cs m
  = m ++ map (fun c => (ChannelJSON.id c, c)) cs.
Proof.
  revert m. induction cs as [|c cs IH]; intros m Hnd Hfresh; simpl.
  - now rewrite app_nil_r.
  - inversion Hnd as [|? ? Hc Hcs]; subst.
    rewrite (set_fresh (ChannelJSON.id c) c m) by (apply Hfresh; now left).
    rewrite IH; [now rewrite <- app_assoc | assumption |].
    intros k Hk. unfold JsMap.keys. rewrite map_app, in_app_iff. simpl.
    intros [H|[<-|[]]]; [|contradiction].
    apply (Hfresh k); [now right|exact H].
Qed.

(** X10.  The channel index that [main] builds with [channels.set(c.id, c)].
    Looking an id up gives the last of the member channels with that id (so
    a channel listed twice is kept once, with the later record), and nothing
    for an id no member channel has; the keys are distinct and are exactly the
    ids of the member channels; the index is never larger than the list; and
    when the ids of the member channels are distinct, the entries are the
    member channels in their order. *)
Theorem indexChannels_keeps_last_per_id (memberChannels : list ChannelJSON.t) :
  (forall id,
      JsMap.get id (indexChannels memberChannels)
      = find (fun c => String.eqb (ChannelJSON.id c) id) (rev memberChannels))
  /\ NoDup (JsMap.keys (indexChannels memberChannels))
  /\ (forall id, In id (JsMap.keys (indexChannels memberChannels))
                 <-> In id (map ChannelJSON.id memberChannels))
  /\ JsMap.size (indexChannels memberChannels) <= length memberChannels
  /\ (NoDup (map ChannelJSON.id memberChannels) ->
      indexChannels memberChannels
      = map (fun c => (ChannelJSON.id c, c)) memberChannels).
Proof.
  unfold indexChannels. repeat split.
  - intros id. rewrite indexFrom_get. now destruct (find _ _).
  - apply indexFrom_NoDup. constructor.
  - rewrite indexFrom_keys. simpl. tauto.
  - rewrite indexFrom_keys. simpl. tauto.
  - apply (indexFrom_size memberChannels JsMap.empty).
  - intros Hnd. rewrite indexFrom_distinct; auto.
Qed.

Lemma indexChannels_keeps_last_per_id_witness :
  NoDup (map ChannelJSON.id
           [ChannelJSON.mk "C1" "cust-acme" true true;
            ChannelJSON.mk "C2" "team-web" true true])
  /\ indexChannels [ChannelJSON.mk "C1" "cust-acme" true true;
                    ChannelJSON.mk "C2" "team-web" true true]
     = [("C1", ChannelJSON.mk "C1" "cust-acme" true true);
        ("C2", ChannelJSON.mk "C2" "team-web" true true)].
Proof.
  assert (H : NoDup (map ChannelJSON.id
                       [ChannelJSON.mk "C1" "cust-acme" true true;
                        ChannelJSON.mk "C2" "team-web" true true])).
  { simpl. repeat constructor; simpl; intuition discriminate. }
  split; [exact H|].
  exact (proj2 (proj2 (proj2 (proj2 (indexChannels_keeps_last_per_id _)))) H).
Defined.

(* ====================================================================== *)
(** * The planning loop as a whole *)
(* ====================================================================== *)

Section Planning.

Variable sidebarSections : list SidebarSection.t.
Variable sidebarRules : list SidebarRule.t.

(** What one iteration does does not depend on what the loop has built. *)
Lemma planChannel_acc (acc : nat * list SidebarMove.t) (entry : string * ChannelJSON.t) :
  planChannel sidebarSections sidebarRules acc entry =
  (fst acc + fst (planChannel sidebarSections sidebarRules (0, []) entry),
   snd acc ++ snd (planChannel sidebarSections sidebarRules (0, []) entry)).
Proof.
  destruct acc as [n ms], entry as [channelId channel]. unfold planChannel.
  destruct (findRule _ _) as [rule|]; [|simpl; now rewrite Nat.add_0_r, app_nil_r].
  destruct (getSidebarSection _ _) as [to|]; [|simpl; now rewrite app_nil_r].
  destruct (SidebarSection.includesChannel to channelId);
    simpl; now rewrite ?app_nil_r.
Qed.

Lemma calculateMoves_from (acc : nat * list SidebarMove.t) (channels : JsMap.t ChannelJSON.t) :
  fold_left (planChannel sidebarSections sidebarRules) channels acc =
  (fst acc
   + list_sum (map (fun e => fst (planChannel sidebarSections sidebarRules (0, []) e))
                   channels),
   snd acc
   ++ flat_map (fun e => snd (planChannel sidebarSections sidebarRules (0, []) e))
               channels).
Proof.
  revert acc. induction channels as [|e channels IH]; intros acc; simpl.
  - rewrite Nat.add_0_r, app_nil_r. now destruct acc.
  - rewrite IH, planChannel_acc. simpl. rewrite <- app_assoc. f_equal. lia.
Qed.

(** The move, if any, that one channel gives rise to. *)
Lemma planChannel_one (channelId : string) (channel : ChannelJSON.t) :
  planChannel sidebarSections sidebarRules (0, []) (channelId, channel) =
  match findRule sidebarRules (ChannelJSON.name channel) with
  | None => (0, [])
  | Some rule =>
      match getSidebarSection sidebarSections (SidebarRule.sidebarSectionId rule) with
      | None => (1, [])
      | Some to =>
          if SidebarSection.includesChannel to channelId then (1, [])
          else (1, [SidebarMove.mk channelId
                      (idOrNull (holder sidebarSections channelId))
                      (SidebarSection.id to)])
      end
  end.
Proof.
  unfold planChannel, holder.
  destruct (findRule _ _) as [rule|]; [|reflexivity].
  destruct (getSidebarSection _ _) as [to|]; [|reflexivity].
  now destruct (SidebarSection.includesChannel to channelId).
Qed.

Lemma planChannel_ids (e : string * ChannelJSON.t) :
  map SidebarMove.channelId (snd (planChannel sidebarSections sidebarRules (0, []) e))
  = [] \/
  map SidebarMove.channelId (snd (planChannel sidebarSections sidebarRules (0, []) e))
  = [fst e].
Proof.
  destruct e as [channelId channel]. rewrite planChannel_one.
  destruct (findRule _ _) as [rule|]; [|now left].
  destruct (getSidebarSection _ _) as [to|]; [|now left].
  destruct (SidebarSection.includesChannel to channelId); [now left|now right].
Qed.

Lemma planned_ids_NoDup (channels : JsMap.t ChannelJSON.t) :
  NoDup (JsMap.keys channels) ->
  NoDup (map SidebarMove.channelId
           (flat_map (fun e => snd (planChannel sidebarSections sidebarRules (0, []) e))
                     channels))
  /\ forall id,
      In id (map SidebarMove.channelId
               (flat_map (fun e => snd (planChannel sidebarSections sidebarRules (0, []) e))
                         channels)) ->
      In id (JsMap.keys channels).
Proof.
  induction channels as [|e channels IH]; intros Hnd.
  - split; [constructor|simpl; tauto].
  - change (JsMap.keys (e :: channels)) with (fst e :: JsMap.keys channels) in *.
    inversion Hnd as [|? ? He Hrest]; subst.
    destruct (IH Hrest) as [IHnd IHin].
    cbn [flat_map]. rewrite map_app.
    destruct (planChannel_ids e) as [-> | ->]; cbn [app In].
    + split; [assumption|]. intros id H. right. now apply IHin.
    + split.
      * constructor; [|assumption]. intros H. apply He. now apply IHin.
      * intros id [<-|H]; [now left|right; now apply IHin].
Qed.

Lemma calculateMoves_In (channels : JsMap.t ChannelJSON.t) (m : SidebarMove.t) :
  In m (snd (calculateMoves sidebarSections sidebarRules channels)) <->
  exists channel rule to,
    In (SidebarMove.channelId m, channel) channels
    /\ findRule sidebarRules (ChannelJSON.name channel) = Some rule
    /\ getSidebarSection sidebarSections (SidebarRule.sidebarSectionId rule) = Some to
    /\ SidebarSection.includesChannel to (SidebarMove.channelId m) = false
    /\ SidebarMove.toSidebarSectionId m = SidebarSection.id to
    /\ SidebarMove.fromSidebarSectionId m
       = idOrNull (holder sidebarSections (SidebarMove.channelId m)).
Proof.
  unfold calculateMoves. rewrite calculateMoves_from. cbn [fst snd Nat.add app].
  rewrite in_flat_map. split.
  + intros ([channelId channel] & Hin & Hm). rewrite planChannel_one in Hm.
    destruct (findRule _ _) as [rule|] eqn:Er; [|contradiction].
    destruct (getSidebarSection _ _) as [to|] eqn:Eto; [|contradiction].
    destruct (SidebarSection.includesChannel to channelId) eqn:Ei; [contradiction|].
    destruct Hm as [<-|[]]. simpl. exists channel, rule, to.
    repeat split; assumption || reflexivity.
  + intros (channel & rule & to & Hin & Er & Eto & Ei & Hto & Hfrom).
    exists (SidebarMove.channelId m, channel). split; [assumption|].
    rewrite planChannel_one, Er, Eto, Ei. left.
    destruct m as [c f t]. simpl in *. now subst.
Qed.

(** X11.  The planning loop of [main], taken as a whole.  [totalMatches]
    counts the channels some rule applies to.  There is a move for a channel
    exactly when a rule applies to its name, the first such rule names a
    section the snapshot has, and that section does not list the channel yet;
    the move then goes to that section and starts from the section that
    holds the channel.  So there are never more moves than matches, nor more
    matches than channels.  Over the channel index that [main] builds, no
    channel is planned twice. *)
Theorem calculateMoves_plans_each_channel_once (channels : JsMap.t ChannelJSON.t) :
  fst (calculateMoves sidebarSections sidebarRules channels)
  = length (filter (fun e => match findRule sidebarRules (ChannelJSON.name (snd e)) with
                             | Some _ => true
                             | None => false
                             end) channels)
  /\ length (snd (calculateMoves sidebarSections sidebarRules channels))
     <= fst (calculateMoves sidebarSections sidebarRules channels)
     <= JsMap.size channels
  /\ (forall m,
         In m (snd (calculateMoves sidebarSections sidebarRules channels)) <->
         exists channel rule to,
           In (SidebarMove.channelId m, channel) channels
           /\ findRule sidebarRules (ChannelJSON.name channel) = Some rule
           /\ getSidebarSection sidebarSections (SidebarRule.sidebarSectionId rule)
              = Some to
           /\ SidebarSection.includesChannel to (SidebarMove.channelId m) = false
           /\ SidebarMove.toSidebarSectionId m = SidebarSection.id to
           /\ SidebarMove.fromSidebarSectionId m
              = idOrNull (holder sidebarSections (SidebarMove.channelId m)))
  /\ (forall memberChannels,
         NoDup (map SidebarMove.channelId
                  (snd (calculateMoves sidebarSections sidebarRules
                          (indexChannels memberChannels))))).
Proof.
  unfold calculateMoves. split; [|split; [|split]].
  - rewrite calculateMoves_from. cbn [fst snd Nat.add app].
    unfold list_sum.
    induction channels as [|[channelId channel] l IH]; [reflexivity|].
    cbn [map fold_right filter snd]. rewrite planChannel_one, IH.
    destruct (findRule _ _) as [rule|]; [|reflexivity].
    destruct (getSidebarSection _ _) as [to|]; [|reflexivity].
    now destruct (SidebarSection.includesChannel to channelId).
  - rewrite calculateMoves_from. cbn [fst snd Nat.add app]. unfold JsMap.size.
    unfold list_sum.
    induction channels as [|[channelId channel] l IH]; [simpl; lia|].
    cbn [map fold_right flat_map length]. rewrite length_app, planChannel_one.
    destruct (findRule _ _) as [rule|]; [|cbn [fst snd length]; lia].
    destruct (getSidebarSection _ _) as [to|]; [|cbn [fst snd length]; lia].
    destruct (SidebarSection.includesChannel to channelId); cbn [fst snd length]; lia.
  - intros m. apply calculateMoves_In.
  - intros memberChannels. rewrite calculateMoves_from. cbn [fst snd Nat.add app].
    apply planned_ids_NoDup. unfold indexChannels.
    apply indexFrom_NoDup. constructor.
Qed.

End Planning.

(* ====================================================================== *)
(** * The reports: grouping and counting by destination *)
(* ====================================================================== *)

Lemma groupFrom_get (k : string) (moves : list SidebarMove.t)
    (m : JsMap.t (list SidebarMove.t)) :
  JsMap.get k
    (fold_left
       (fun byDestination move =>
          let k := SidebarMove.toSidebarSectionId move in
          let moves :=
            match JsMap.get k byDestination with
            | Some ms => ms
            | None => []
            end in
          JsMap.set k (moves ++ [move]) byDestination)
       moves m) =
  match filter (fun move => String.eqb (SidebarMove.toSidebarSectionId move) k) moves with
  | [] => JsMap.get k m
  | ms => Some (match JsMap.get k m with Some ms0 => ms0 | None => [] end ++ ms)
  end.
Proof.
  revert m. induction moves as [|move rest IH]; intros m; [reflexivity|].
  cbn [fold_left filter]. rewrite IH. cbv zeta.
  destruct (String.eqb_spec (SidebarMove.toSidebarSectionId move) k) as [->|Hne].
  - rewrite get_set_same.
    destruct (filter _ rest) as [|x xs]; [reflexivity|].
    now rewrite <- app_assoc.
  - now rewrite (get_set_other _ _ _ _ Hne).
Qed.

Lemma groupFrom_NoDup (moves : list SidebarMove.t) (m : JsMap.t (list SidebarMove.t)) :
  NoDup (JsMap.keys m) ->
  NoDup (JsMap.keys
           (fold_left
              (fun byDestination move =>
                 let k := SidebarMove.toSidebarSectionId move in
                 let moves :=
                   match JsMap.get k byDestination with
                   | Some ms => ms
                   | None => []
                   end in
                 JsMap.set k (moves ++ [move]) byDestination)
              moves m)).
Proof.
  revert m. induction moves as [|move rest IH]; intros m H; [exact H|].
  cbn [fold_left]. apply IH. cbv zeta. now apply keys_set_NoDup.
Qed.

(** In a map with distinct keys every entry is the one [get] finds. *)
Lemma entries_by_get {V} (d : V) (m : JsMap.t V) :
  NoDup (JsMap.keys m) ->
  map snd m
  = map (fun k => match JsMap.get k m with Some v => v | None => d end) (JsMap.keys m).
Proof.
  induction m as [|[k v] m IH]; intros Hnd; [reflexivity|].
  change (JsMap.keys ((k, v) :: m)) with (k :: JsMap.keys m) in *.
  inversion Hnd as [|? ? Hk Hm]; subst.
  cbn [map snd JsMap.get]. rewrite String.eqb_refl. f_equal.
  rewrite (IH Hm). apply map_ext_in. intros k' Hk'.
  destruct (String.eqb_spec k k') as [->|_]; [contradiction|reflexivity].
Qed.

Lemma filter_split_perm {A} (f : A -> bool) (l : list A) :
  Permutation (filter f l ++ filter (fun x => negb (f x)) l) l.
Proof.
  induction l as [|x l IH]; simpl; [constructor|].
  destruct (f x); simpl.
  - now constructor.
  - symmetry. apply Permutation_cons_app. now symmetry.
Qed.

Lemma filter_filter {A} (f g : A -> bool) (l : list A) :
  filter f (filter g l) = filter (fun x => f x && g x) l.
Proof.
  induction l as [|x l IH]; simpl; [reflexivity|].
  destruct (g x); simpl; rewrite ?andb_true_r, ?andb_false_r;
    [destruct (f x)|]; now rewrite IH.
Qed.

Lemma flat_map_pointwise_in {A B} (f g : A -> list B) (l : list A) :
  (forall x, In x l -> f x = g x) -> flat_map f l = flat_map g l.
Proof.
  induction l as [|x l IH]; intros H; simpl; [reflexivity|].
  rewrite (H x (or_introl eq_refl)), IH; [reflexivity|].
  intros y Hy. apply H. now right.
Qed.

Lemma groups_partition (ks : list string) :
  NoDup ks ->
  forall moves : list SidebarMove.t,
    (forall move, In move moves -> In (SidebarMove.toSidebarSectionId move) ks) ->
    Permutation
      (flat_map
         (fun k => filter (fun move => String.eqb (SidebarMove.toSidebarSectionId move) k)
                          moves) ks)
      moves.
Proof.
  induction 1 as [|k ks Hk Hnd IH]; intros moves Hcover.
  - destruct moves as [|move rest]; [constructor|].
    destruct (Hcover move (or_introl eq_refl)).
  - cbn [flat_map].
    set (others := filter (fun move =>
                             negb (String.eqb (SidebarMove.toSidebarSectionId move) k))
                          moves).
    assert (E : flat_map
                  (fun k0 => filter (fun move =>
                                       String.eqb (SidebarMove.toSidebarSectionId move) k0)
                                    moves) ks
                = flat_map
                    (fun k0 => filter (fun move =>
                                         String.eqb (SidebarMove.toSidebarSectionId move) k0)
                                      others) ks).
    { apply flat_map_pointwise_in. intros k0 Hk0. unfold others. rewrite filter_filter.
      apply filter_ext. intros move.
      destruct (String.eqb_spec (SidebarMove.toSidebarSectionId move) k0) as [->|_];
        [|reflexivity].
      destruct (String.eqb_spec k0 k) as [->|_]; [contradiction|reflexivity]. }
    rewrite E.
    rewrite (IH others).
    + apply filter_split_perm.
    + intros move Hin. unfold others in Hin. apply filter_In in Hin as [Hin Hne].
      destruct (Hcover move Hin) as [Ek|H]; [|exact H].
      rewrite <- Ek, String.eqb_refl in Hne. discriminate.
Qed.

Lemma groupByDestination_get (moves : list SidebarMove.t) (k : string) :
  JsMap.get k (groupByDestination moves) =
  match filter (fun move => String.eqb (SidebarMove.toSidebarSectionId move) k) moves with
  | [] => None
  | ms => Some ms
  end.
Proof. unfold groupByDestination. rewrite groupFrom_get. reflexivity. Qed.

Lemma groupByDestination_NoDup (moves : list SidebarMove.t) :
  NoDup (JsMap.keys (groupByDestination moves)).
Proof. unfold groupByDestination. apply groupFrom_NoDup. constructor. Qed.

Lemma groupByDestination_concat (moves : list SidebarMove.t) :
  Permutation (concat (map snd (groupByDestination moves))) moves.
Proof.
  pose proof (groupByDestination_NoDup moves) as Hnd.
  rewrite (entries_by_get [] _ Hnd), <- flat_map_concat_map.
  erewrite flat_map_ext.
  - apply (groups_partition _ Hnd). intros move Hin.
    destruct (in_dec string_dec (SidebarMove.toSidebarSectionId move)
                (JsMap.keys (groupByDestination moves))) as [H|H]; [exact H|].
    apply get_None_iff in H. rewrite groupByDestination_get in H.
    destruct (filter _ moves) as [|x xs] eqn:Ef; [|discriminate].
    assert (Hm : In move (filter (fun move0 =>
                   String.eqb (SidebarMove.toSidebarSectionId move0)
                              (SidebarMove.toSidebarSectionId move)) moves)).
    { apply filter_In. split; [exact Hin|apply String.eqb_refl]. }
    rewrite Ef in Hm. destruct Hm.
  - intros k. rewrite groupByDestination_get. now destruct (filter _ moves).
Qed.

(** X12.  Grouping moves by destination, as the dry-run report and the
    report of the moves made do.  The group of a destination holds exactly
    the moves to that destination, in their order; a destination no move
    goes to has no group, and no group is empty; the destinations are
    distinct; and the groups together hold every move exactly once. *)
Theorem groupByDestination_partitions (moves : list SidebarMove.t) :
  (forall k,
      JsMap.get k (groupByDestination moves) =
      match filter (fun move => String.eqb (SidebarMove.toSidebarSectionId move) k)
                   moves with
      | [] => None
      | ms => Some ms
      end)
  /\ NoDup (JsMap.keys (groupByDestination moves))
  /\ Permutation (concat (map snd (groupByDestination moves))) moves.
Proof.
  split; [apply groupByDestination_get|].
  split; [apply groupByDestination_NoDup|apply groupByDestination_concat].
Qed.

Lemma get_sizes (k : string) (g : JsMap.t (list SidebarMove.t)) :
  JsMap.get k (map (fun e => (fst e, length (snd e))) g)
  = option_map (@length SidebarMove.t) (JsMap.get k g).
Proof.
  induction g as [|[k0 v0] g IH]; simpl; [reflexivity|].
  now destruct (String.eqb k0 k).
Qed.

Lemma set_sizes (k : string) (v : list SidebarMove.t) (g : JsMap.t (list SidebarMove.t)) :
  JsMap.set k (length v) (map (fun e => (fst e, length (snd e))) g)
  = map (fun e => (fst e, length (snd e))) (JsMap.set k v g).
Proof.
  induction g as [|[k0 v0] g IH]; simpl; [reflexivity|].
  destruct (String.eqb k0 k); simpl; [reflexivity|now rewrite IH].
Qed.

Lemma countFrom_sizes (moves : list SidebarMove.t) (g : JsMap.t (list SidebarMove.t)) :
  fold_left (fun summary move => bump (SidebarMove.toSidebarSectionId move) summary)
            moves (map (fun e => (fst e, length (snd e))) g)
  = map (fun e => (fst e, length (snd e)))
        (fold_left
           (fun byDestination move =>
              let k := SidebarMove.toSidebarSectionId move in
              let moves :=
                match JsMap.get k byDestination with
                | Some ms => ms
                | None => []
                end in
              JsMap.set k (moves ++ [move]) byDestination)
           moves g).
Proof.
  revert g. induction moves as [|move rest IH]; intros g; [reflexivity|].
  cbn [fold_left]. cbv zeta. rewrite <- IH. f_equal.
  unfold bump. rewrite get_sizes, <- set_sizes. f_equal.
  rewrite length_app. simpl.
  now destruct (JsMap.get (SidebarMove.toSidebarSectionId move) g).
Qed.

(** X13.  The counts of the final summary are taken over the planned moves,
    not over the moves that succeeded: the summary has one entry for every
    group of the planned moves, in the same order, and its count is the size
    of that group; the counts add up to the number of planned moves. *)
Theorem countByDestination_sizes_of_groups (sidebarMoves : list SidebarMove.t) :
  countByDestination sidebarMoves
  = map (fun e => (fst e, length (snd e))) (groupByDestination sidebarMoves)
  /\ (forall k,
         JsMap.get k (countByDestination sidebarMoves) =
         match length (filter (fun move =>
                                 String.eqb (SidebarMove.toSidebarSectionId move) k)
                              sidebarMoves) with
         | O => None
         | S c => Some (S c)
         end)
  /\ list_sum (map snd (countByDestination sidebarMoves)) = length sidebarMoves.
Proof.
  assert (E : countByDestination sidebarMoves
              = map (fun e => (fst e, length (snd e))) (groupByDestination sidebarMoves)).
  { unfold countByDestination, groupByDestination.
    exact (countFrom_sizes sidebarMoves JsMap.empty). }
  split; [exact E|]. split.
  - intros k. rewrite E, get_sizes, groupByDestination_get.
    now destruct (filter _ sidebarMoves).
  - rewrite E, map_map. cbn [snd].
    rewrite <- (Permutation_length (groupByDestination_concat sidebarMoves)).
    generalize (groupByDestination sidebarMoves) as g.
    unfold list_sum.
    induction g as [|[k v] g IH]; [reflexivity|].
    cbn [map snd concat fold_right]. rewrite length_app. now rewrite IH.
Qed.

(* ====================================================================== *)
(** * Loading the rules *)
(* ====================================================================== *)

(** X14.  How a rule finds its section.  The section is looked up by id
    first and by display name second: when some section has the given text
    as its id, the first such section is taken, even if another section
    carries the text as its name; only when no section has it as its id is
    the first section with that name taken; and the lookup fails exactly
    when the text is neither the id nor the name of any section. *)
Theorem resolveSection_id_before_name (sidebarSections : list SidebarSection.t)
    (json : RuleJSON.t) :
  match resolveSection sidebarSections json with
  | Some s =>
      exists before after,
        sidebarSections = before ++ s :: after
        /\ ((SidebarSection.id s = RuleJSON.sidebar_section json
             /\ Forall (fun s' => SidebarSection.id s' <> RuleJSON.sidebar_section json)
                       before)
            \/ (SidebarSection.name s = RuleJSON.sidebar_section json
                /\ Forall (fun s' => SidebarSection.id s' <> RuleJSON.sidebar_section json)
                          sidebarSections
                /\ Forall (fun s' => SidebarSection.name s' <> RuleJSON.sidebar_section json)
                          before))
  | None =>
      Forall (fun s' => SidebarSection.id s' <> RuleJSON.sidebar_section json
                        /\ SidebarSection.name s' <> RuleJSON.sidebar_section json)
             sidebarSections
  end.
Proof.
  unfold resolveSection.
  destruct (find (fun s => String.eqb (RuleJSON.sidebar_section json) (SidebarSection.id s))
                 sidebarSections) as [s|] eqn:Eid.
  - apply find_first in Eid as (before & after & E & Hs & Hb).
    exists before, after. split; [exact E|]. left.
    apply String.eqb_eq in Hs. split; [now symmetry|].
    eapply Forall_impl; [|exact Hb]. intros s' H. apply String.eqb_neq in H. congruence.
  - apply find_none_iff in Eid.
    assert (Hid : Forall (fun s' => SidebarSection.id s' <> RuleJSON.sidebar_section json)
                         sidebarSections).
    { eapply Forall_impl; [|exact Eid]. intros s' H. apply String.eqb_neq in H.
      congruence. }
    destruct (find (fun s => String.eqb (RuleJSON.sidebar_section json)
                                        (SidebarSection.name s))
                   sidebarSections) as [s|] eqn:Ename.
    + apply find_first in Ename as (before & after & E & Hs & Hb).
      exists before, after. split; [exact E|]. right.
      apply String.eqb_eq in Hs. split; [now symmetry|]. split; [exact Hid|].
      eapply Forall_impl; [|exact Hb]. intros s' H. apply String.eqb_neq in H.
      congruence.
    + apply find_none_iff in Ename.
      rewrite Forall_forall in *. intros s' Hin. split; [now apply Hid|].
      specialize (Ename s' Hin). apply String.eqb_neq in Ename. congruence.
Qed.

Lemma fromJSON_sidebarSectionId (i : string) (json : RuleJSON.t) (rule : SidebarRule.t) :
  SidebarRule.fromJSON i json = Normal rule -> SidebarRule.sidebarSectionId rule = i.
Proof.
  unfold SidebarRule.fromJSON.
  destruct (String.eqb (RuleJSON.type json) "prefix"); [now intros [= <-]|].
  destruct (String.eqb (RuleJSON.type json) "suffix"); [now intros [= <-]|].
  destruct (String.eqb (RuleJSON.type json) "keyword"); [now intros [= <-]|].
  discriminate.
Qed.

Lemma resolveSection_In (sidebarSections : list SidebarSection.t) (json : RuleJSON.t)
    (s : SidebarSection.t) :
  resolveSection sidebarSections json = Some s -> In s sidebarSections.
Proof.
  unfold resolveSection.
  destruct (find _ sidebarSections) as [s0|] eqn:E.
  - intros [= <-]. now apply find_some in E.
  - intros H. now apply find_some in H.
Qed.

Lemma getSidebarSection_of_member (sidebarSections : list SidebarSection.t)
    (s : SidebarSection.t) :
  In s sidebarSections ->
  exists s', getSidebarSection sidebarSections (SidebarSection.id s) = Some s'.
Proof.
  intros Hin. unfold getSidebarSection.
  destruct (find _ sidebarSections) as [s'|] eqn:E; [eauto|].
  apply (find_none _ _ E) in Hin. now rewrite String.eqb_refl in Hin.
Qed.

Lemma loadRules_targets (sidebarSections : list SidebarSection.t)
    (sidebarRulesRaw : list RuleJSON.t) (sidebarRules : list SidebarRule.t) :
  loadRules sidebarSections sidebarRulesRaw = inr sidebarRules ->
  Forall (fun rule =>
            exists s, getSidebarSection sidebarSections
                        (SidebarRule.sidebarSectionId rule) = Some s)
         sidebarRules.
Proof.
  revert sidebarRules.
  induction sidebarRulesRaw as [|json rest IH]; intros sidebarRules; cbn [loadRules].
  - intros [= <-]. constructor.
  - destruct (resolveSection sidebarSections json) as [s|] eqn:Es; [|discriminate].
    destruct (SidebarRule.fromJSON (SidebarSection.id s) json) as [rule|e] eqn:Er;
      [|discriminate].
    destruct (loadRules sidebarSections rest) as [stop|rules]; [discriminate|].
    intros [= <-]. constructor; [|now apply IH].
    rewrite (fromJSON_sidebarSectionId _ _ _ Er).
    apply getSidebarSection_of_member. eapply resolveSection_In, Es.
Qed.

(** X15.  Loading the rules is all or nothing and keeps the order.  When it
    succeeds there is one rule per raw rule, in the same order, each built
    by [SidebarRule.fromJSON] from the id of the section the raw rule
    resolves to, and the section id of every loaded rule is the id of a
    section of the snapshot.  Otherwise the first raw rule that cannot be
    loaded ends the run with status 1, after a message that names the section
    that could not be found or, through the uncaught exception, the unknown
    rule type; the rules after it are not looked at. *)
Theorem loadRules_all_or_nothing (sidebarSections : list SidebarSection.t)
    (sidebarRulesRaw : list RuleJSON.t) :
  match loadRules sidebarSections sidebarRulesRaw with
  | inr sidebarRules =>
      Forall2 (fun json rule =>
                 exists s, resolveSection sidebarSections json = Some s
                           /\ SidebarRule.fromJSON (SidebarSection.id s) json = Normal rule)
              sidebarRulesRaw sidebarRules
      /\ length sidebarRules = length sidebarRulesRaw
      /\ Forall (fun rule =>
                   exists s, getSidebarSection sidebarSections
                               (SidebarRule.sidebarSectionId rule) = Some s)
                sidebarRules
  | inl stop =>
      exists before json after,
        sidebarRulesRaw = before ++ json :: after
        /\ (exists loaded, loadRules sidebarSections before = inr loaded)
        /\ ((resolveSection sidebarSections json = None
             /\ stop = [Failure ("Couldn't find sidebar section for " ++
                                 RuleJSON.sidebar_section json); Exit 1])
            \/ (exists s,
                   resolveSection sidebarSections json = Some s
                   /\ SidebarRule.fromJSON (SidebarSection.id s) json
                      = Throw (Error ("Unknown rule type: " ++ RuleJSON.type json))
                   /\ stop = [Failure ("Error: Unknown rule type: " ++ RuleJSON.type json);
                              Exit 1]))
  end.
Proof.
  induction sidebarRulesRaw as [|json rest IH]; cbn [loadRules].
  - repeat split; constructor.
  - destruct (resolveSection sidebarSections json) as [s|] eqn:Es.
    2:{ exists [], json, rest. split; [reflexivity|]. split; [now exists []|].
        left. now split. }
    destruct (SidebarRule.fromJSON (SidebarSection.id s) json) as [rule|e] eqn:Er.
    2:{ exists [], json, rest. split; [reflexivity|]. split; [now exists []|].
        right. exists s. split; [exact Es|].
        assert (Ee : e = Error ("Unknown rule type: " ++ RuleJSON.type json)).
        { unfold SidebarRule.fromJSON in Er.
          destruct (String.eqb (RuleJSON.type json) "prefix"); [discriminate|].
          destruct (String.eqb (RuleJSON.type json) "suffix"); [discriminate|].
          destruct (String.eqb (RuleJSON.type json) "keyword"); [discriminate|].
          now injection Er as <-. }
        subst e. split; [exact Er|reflexivity]. }
    destruct (loadRules sidebarSections rest) as [stop|rules].
    + destruct IH as (before & bad & after & E & [loaded El] & Hstop).
      exists (json :: before), bad, after. split; [simpl; now rewrite E|].
      split; [|exact Hstop].
      exists (rule :: loaded). cbn [loadRules]. now rewrite Es, Er, El.
    + destruct IH as (H2 & Hlen & Hall). split; [|split].
      * constructor; [|exact H2]. exists s. now split.
      * simpl. now rewrite Hlen.
      * constructor; [|exact Hall].
        rewrite (fromJSON_sidebarSectionId _ _ _ Er).
        apply getSidebarSection_of_member. eapply resolveSection_In, Es.
Qed.

(** X16.  Rules that were loaded never lose a match.  The planning loop
    skips a channel whose rule names a section the snapshot does not have;
    with rules loaded by [loadRules] from the same snapshot that does not
    happen: every channel a rule applies to is either already listed by the
    section of the first such rule or is planned to move there. *)
Theorem loaded_rules_plan_every_match (sidebarSections : list SidebarSection.t)
    (sidebarRulesRaw : list RuleJSON.t) (sidebarRules : list SidebarRule.t)
    (channels : JsMap.t ChannelJSON.t)
    (channelId : string) (channel : ChannelJSON.t) (rule : SidebarRule.t) :
  loadRules sidebarSections sidebarRulesRaw = inr sidebarRules ->
  In (channelId, channel) channels ->
  findRule sidebarRules (ChannelJSON.name channel) = Some rule ->
  exists to,
    getSidebarSection sidebarSections (SidebarRule.sidebarSectionId rule) = Some to
    /\ (SidebarSection.includesChannel to channelId = true
        \/ In (SidebarMove.mk channelId (idOrNull (holder sidebarSections channelId))
                              (SidebarSection.id to))
              (snd (calculateMoves sidebarSections sidebarRules channels))).
Proof.
  intros Hload Hin Hrule.
  pose proof (loadRules_targets _ _ _ Hload) as Htargets.
  rewrite Forall_forall in Htargets.
  destruct (Htargets rule) as [to Eto].
  { unfold findRule in Hrule. now apply find_some in Hrule. }
  exists to. split; [exact Eto|].
  destruct (SidebarSection.includesChannel to channelId) eqn:Ei; [now left|right].
  apply calculateMoves_In. exists channel, rule, to. simpl.
  repeat split; assumption || reflexivity.
Qed.

Lemma loaded_rules_plan_every_match_witness :
  (loadRules Sample.sections Sample.rawRules = inr Sample.rules
   /\ In ("C1", Sample.acme) Sample.channels
   /\ findRule Sample.rules (ChannelJSON.name Sample.acme)
      = Some (SidebarRule.PrefixSidebarRule "S2" (Some "cust-")))
  /\ exists to,
      getSidebarSection Sample.sections "S2" = Some to
      /\ (SidebarSection.includesChannel to "C1" = true
          \/ In (SidebarMove.mk "C1" (idOrNull (holder Sample.sections "C1"))
                                (SidebarSection.id to))
                (snd (calculateMoves Sample.sections Sample.rules Sample.channels))).
Proof.
  assert (H1 : loadRules Sample.sections Sample.rawRules = inr Sample.rules)
    by reflexivity.
  assert (H2 : In ("C1", Sample.acme) Sample.channels) by (now left).
  assert (H3 : findRule Sample.rules (ChannelJSON.name Sample.acme)
               = Some (SidebarRule.PrefixSidebarRule "S2" (Some "cust-")))
    by reflexivity.
  split; [repeat split; assumption|].
  exact (loaded_rules_plan_every_match Sample.sections Sample.rawRules Sample.rules
           Sample.channels "C1" Sample.acme _ H1 H2 H3).
Defined.

(* ====================================================================== *)
(** * The executor loop, whatever the service answers *)
(* ====================================================================== *)

Section ExecutorAlways.

Context {S : Type}.
Variable client : SlackClient S.

Lemma run_always (moves : list SidebarMove.t) :
  forall st : Executor.state S,
    (1 <= RateLimiter.limit (Executor.limiter st))%Z ->
    exists sent rest,
      moves = sent ++ rest
      /\ Executor.requests (snd (Executor.run client moves st))
         = Executor.requests st ++ sent
      /\ Executor.successfulMoves (snd (Executor.run client moves st))
         = Executor.successfulMoves st
           ++ acknowledged (combine moves (answers client moves (Executor.service st)))
      /\ Executor.errors (snd (Executor.run client moves st))
         = Executor.errors st
           ++ refused (combine moves (answers client moves (Executor.service st)))
      /\ match fst (Executor.run client moves st) with
         | Executor.Completed =>
             rest = []
             /\ length (answers client moves (Executor.service st)) = length moves
         | Executor.Uncaught e =>
             exists before move,
               sent = before ++ [move]
               /\ length (answers client moves (Executor.service st)) = length before
         | Executor.Stuck => False
         end.
Proof.
  induction moves as [|move moves IH]; intros st Hlim.
  - exists [], []. simpl. rewrite !app_nil_r. repeat split; reflexivity.
  - rewrite run_cons.
    destruct (wait_enough (Executor.limiter st) (Executor.clock st) Hlim)
      as (rl' & now' & Ewait & Hl).
    rewrite Ewait. cbn [answers].
    destruct (sidebarMove client (SidebarMove.channelId move)
                (SidebarMove.toSidebarSectionId move)
                (SidebarMove.fromSidebarSectionId move) (Executor.service st))
      as [[result|e] service'].
    + assert (Hgo : forall succ errs,
                 let st1 := Executor.mk rl' now' service'
                              (Executor.requests st ++ [move]) succ errs in
                 exists sent rest,
                   moves = sent ++ rest
                   /\ Executor.requests (snd (Executor.run client moves st1))
                      = Executor.requests st ++ move :: sent
                   /\ Executor.successfulMoves (snd (Executor.run client moves st1))
                      = succ ++ acknowledged (combine moves (answers client moves service'))
                   /\ Executor.errors (snd (Executor.run client moves st1))
                      = errs ++ refused (combine moves (answers client moves service'))
                   /\ match fst (Executor.run client moves st1) with
                      | Executor.Completed =>
                          rest = []
                          /\ length (answers client moves service') = length moves
                      | Executor.Uncaught e =>
                          exists before m,
                            sent = before ++ [m]
                            /\ length (answers client moves service') = length before
                      | Executor.Stuck => False
                      end).
      { intros succ errs st1.
        destruct (IH st1) as (sent & rest & E & Hreq & Hsucc & Herr & Hhow);
          [simpl; lia|].
        exists sent, rest. simpl in Hreq. rewrite <- app_assoc in Hreq.
        repeat split; assumption. }
      destruct (MoveResult.ok result) eqn:Eok.
      * destruct (Hgo (Executor.successfulMoves st ++ [move]) (Executor.errors st))
          as (sent & rest & E & Hreq & Hsucc & Herr & Hhow).
        exists (move :: sent), rest.
        split; [simpl; now rewrite E|]. split; [exact Hreq|].
        unfold acknowledged, refused in *. cbn [combine filter snd]. rewrite Eok.
        cbn [negb map fst]. rewrite <- app_assoc in Hsucc.
        split; [exact Hsucc|]. split; [exact Herr|].
        destruct (fst (Executor.run client moves _)) as [|e|].
        -- destruct Hhow as [-> Hlen]. split; [reflexivity|]. simpl. now rewrite Hlen.
        -- destruct Hhow as (before & m & -> & Hlen).
           exists (move :: before), m. split; [reflexivity|]. simpl. now rewrite Hlen.
        -- exact Hhow.
      * destruct (Hgo (Executor.successfulMoves st) (Executor.errors st ++ [(move, result)]))
          as (sent & rest & E & Hreq & Hsucc & Herr & Hhow).
        exists (move :: sent), rest.
        split; [simpl; now rewrite E|]. split; [exact Hreq|].
        unfold acknowledged, refused in *. cbn [combine filter snd]. rewrite Eok.
        cbn [negb map fst]. rewrite <- app_assoc in Herr.
        split; [exact Hsucc|]. split; [exact Herr|].
        destruct (fst (Executor.run client moves _)) as [|e|].
        -- destruct Hhow as [-> Hlen]. split; [reflexivity|]. simpl. now rewrite Hlen.
        -- destruct Hhow as (before & m & -> & Hlen).
           exists (move :: before), m. split; [reflexivity|]. simpl. now rewrite Hlen.
        -- exact Hhow.
    + exists [move], moves. simpl. rewrite !app_nil_r.
      repeat split; auto. now exists [], move.
Qed.

(** X17.  The executor loop of [main], whatever the service answers.  With
    the limiter of [main] the loop never hangs on [wait].  The requests it
    makes are an initial part of the planned moves, in order and each once;
    every request that was answered is recorded, as a success or as an error
    by the flag of its answer.  The loop either completes, and then every
    planned move was requested and answered, or it ends at the first request
    that is rejected: that request is the last one made and is recorded
    neither as a success nor as an error, and the moves after it are never
    requested. *)
Theorem executor_stops_at_first_rejection (sidebarMoves : list SidebarMove.t)
    (now : Z) (s : S) :
  let start := Executor.start (RateLimiter.new 20 60000) now s in
  let how := fst (Executor.run client sidebarMoves start) in
  let st := snd (Executor.run client sidebarMoves start) in
  let answered := combine sidebarMoves (answers client sidebarMoves s) in
  how <> Executor.Stuck
  /\ (exists rest, sidebarMoves = Executor.requests st ++ rest)
  /\ Executor.successfulMoves st = acknowledged answered
  /\ Executor.errors st = refused answered
  /\ match how with
     | Executor.Completed =>
         Executor.requests st = sidebarMoves
         /\ length (Executor.successfulMoves st) + length (Executor.errors st)
            = length sidebarMoves
     | _ =>
         length (Executor.successfulMoves st) + length (Executor.errors st) + 1
         = length (Executor.requests st)
     end.
Proof.
  cbv zeta.
  destruct (run_always sidebarMoves (Executor.start (RateLimiter.new 20 60000) now s))
    as (sent & rest & E & Hreq & Hsucc & Herr & Hhow); [simpl; lia|].
  simpl in Hreq, Hsucc, Herr, Hhow.
  assert (Hcount : length (Executor.successfulMoves
                             (snd (Executor.run client sidebarMoves
                                     (Executor.start (RateLimiter.new 20 60000) now s))))
                   + length (Executor.errors
                               (snd (Executor.run client sidebarMoves
                                       (Executor.start (RateLimiter.new 20 60000) now s))))
                   = Nat.min (length sidebarMoves)
                             (length (answers client sidebarMoves s))).
  { rewrite Hsucc, Herr, acknowledged_cons_length. apply length_combine. }
  split; [|split; [|split; [|split]]].
  - intros Hstuck. rewrite Hstuck in Hhow. exact Hhow.
  - exists rest. now rewrite Hreq.
  - exact Hsucc.
  - exact Herr.
  - rewrite Hcount, Hreq.
    pose proof (f_equal (@length _) E) as Elen. rewrite length_app in Elen.
    destruct (fst (Executor.run client sidebarMoves _)) as [|e|].
    + destruct Hhow as [-> Hlen]. rewrite app_nil_r in E. split; [now symmetry|lia].
    + destruct Hhow as (before & move & -> & Hlen).
      rewrite length_app in Elen |- *. simpl in Elen |- *. lia.
    + destruct Hhow.
Qed.

End ExecutorAlways.

(* ====================================================================== *)
(** * The rule suggestions *)
(* ====================================================================== *)

Lemma insertByCount_perm (x : string * nat) (l : list (string * nat)) :
  Permutation (insertByCount x l) (x :: l).
Proof.
  induction l as [|y l IH]; simpl; [reflexivity|].
  destruct (Nat.ltb (snd x) (snd y)); [|reflexivity].
  rewrite IH. apply perm_swap.
Qed.

Lemma mostPopularFirst_perm (l : list (string * nat)) :
  Permutation (mostPopularFirst l) l.
Proof.
  induction l as [|x l IH]; simpl; [constructor|].
  rewrite insertByCount_perm. now constructor.
Qed.

Lemma insertByCount_sorted (x : string * nat) (l : list (string * nat)) :
  StronglySorted (fun a b => snd b <= snd a) l ->
  StronglySorted (fun a b => snd b <= snd a) (insertByCount x l).
Proof.
  induction 1 as [|y l Hs IH Hall]; simpl; [repeat constructor|].
  destruct (Nat.ltb_spec (snd x) (snd y)) as [Hlt|Hge].
  - constructor; [exact IH|].
    eapply Permutation_Forall; [symmetry; apply insertByCount_perm|].
    constructor; [lia|exact Hall].
  - constructor; [now constructor|].
    constructor; [exact Hge|].
    eapply Forall_impl; [|exact Hall]. simpl. intros; lia.
Qed.

Lemma mostPopularFirst_sorted (l : list (string * nat)) :
  StronglySorted (fun a b => snd b <= snd a) (mostPopularFirst l).
Proof.
  induction l as [|x l IH]; simpl; [constructor|]. now apply insertByCount_sorted.
Qed.

Lemma In_firstn {A} (n : nat) (l : list A) (x : A) : In x (firstn n l) -> In x l.
Proof.
  intros H. rewrite <- (firstn_skipn n l). apply in_or_app. now left.
Qed.

Lemma sorted_front (R : string * nat -> string * nat -> Prop) (n : nat)
    (l : list (string * nat)) :
  StronglySorted R l ->
  StronglySorted R (firstn n l)
  /\ forall a b, In a (firstn n l) -> In b (skipn n l) -> R a b.
Proof.
  intros Hs. revert n. induction Hs as [|x l Hs IH Hall]; intros n.
  - rewrite firstn_nil, skipn_nil. split; [constructor|contradiction].
  - destruct n as [|n]; simpl; [split; [constructor|contradiction]|].
    destruct (IH n) as [IH1 IH2]. split.
    + constructor; [exact IH1|].
      rewrite Forall_forall in *. intros y Hy. apply Hall.
      eapply In_firstn, Hy.
    + intros a b [<-|Ha] Hb; [|now apply IH2].
      rewrite Forall_forall in Hall. apply Hall.
      rewrite <- (firstn_skipn n l). apply in_or_app. now right.
Qed.

Lemma entry_get {V} (k : string) (v : V) (m : JsMap.t V) :
  NoDup (JsMap.keys m) -> In (k, v) m -> JsMap.get k m = Some v.
Proof.
  induction m as [|[k0 v0] m IH]; intros Hnd Hin; [contradiction|].
  change (JsMap.keys ((k0, v0) :: m)) with (k0 :: JsMap.keys m) in Hnd.
  inversion Hnd as [|? ? Hk Hm]; subst. simpl.
  destruct Hin as [[= -> ->]|Hin]; [now rewrite String.eqb_refl|].
  destruct (String.eqb_spec k0 k) as [->|_]; [|now apply IH].
  contradict Hk. unfold JsMap.keys. now apply (in_map fst _ (k, v)).
Qed.

Lemma JsString_length_app (a b : string) :
  JsString.length (a ++ b) = JsString.length a + JsString.length b.
Proof.
  induction a as [|c a IH]; simpl; [reflexivity|]. rewrite IH. lia.
Qed.

Lemma get_entry {V} (k : string) (v : V) (m : JsMap.t V) :
  JsMap.get k m = Some v -> In (k, v) m.
Proof.
  induction m as [|[k0 v0] m IH]; simpl; [discriminate|].
  destruct (String.eqb_spec k0 k) as [->|_].
  - intros [= ->]. now left.
  - intros H. right. now apply IH.
Qed.

Lemma topEntries_qualify (candidates : JsMap.t nat) (kv : string * nat) :
  In kv (topEntries candidates) ->
  In kv candidates /\ 5 <= snd kv /\ JsString.length (fst kv) < 20.
Proof.
  unfold topEntries. intros Hin. apply In_firstn in Hin.
  apply (Permutation_in _ (mostPopularFirst_perm _)) in Hin.
  rewrite !filter_In, Nat.leb_le, Nat.ltb_lt in Hin. tauto.
Qed.

Lemma topEntries_length (candidates : JsMap.t nat) :
  length (topEntries candidates)
  = Nat.min 3 (length (filter (fun kv => Nat.leb 5 (snd kv)
                                         && Nat.ltb (JsString.length (fst kv)) 20)
                              candidates)).
Proof.
  unfold topEntries.
  rewrite length_firstn, (Permutation_length (mostPopularFirst_perm _)), filter_filter.
  do 2 f_equal. apply filter_ext. intros kv. apply andb_comm.
Qed.

(** A candidate that qualifies is proposed, unless three that count at
    least as many channels are. *)
Lemma topEntries_complete (candidates : JsMap.t nat) (kv : string * nat) :
  In kv candidates -> 5 <= snd kv -> JsString.length (fst kv) < 20 ->
  In kv (topEntries candidates)
  \/ (length (topEntries candidates) = 3
      /\ forall top, In top (topEntries candidates) -> snd kv <= snd top).
Proof.
  intros Hin H5 H20. unfold topEntries.
  set (qualifying := filter (fun kv => Nat.ltb (JsString.length (fst kv)) 20)
                       (filter (fun kv => Nat.leb 5 (snd kv)) candidates)).
  assert (Hq : In kv (mostPopularFirst qualifying)).
  { apply (Permutation_in _ (Permutation_sym (mostPopularFirst_perm qualifying))).
    unfold qualifying. rewrite !filter_In, Nat.leb_le, Nat.ltb_lt. auto. }
  destruct (sorted_front _ 3 _ (mostPopularFirst_sorted qualifying)) as [_ Hfront].
  pose proof (firstn_skipn 3 (mostPopularFirst qualifying)) as Hsplit.
  rewrite <- Hsplit in Hq. apply in_app_or in Hq as [H|H]; [now left|right].
  split; [|intros top Htop; exact (Hfront top kv Htop H)].
  rewrite length_firstn.
  assert (Hlen : 3 < length (mostPopularFirst qualifying)).
  { destruct (Nat.lt_ge_cases 3 (length (mostPopularFirst qualifying))) as [Hlt|Hge];
      [exact Hlt|].
    rewrite skipn_all2 in H by exact Hge. destruct H. }
  lia.
Qed.

(** X19.  The candidates proposed for one section ([topPrefixes],
    [topSuffixes]).  They are entries of the candidate map that count at
    least 5 channels and have a key shorter than 20 UTF-16 code units (the
    [length] of the key in the program); they are the first three of these,
    or all of them when there are fewer, ordered by count, larger first; and
    an entry that qualifies is proposed unless three entries that count at
    least as many channels are. *)
Theorem topEntries_most_popular (candidates : JsMap.t nat) :
  length (topEntries candidates)
  = Nat.min 3 (length (filter (fun kv => Nat.leb 5 (snd kv)
                                         && Nat.ltb (JsString.length (fst kv)) 20)
                              candidates))
  /\ StronglySorted (fun a b => snd b <= snd a) (topEntries candidates)
  /\ (forall kv, In kv (topEntries candidates) ->
                 In kv candidates /\ 5 <= snd kv /\ JsString.length (fst kv) < 20)
  /\ (forall kv,
         In kv candidates -> 5 <= snd kv -> JsString.length (fst kv) < 20 ->
         In kv (topEntries candidates)
         \/ (length (topEntries candidates) = 3
             /\ forall top, In top (topEntries candidates) -> snd kv <= snd top))
  /\ topEntries [("顧客顧客顧客顧", 5); ("a-name-of-twenty-char", 9); ("few", 4);
                 ("cust", 7); ("team", 7); ("ops", 6)]
     = [("cust", 7); ("team", 7); ("ops", 6)]
  /\ topEntries [("顧客顧客顧客顧", 5)] = [("顧客顧客顧客顧", 5)].
Proof.
  split; [apply topEntries_length|]. split; [|split; [|split; [|split]]].
  - unfold topEntries.
    exact (proj1 (sorted_front _ 3 _ (mostPopularFirst_sorted _))).
  - apply topEntries_qualify.
  - apply topEntries_complete.
  - reflexivity.
  - reflexivity.
Qed.

Lemma proposals_of_section {A} (f : SidebarSection.t -> list A) (keep : A -> bool)
    (sidebarSections : list SidebarSection.t) (sidebarSection : SidebarSection.t) :
  In sidebarSection sidebarSections ->
  length (filter keep (f sidebarSection))
  <= length (filter keep (flat_map f sidebarSections)).
Proof.
  intros Hin. apply in_split in Hin as (before & after & ->).
  rewrite flat_map_app. cbn [flat_map]. rewrite !filter_app, !length_app. lia.
Qed.

(** X20.  The prefix rules the program proposes when it is run without
    rules.  Every proposal names a section of the snapshot and a prefix that
    ends with a hyphen, has at most 20 UTF-16 code units and is counted for
    at least 5 channels; its count is exactly the number of member channels
    of that section whose name starts with the prefix, which are the channels
    of the section a prefix rule with that text applies to.  At most three
    are proposed per section.  Conversely, a candidate of at most four
    segments and fewer than 20 code units that starts the names of at least 5
    member channels of a section is proposed for that section with that
    count, unless three proposals for a section of that name count at least
    as many. *)
Theorem proposedPrefixRules_count_matching_channels
    (sidebarSections : list SidebarSection.t) (channels : JsMap.t ChannelJSON.t) :
  length (proposedPrefixRules sidebarSections channels) <= 3 * length sidebarSections
  /\ (forall rule,
         In rule (proposedPrefixRules sidebarSections channels) ->
         ProposedRule.type rule = "prefix"
         /\ 5 <= ProposedRule.count rule
         /\ JsString.length (ProposedRule.value rule) <= 20
         /\ Js.endsWith (ProposedRule.value rule) "-" = true
         /\ exists sidebarSection,
             In sidebarSection sidebarSections
             /\ ProposedRule.sidebar_section rule = SidebarSection.name sidebarSection
             /\ ProposedRule.count rule
                = length (filter
                            (SidebarRule.applies
                               (SidebarRule.PrefixSidebarRule
                                  (SidebarSection.id sidebarSection)
                                  (Some (ProposedRule.value rule))))
                            (channelNamesOf channels sidebarSection)))
  /\ (forall sidebarSection k,
         In sidebarSection sidebarSections ->
         length (Js.split Js.hyphen k) <= 4 ->
         JsString.length k < 20 ->
         5 <= length (filter (fun name => Js.startsWith name (k ++ "-"))
                             (channelNamesOf channels sidebarSection)) ->
         In (ProposedRule.mk "prefix" (SidebarSection.name sidebarSection) (k ++ "-")
               (length (filter (fun name => Js.startsWith name (k ++ "-"))
                               (channelNamesOf channels sidebarSection))))
            (proposedPrefixRules sidebarSections channels)
         \/ 3 <= length
                   (filter
                      (fun rule =>
                         String.eqb (ProposedRule.sidebar_section rule)
                                    (SidebarSection.name sidebarSection)
                         && Nat.leb
                              (length (filter (fun name => Js.startsWith name (k ++ "-"))
                                              (channelNamesOf channels sidebarSection)))
                              (ProposedRule.count rule))
                      (proposedPrefixRules sidebarSections channels))).
Proof.
  unfold proposedPrefixRules. split; [|split].
  - apply flat_map_length_le. intros s. rewrite length_map, topEntries_length. lia.
  - intros rule Hin. apply in_flat_map in Hin as (s & Hs & Hin).
    apply in_map_iff in Hin as ([k v] & <- & Hin). cbn [fst snd] in *.
    apply topEntries_qualify in Hin as (Hin & H5 & H20). cbn [fst snd] in *.
    cbn [ProposedRule.type ProposedRule.count ProposedRule.value
         ProposedRule.sidebar_section].
    split; [reflexivity|]. split; [exact H5|].
    split; [rewrite JsString_length_app; simpl; lia|].
    split; [apply endsWith_spec; now exists k|].
    exists s. split; [exact Hs|]. split; [reflexivity|].
    apply (entry_get _ _ _ (getPrefixes_NoDup _)) in Hin.
    rewrite getPrefixes_get_names in Hin.
    destruct (Nat.leb _ 4); [|discriminate].
    cbn [SidebarRule.applies toStringArg].
    destruct (length (filter _ (channelNamesOf channels s))); [discriminate|].
    now injection Hin as <-.
  - intros s k Hs Hsegs H20 H5.
    set (c := length (filter (fun name => Js.startsWith name (k ++ "-"))
                             (channelNamesOf channels s))) in *.
    assert (Hentry : In (k, c) (getPrefixes (channelNamesOf channels s))).
    { apply get_entry. rewrite getPrefixes_get_names.
      apply Nat.leb_le in Hsegs. rewrite Hsegs. fold c.
      destruct c; [lia|reflexivity]. }
    destruct (topEntries_complete _ (k, c) Hentry H5 H20) as [Htop|[Hlen Hall]].
    + left. apply in_flat_map. exists s. split; [exact Hs|].
      apply in_map_iff. exists (k, c). now split.
    + right.
      etransitivity;
        [|apply (proposals_of_section
                   (fun sidebarSection =>
                      map (fun kv => ProposedRule.mk "prefix"
                                       (SidebarSection.name sidebarSection)
                                       (fst kv ++ "-") (snd kv))
                          (topEntries (getPrefixes
                                         (channelNamesOf channels sidebarSection))))
                   _ sidebarSections s Hs)].
      rewrite forallb_filter_id; [now rewrite length_map, Hlen|].
      apply forallb_forall. intros rule Hrule.
      apply in_map_iff in Hrule as (top & <- & Htop). cbn [ProposedRule.sidebar_section
                                                          ProposedRule.count].
      rewrite String.eqb_refl. apply Nat.leb_le. now apply Hall.
Qed.

(** X21.  The suffix rules the program proposes when it is run without
    rules.  Every proposal names a section of the snapshot and a suffix that
    starts with a hyphen, has at most 20 UTF-16 code units and is counted for
    at least 5 channels; its count is exactly the number of member channels
    of that section whose name ends with the suffix, which are the channels
    of the section a suffix rule with that text applies to.  At most three
    are proposed per section.  Conversely, a candidate of at most four
    segments and fewer than 20 code units that ends the names of at least 5
    member channels of a section is proposed for that section with that
    count, unless three proposals for a section of that name count at least
    as many. *)
Theorem proposedSuffixRules_count_matching_channels
    (sidebarSections : list SidebarSection.t) (channels : JsMap.t ChannelJSON.t) :
  length (proposedSuffixRules sidebarSections channels) <= 3 * length sidebarSections
  /\ (forall rule,
         In rule (proposedSuffixRules sidebarSections channels) ->
         ProposedRule.type rule = "suffix"
         /\ 5 <= ProposedRule.count rule
         /\ JsString.length (ProposedRule.value rule) <= 20
         /\ Js.startsWith (ProposedRule.value rule) "-" = true
         /\ exists sidebarSection,
             In sidebarSection sidebarSections
             /\ ProposedRule.sidebar_section rule = SidebarSection.name sidebarSection
             /\ ProposedRule.count rule
                = length (filter
                            (SidebarRule.applies
                               (SidebarRule.SuffixSidebarRule
                                  (SidebarSection.id sidebarSection)
                                  (Some (ProposedRule.value rule))))
                            (channelNamesOf channels sidebarSection)))
  /\ (forall sidebarSection k,
         In sidebarSection sidebarSections ->
         length (Js.split Js.hyphen k) <= 4 ->
         JsString.length k < 20 ->
         5 <= length (filter (fun name => Js.endsWith name ("-" ++ k))
                             (channelNamesOf channels sidebarSection)) ->
         In (ProposedRule.mk "suffix" (SidebarSection.name sidebarSection) ("-" ++ k)
               (length (filter (fun name => Js.endsWith name ("-" ++ k))
                               (channelNamesOf channels sidebarSection))))
            (proposedSuffixRules sidebarSections channels)
         \/ 3 <= length
                   (filter
                      (fun rule =>
                         String.eqb (ProposedRule.sidebar_section rule)
                                    (SidebarSection.name sidebarSection)
                         && Nat.leb
                              (length (filter (fun name => Js.endsWith name ("-" ++ k))
                                              (channelNamesOf channels sidebarSection)))
                              (ProposedRule.count rule))
                      (proposedSuffixRules sidebarSections channels))).
Proof.
  unfold proposedSuffixRules. split; [|split].
  - apply flat_map_length_le. intros s. rewrite length_map, topEntries_length. lia.
  - intros rule Hin. apply in_flat_map in Hin as (s & Hs & Hin).
    apply in_map_iff in Hin as ([k v] & <- & Hin). cbn [fst snd] in *.
    apply topEntries_qualify in Hin as (Hin & H5 & H20). cbn [fst snd] in *.
    cbn [ProposedRule.type ProposedRule.count ProposedRule.value
         ProposedRule.sidebar_section].
    split; [reflexivity|]. split; [exact H5|].
    split; [rewrite JsString_length_app; simpl; lia|].
    split; [apply startsWith_spec; now exists k|].
    exists s. split; [exact Hs|]. split; [reflexivity|].
    apply (entry_get _ _ _ (getSuffixes_NoDup _)) in Hin.
    rewrite getSuffixes_get_names in Hin.
    destruct (Nat.leb _ 4); [|discriminate].
    cbn [SidebarRule.applies toStringArg].
    destruct (length (filter _ (channelNamesOf channels s))); [discriminate|].
    now injection Hin as <-.
  - intros s k Hs Hsegs H20 H5.
    set (c := length (filter (fun name => Js.endsWith name ("-" ++ k))
                             (channelNamesOf channels s))) in *.
    assert (Hentry : In (k, c) (getSuffixes (channelNamesOf channels s))).
    { apply get_entry. rewrite getSuffixes_get_names.
      apply Nat.leb_le in Hsegs. rewrite Hsegs. fold c.
      destruct c; [lia|reflexivity]. }
    destruct (topEntries_complete _ (k, c) Hentry H5 H20) as [Htop|[Hlen Hall]].
    + left. apply in_flat_map. exists s. split; [exact Hs|].
      apply in_map_iff. exists (k, c). now split.
    + right.
      etransitivity;
        [|apply (proposals_of_section
                   (fun sidebarSection =>
                      map (fun kv => ProposedRule.mk "suffix"
                                       (SidebarSection.name sidebarSection)
                                       ("-" ++ fst kv) (snd kv))
                          (topEntries (getSuffixes
                                         (channelNamesOf channels sidebarSection))))
                   _ sidebarSections s Hs)].
      rewrite forallb_filter_id; [now rewrite length_map, Hlen|].
      apply forallb_forall. intros rule Hrule.
      apply in_map_iff in Hrule as (top & <- & Htop). cbn [ProposedRule.sidebar_section
                                                          ProposedRule.count].
      rewrite String.eqb_refl. apply Nat.leb_le. now apply Hall.
Qed.

Lemma mostPopular_spec (first : ProposedRule.t) (rest : list ProposedRule.t) :
  exists before after,
    first :: rest
    = before
      ++ fold_left (fun best rule =>
                      if Nat.ltb (ProposedRule.count best) (ProposedRule.count rule)
                      then rule else best) rest first
      :: after
    /\ Forall (fun rule =>
                 ProposedRule.count rule
                 < ProposedRule.count
                     (fold_left (fun best rule =>
                                   if Nat.ltb (ProposedRule.count best)
                                              (ProposedRule.count rule)
                                   then rule else best) rest first))
              before
    /\ Forall (fun rule =>
                 ProposedRule.count rule
                 <= ProposedRule.count
                      (fold_left (fun best rule =>
                                    if Nat.ltb (ProposedRule.count best)
                                               (ProposedRule.count rule)
                                    then rule else best) rest first))
              after.
Proof.
  revert first. induction rest as [|r rest IH]; intros first.
  - exists [], []. simpl. repeat split; constructor.
  - cbn [fold_left].
    destruct (Nat.ltb_spec (ProposedRule.count first) (ProposedRule.count r)) as [Hlt|Hge].
    + destruct (IH r) as (before & after & E & Hb & Ha).
      remember (fold_left _ rest r) as best eqn:Eb. clear Eb IH.
      exists (first :: before), after. split; [simpl; now rewrite E|].
      split; [|exact Ha]. constructor; [|exact Hb].
      destruct before as [|x before]; simpl in E.
      * injection E as -> _. exact Hlt.
      * injection E as <- _. inversion Hb; subst. lia.
    + destruct (IH first) as (before & after & E & Hb & Ha).
      remember (fold_left _ rest first) as best eqn:Eb. clear Eb IH.
      destruct before as [|x before]; simpl in E.
      * injection E as E1 E2. subst best rest. exists [], (r :: after). simpl.
        repeat split; constructor; [lia|exact Ha].
      * injection E as E1 E2. subst x rest.
        inversion Hb as [|? ? Hx Hb']; subst.
        exists (first :: r :: before), after. simpl.
        repeat split; [|exact Ha].
        constructor; [exact Hx|]. constructor; [lia|exact Hb'].
Qed.

Lemma keepFrom_get (text : string) (rules : list ProposedRule.t)
    (kept : JsMap.t ProposedRule.t) :
  JsMap.get text
    (fold_left
       (fun kept rule =>
          match JsMap.get (ProposedRule.value rule) kept with
          | None => JsMap.set (ProposedRule.value rule) rule kept
          | Some existing =>
              if Nat.ltb (ProposedRule.count existing) (ProposedRule.count rule)
              then JsMap.set (ProposedRule.value rule) rule kept
              else kept
          end)
       rules kept) =
  match JsMap.get text kept,
        filter (fun rule => String.eqb (ProposedRule.value rule) text) rules with
  | Some existing, same =>
      Some (fold_left (fun best rule =>
                         if Nat.ltb (ProposedRule.count best) (ProposedRule.count rule)
                         then rule else best) same existing)
  | None, [] => None
  | None, first :: same =>
      Some (fold_left (fun best rule =>
                         if Nat.ltb (ProposedRule.count best) (ProposedRule.count rule)
                         then rule else best) same first)
  end.
Proof.
  revert kept. induction rules as [|r rules IH]; intros kept.
  - simpl. now destruct (JsMap.get text kept).
  - cbn [fold_left filter]. rewrite IH. clear IH.
    destruct (String.eqb_spec (ProposedRule.value r) text) as [<-|Hne].
    + destruct (JsMap.get (ProposedRule.value r) kept) as [existing|] eqn:Eget.
      * cbn [fold_left].
        destruct (Nat.ltb (ProposedRule.count existing) (ProposedRule.count r)).
        -- now rewrite get_set_same.
        -- now rewrite Eget.
      * now rewrite get_set_same.
    + assert (E : JsMap.get text
                    match JsMap.get (ProposedRule.value r) kept with
                    | Some existing =>
                        if Nat.ltb (ProposedRule.count existing) (ProposedRule.count r)
                        then JsMap.set (ProposedRule.value r) r kept
                        else kept
                    | None => JsMap.set (ProposedRule.value r) r kept
                    end = JsMap.get text kept).
      { destruct (JsMap.get (ProposedRule.value r) kept) as [existing|].
        - destruct (Nat.ltb _ _); [now apply get_set_other|reflexivity].
        - now apply get_set_other. }
      now rewrite E.
Qed.

Lemma keepFrom_NoDup (rules : list ProposedRule.t) (kept : JsMap.t ProposedRule.t) :
  NoDup (JsMap.keys kept) ->
  NoDup (JsMap.keys
           (fold_left
              (fun kept rule =>
                 match JsMap.get (ProposedRule.value rule) kept with
                 | None => JsMap.set (ProposedRule.value rule) rule kept
                 | Some existing =>
                     if Nat.ltb (ProposedRule.count existing) (ProposedRule.count rule)
                     then JsMap.set (ProposedRule.value rule) rule kept
                     else kept
                 end)
              rules kept)).
Proof.
  revert kept. induction rules as [|r rules IH]; intros kept H; [exact H|].
  cbn [fold_left]. apply IH.
  destruct (JsMap.get (ProposedRule.value r) kept) as [existing|].
  - destruct (Nat.ltb _ _); [now apply keys_set_NoDup|exact H].
  - now apply keys_set_NoDup.
Qed.

(** X22.  Deduplicating the proposals ([prefixMap], [suffixMap]).  One
    proposal is kept per text, and none for a text no proposal has.  The
    proposal kept for a text is one of the proposals with that text, counts
    at least as many channels as every proposal with that text, and strictly
    more than those that come before it: among the most popular the first
    is kept. *)
Theorem keepMostPopular_keeps_maximum (rules : list ProposedRule.t) (text : string) :
  NoDup (JsMap.keys (keepMostPopular rules))
  /\ match JsMap.get text (keepMostPopular rules) with
     | None => forall rule, In rule rules -> ProposedRule.value rule <> text
     | Some kept =>
         In kept rules
         /\ ProposedRule.value kept = text
         /\ exists before after,
             filter (fun rule => String.eqb (ProposedRule.value rule) text) rules
             = before ++ kept :: after
             /\ Forall (fun rule => ProposedRule.count rule < ProposedRule.count kept)
                       before
             /\ Forall (fun rule => ProposedRule.count rule <= ProposedRule.count kept)
                       after
     end.
Proof.
  unfold keepMostPopular. split; [apply keepFrom_NoDup; constructor|].
  rewrite keepFrom_get. cbn [JsMap.get JsMap.empty].
  destruct (filter (fun rule => String.eqb (ProposedRule.value rule) text) rules)
    as [|first same] eqn:Ef.
  - intros rule Hin Hv.
    assert (H : In rule (filter (fun rule => String.eqb (ProposedRule.value rule) text)
                                rules)).
    { apply filter_In. split; [exact Hin|now apply String.eqb_eq]. }
    rewrite Ef in H. destruct H.
  - destruct (mostPopular_spec first same) as (before & after & E & Hb & Ha).
    remember (fold_left _ same first) as kept eqn:Ek. clear Ek.
    assert (Hin : In kept (filter (fun rule => String.eqb (ProposedRule.value rule) text)
                                  rules)).
    { rewrite Ef, E. apply in_or_app. right. now left. }
    apply filter_In in Hin as [Hin Hv]. apply String.eqb_eq in Hv.
    split; [exact Hin|]. split; [exact Hv|].
    exists before, after. now repeat split.
Qed.

(* ====================================================================== *)
(** * The pages of [getChannels] *)
(* ====================================================================== *)

Section PagesFacts.

Context {S : Type}.
Variable conversationsList : option string -> S -> Completion ConversationsList.t * S.
Variable localeCompare : string -> string -> Z.










End PagesFacts.


(* ====================================================================== *)
(** * How a run of [main] ends *)
(* ====================================================================== *)



Lemma endsWithStatus_failure {S} (message : string) (s : S) :
  endsWithStatus [Failure message; Exit 1] s s.
Proof.
  exists [Failure message], 1. repeat split; auto.
Qed.

Lemma endsWithStatus_uncaught {S} (e : Thrown) (s : S) :
  endsWithStatus (uncaught e) s s.
Proof. destruct e as [message]. apply endsWithStatus_failure. Qed.

Section RunEnds.

Context {S : Type}.
Variable p : Process S.






End RunEnds.

